(** * ClipWise front end: submission pipeline and per-clip interactions

    A shallow embedding of the client code of ClipWise:
    - [Home.handleSubmit] (app/page.tsx): the request life cycle and the
      unwrapping of the (possibly enveloped) response, and the results
      section of the page;
    - [UrlInput.handleSubmit] and [UrlInput.isValidYoutubeUrl]
      (app/components/UrlInput.tsx): the form in front of it;
    - [ClipCard] (app/components/ClipCard.tsx): what a card shows and the
      per-clip actions.

    JavaScript values are a first-order data type; the built-ins the code
    calls ([JSON.parse], [JSON.stringify], property access, truthiness,
    conversions to numbers and strings, [String.prototype.trim],
    [RegExp.prototype.test]) are written out next to the code that calls
    them.  Numbers are IEEE 754 binary64 values, with [SpecFloat]'s
    operations; the strings of the payload are sequences of UTF-16 code
    units; the text of the form field and the literals of the program are
    strings of 8-bit code units.  The wording of the [SyntaxError] of
    [JSON.parse] is left to the engine ([JS.Engine]); the browser's
    validation of the [url] field reaches the model as a verdict carried
    by the event. *)

From Stdlib Require Import String Ascii List ZArith NArith Lia Bool.
From Stdlib Require Import Decimal DecimalN DecimalFacts SpecFloat.
From stdpp Require Import base list.
Import ListNotations.

Local Open Scope string_scope.
Local Open Scope list_scope.

(** ** Numbers *)

Module Number.
Local Open Scope Z_scope.

(** IEEE 754 binary64, as [SpecFloat] has it: a finite number is
    [m * 2^e] with its sign. *)
Definition number : Type := spec_float.
Definition prec : Z := 53.
Definition emax : Z := 1024.

Definition NaN : number := S754_nan.
Definition zero : number := S754_zero false.

(** The same number, [-0] apart from [+0] and [NaN] the same as [NaN]. *)
Definition same (a b : number) : bool :=
  match a, b with
  | S754_zero s, S754_zero s' => Bool.eqb s s'
  | S754_infinity s, S754_infinity s' => Bool.eqb s s'
  | S754_nan, S754_nan => true
  | S754_finite s m e, S754_finite s' m' e' =>
      Bool.eqb s s' && Pos.eqb m m' && Z.eqb e e'
  | _, _ => false
  end.

Definition is_finite (x : number) : bool :=
  match x with
  | S754_zero _ | S754_finite _ _ _ => true
  | S754_infinity _ | S754_nan => false
  end.

(** The number nearest to the integer [z]. *)
Definition of_Z (z : Z) : number := binary_normalize prec emax z 0 false.

Definition of_nat (n : nat) : number := of_Z (Z.of_nat n).

(** The number nearest to [m * 10^e], ties to even: what a decimal literal
    denotes. *)
Definition of_decimal (negative : bool) (m : N) (e : Z) : number :=
  match m with
  | N0 => S754_zero negative
  | Npos p =>
      if 0 <=? e
      then binary_round prec emax negative (p * Z.to_pos (10 ^ e)) 0
      else SFdiv prec emax (S754_finite negative p 0)
             (S754_finite false (Z.to_pos (10 ^ (- e))) 0)
  end.

(** [x / y], [x % y], [Math.floor(x)], [x < y]. *)
Definition div (x y : number) : number := SFdiv prec emax x y.

Definition rem (x y : number) : number :=
  match x, y with
  | S754_nan, _ | _, S754_nan => S754_nan
  | S754_infinity _, _ => S754_nan
  | _, S754_zero _ => S754_nan
  | _, S754_infinity _ => x
  | S754_zero _, _ => x
  | S754_finite sx mx ex, S754_finite _ my ey =>
      let e := Z.min ex ey in
      let r := Z.rem (Zpos mx * 2 ^ (ex - e)) (Zpos my * 2 ^ (ey - e)) in
      binary_normalize prec emax (if sx then - r else r) e sx
  end.

Definition floor (x : number) : number :=
  match x with
  | S754_finite s m e =>
      if 0 <=? e then x
      else binary_normalize prec emax
             (Z.shiftr (if s then Zneg m else Zpos m) (- e)) 0 s
  | _ => x
  end.

Definition ltb (x y : number) : bool := SFltb x y.

(** [x === y] on numbers. *)
Definition eqb (x y : number) : bool := SFeqb x y.

(** *** The digits of a number ([Number::toString])

    A positive finite number [x] is printed from the decimal
    [0.d1...dk * 10^n] with the fewest digits that denotes [x] again, the
    nearest to [x] when there are several. *)

(** [m * 2^e] as a fraction. *)
Definition ratio (m : positive) (e : Z) : Z * Z :=
  if 0 <=? e then (Zpos m * 2 ^ e, 1) else (Zpos m, 2 ^ (- e)).

(** [num/den < 10^n]. *)
Definition below_pow10 (num den n : Z) : bool :=
  if 0 <=? n then num <? den * 10 ^ n else num * 10 ^ (- n) <? den.

(** The least [n] from [n0] on with [num/den < 10^n]. *)
Fixpoint magnitude_from (fuel : nat) (n num den : Z) : Z :=
  match fuel with
  | O => n
  | S fuel' =>
      if below_pow10 num den n then n
      else magnitude_from fuel' (n + 1) num den
  end.

(** [log2 x] to within one gives [log10 x] to within two. *)
Definition magnitude (num den : Z) : Z :=
  let t := Z.log2 num - Z.log2 den - 1 in
  magnitude_from 8 (t * 30103 / 100000 - 1) num den.

(** Decimal digits, most significant first. *)
Fixpoint digits_from (fuel : nat) (n : Z) (acc : list Z) : list Z :=
  match fuel with
  | O => acc
  | S fuel' =>
      if n <? 10 then n :: acc
      else digits_from fuel' (n / 10) (n mod 10 :: acc)
  end.

Definition digits (n : Z) : list Z :=
  digits_from (S (Z.to_nat (Z.log2 n))) n [].

Fixpoint digits_value (acc : Z) (ds : list Z) : Z :=
  match ds with
  | [] => acc
  | d :: r => digits_value (10 * acc + d) r
  end.

Fixpoint strip_zeros (ds : list Z) : list Z :=
  match ds with
  | 0 :: r => strip_zeros r
  | _ => ds
  end.

Definition strip_trailing_zeros (ds : list Z) : list Z :=
  List.rev (strip_zeros (List.rev ds)).

(** The decimal [0.d1 d2 ... dk * 10^n]. *)
Definition decimal : Type := list Z * Z.

Definition decimal_number (d : decimal) : number :=
  of_decimal false (Z.to_N (digits_value 0 (fst d)))
    (snd d - Z.of_nat (length (fst d))).

(** The decimal of [s * 10^e]. *)
Definition decimal_of (s e : Z) : decimal :=
  let ds := digits s in
  (strip_trailing_zeros ds, e + Z.of_nat (length ds)).

(** The candidates with [k] digits for [num/den < 10^n]: [num/den *
    10^(k-n)] rounded down and up, the nearer one first (the even one on a
    tie). *)
Definition candidates (num den n k : Z) : list decimal :=
  let '(a, b) :=
    if 0 <=? k - n then (num * 10 ^ (k - n), den)
    else (num, den * 10 ^ (n - k)) in
  let lo := a / b in
  let down := decimal_of lo (n - k) in
  let up := decimal_of (lo + 1) (n - k) in
  match 2 * (a mod b) ?= b with
  | Lt => [down; up]
  | Gt => [up; down]
  | Eq => if Z.even lo then [down; up] else [up; down]
  end.

(** The first candidate that denotes [x], the shorter ones tried first. *)
Fixpoint shortest (fuel : nat) (k : Z) (x : number) (num den n : Z) :
    option decimal :=
  match fuel with
  | O => None
  | S fuel' =>
      match List.find (fun d => same (decimal_number d) x)
              (candidates num den n k) with
      | Some d => Some d
      | None => shortest fuel' (k + 1) x num den n
      end
  end.

(** The decimal expansion of [m * 2^e], in full. *)
Definition exact (m : positive) (e : Z) : decimal :=
  if 0 <=? e then
    let ds := digits (Zpos m * 2 ^ e) in (ds, Z.of_nat (length ds))
  else
    let ds := digits (Zpos m * 5 ^ (- e)) in (ds, e + Z.of_nat (length ds)).

(** Seventeen digits tell any two numbers apart; the full expansion stands
    behind them. *)
Definition to_decimal (m : positive) (e : Z) : decimal :=
  let '(num, den) := ratio m e in
  match shortest 17 1 (S754_finite false m e) num den (magnitude num den) with
  | Some d => d
  | None => exact m e
  end.

(** The numbers [JSON.stringify] writes and [JSON.parse] reads back: the
    finite binary64 values other than [-0]. *)
Definition plain (x : number) : bool :=
  match x with
  | S754_zero s => negb s
  | S754_finite _ m e => bounded prec emax m e
  | _ => false
  end.

End Number.

Arguments pair {A B}%_type_scope & a b.
Arguments cons {A}%_type_scope & a l.

(** ** JavaScript values *)

Module JS.
Export Number.

(** A string is the sequence of its UTF-16 code units.  The literals of the
    program are 8-bit strings, taken unit by unit. *)
Definition code_unit : Type := N.
Definition jstring : Type := list code_unit.

Definition units (cs : list ascii) : jstring := map N_of_ascii cs.

Definition str (s : string) : jstring := units (list_ascii_of_string s).
Coercion str : string >-> jstring.

Fixpoint jstring_eqb (a b : jstring) : bool :=
  match a, b with
  | [], [] => true
  | x :: a', y :: b' => (x =? y)%N && jstring_eqb a' b'
  | _, _ => false
  end.

Unset Elimination Schemes.
Inductive value : Type :=
| VUndef : value
| VNull : value
| VBool (b : bool) : value
| VNum (x : number) : value
| VStr (s : jstring) : value
| VArr (items : list value) : value
| VObj (fields : list (jstring * value)) : value.
Set Elimination Schemes.

(** Induction with the hypotheses for the values nested in arrays and
    objects. *)
Section value_ind.
Variable P : value -> Prop.
Hypothesis Hundef : P VUndef.
Hypothesis Hnull : P VNull.
Hypothesis Hbool : forall b, P (VBool b).
Hypothesis Hnum : forall x, P (VNum x).
Hypothesis Hstr : forall s, P (VStr s).
Hypothesis Harr : forall items, Forall P items -> P (VArr items).
Hypothesis Hobj :
  forall fields, Forall (fun kv => P (snd kv)) fields -> P (VObj fields).

Fixpoint value_ind (v : value) : P v :=
  match v with
  | VUndef => Hundef
  | VNull => Hnull
  | VBool b => Hbool b
  | VNum x => Hnum x
  | VStr s => Hstr s
  | VArr items =>
      Harr items
        ((fix go (l : list value) : Forall P l :=
            match l with
            | [] => @List.Forall_nil _ P
            | x :: l' => @List.Forall_cons _ P x l' (value_ind x) (go l')
            end) items)
  | VObj fields =>
      Hobj fields
        ((fix go (l : list (jstring * value)) :
            Forall (fun kv => P (snd kv)) l :=
            match l with
            | [] => @List.Forall_nil _ _
            | kv :: l' =>
                @List.Forall_cons _ (fun kv => P (snd kv)) kv l'
                  (value_ind (snd kv)) (go l')
            end) fields)
  end.
End value_ind.

(** Thrown values.  [catch (err)] in the page only asks whether [err] is an
    [Error] instance and, if so, reads its [message]. *)
Inductive error_kind := Error | TypeError | SyntaxError.

Inductive thrown :=
| Thrown (kind : error_kind) (message : string)   (* err instanceof Error *)
| ThrownOther (v : value).                        (* any other thrown value *)

Inductive result (A : Type) :=
| Ok (a : A)
| Throw (e : thrown).
Arguments Ok {A} a.
Arguments Throw {A} e.

(** The engine words the [SyntaxError] of [JSON.parse] as it likes, from
    the text it was given; the message is never empty. *)
Class Engine := {
  syntax_error_message : jstring -> string;
  syntax_error_message_nonempty : forall text, syntax_error_message text <> ""
}.

(** [ToBoolean]. *)
Definition truthy (v : value) : bool :=
  match v with
  | VUndef | VNull => false
  | VBool b => b
  | VNum (S754_zero _ | S754_nan) => false
  | VNum _ => true
  | VStr [] => false
  | VStr _ => true
  | VArr _ | VObj _ => true
  end.

(** [a || b]. *)
Definition or_else (a b : value) : value := if truthy a then a else b.

(** Own properties of an object, in enumeration order. *)
Fixpoint lookup_field (k : jstring) (fields : list (jstring * value)) : value :=
  match fields with
  | [] => VUndef
  | (k', v) :: rest => if jstring_eqb k k' then v else lookup_field k rest
  end.

Definition has_field (k : jstring) (fields : list (jstring * value)) : bool :=
  existsb (fun kv => jstring_eqb k (fst kv)) fields.

(** Messages of the [TypeError]s the engine raises (V8 wording; the page
    only displays them). *)
Definition msg_read_of (what k : string) : string :=
  "Cannot read properties of " ++ what ++ " (reading '" ++ k ++ "')".

Definition msg_to_primitive : string :=
  "Cannot convert object to primitive value".

(** [v.k] for a property name [k] that no built-in prototype defines: the
    page reads [body], [clips], [video_id], [s3_url] and the fields of a
    clip.  Only objects have such a property; [null] and [undefined] have no
    properties at all. *)
Definition get (v : value) (k : string) : result value :=
  match v with
  | VUndef => Throw (Thrown TypeError (msg_read_of "undefined" k))
  | VNull => Throw (Thrown TypeError (msg_read_of "null" k))
  | VObj fields => Ok (lookup_field k fields)
  | _ => Ok VUndef
  end.

(** [v.length]: arrays and strings have one of their own. *)
Definition get_length (v : value) : result value :=
  match v with
  | VArr items => Ok (VNum (of_nat (length items)))
  | VStr s => Ok (VNum (of_nat (length s)))
  | _ => get v "length"
  end.

(** *** Decimal numerals *)

Fixpoint chars_of_uint (d : uint) : list ascii :=
  match d with
  | Nil => []
  | D0 d => "0"%char :: chars_of_uint d
  | D1 d => "1"%char :: chars_of_uint d
  | D2 d => "2"%char :: chars_of_uint d
  | D3 d => "3"%char :: chars_of_uint d
  | D4 d => "4"%char :: chars_of_uint d
  | D5 d => "5"%char :: chars_of_uint d
  | D6 d => "6"%char :: chars_of_uint d
  | D7 d => "7"%char :: chars_of_uint d
  | D8 d => "8"%char :: chars_of_uint d
  | D9 d => "9"%char :: chars_of_uint d
  end.

Definition digit_of (c : ascii) : option (uint -> uint) :=
  if Ascii.eqb c "0" then Some D0 else
  if Ascii.eqb c "1" then Some D1 else
  if Ascii.eqb c "2" then Some D2 else
  if Ascii.eqb c "3" then Some D3 else
  if Ascii.eqb c "4" then Some D4 else
  if Ascii.eqb c "5" then Some D5 else
  if Ascii.eqb c "6" then Some D6 else
  if Ascii.eqb c "7" then Some D7 else
  if Ascii.eqb c "8" then Some D8 else
  if Ascii.eqb c "9" then Some D9 else None.

(** The longest prefix of decimal digits, and what follows it. *)
Fixpoint read_digits (s : list ascii) : uint * list ascii :=
  match s with
  | [] => (Nil, [])
  | c :: r =>
      match digit_of c with
      | Some D => let '(d, r') := read_digits r in (D d, r')
      | None => (Nil, s)
      end
  end.

(** The decimal numeral of an integer. *)
Definition chars_of_Z (n : Z) : list ascii :=
  match n with
  | Z0 => ["0"%char]
  | Zpos p => chars_of_uint (Pos.to_uint p)
  | Zneg p => "-"%char :: chars_of_uint (Pos.to_uint p)
  end.

(** A string of 8-bit code units, unit by unit. *)
Fixpoint ascii_text (s : jstring) : option (list ascii) :=
  match s with
  | [] => Some []
  | c :: r =>
      if (c <? 256)%N then
        match ascii_text r with
        | Some t => Some (ascii_of_N c :: t)
        | None => None
        end
      else None
  end.

(** *** [Number::toString] *)

Definition digit_unit (d : Z) : code_unit := Z.to_N (48 + d).

Definition digit_units (ds : list Z) : jstring := map digit_unit ds.

Definition zeros (n : Z) : jstring := repeat 48%N (Z.to_nat n).

(** The text of the decimal [0.d1...dk * 10^n]: plain digits up to
    [10^21], a fraction down to [10^-6], an exponent beyond. *)
Definition format_decimal (d : decimal) : jstring :=
  let '(ds, n) := d in
  let k := Z.of_nat (length ds) in
  if ((k <=? n) && (n <=? 21))%Z then digit_units ds ++ zeros (n - k)
  else if ((0 <? n) && (n <=? 21))%Z then
    digit_units (firstn (Z.to_nat n) ds) ++ str "."
      ++ digit_units (skipn (Z.to_nat n) ds)
  else if ((-6 <? n) && (n <=? 0))%Z then
    str "0." ++ zeros (- n) ++ digit_units ds
  else
    let e := (n - 1)%Z in
    match ds with
    | [] => []
    | [d] => [digit_unit d]
    | d :: r => digit_unit d :: str "." ++ digit_units r
    end ++ str (if (0 <=? e)%Z then "e+" else "e-")
        ++ digit_units (digits (Z.abs e)).

Definition number_to_string (x : number) : jstring :=
  match x with
  | S754_nan => "NaN"
  | S754_zero _ => "0"
  | S754_infinity false => "Infinity"
  | S754_infinity true => "-Infinity"
  | S754_finite s m e =>
      (if s then str "-" else []) ++ format_decimal (to_decimal m e)
  end.

(** *** Reading numerals *)

Definition is_digit (c : code_unit) : bool := ((48 <=? c) && (c <=? 57))%N.

(** The longest prefix of decimal digits read onto [acc]: the value, the
    number of digits read, and what follows. *)
Fixpoint read_decimal (acc : N) (s : jstring) : N * nat * jstring :=
  match s with
  | c :: r =>
      if is_digit c then
        let '(m, n, r') := read_decimal (10 * acc + (c - 48)) r in
        (m, S n, r')
      else (acc, O, s)
  | [] => (acc, O, [])
  end.

(** An exponent part, [e] or [E], a sign or none, and digits; no exponent
    part counts for zero. *)
Definition read_exponent (s : jstring) : option (Z * jstring) :=
  match s with
  | c :: r =>
      if ((c =? 101) || (c =? 69))%N then
        let '(negative, r1) :=
          match r with
          | c' :: r' =>
              if (c' =? 45)%N then (true, r')
              else if (c' =? 43)%N then (false, r')
              else (false, r)
          | [] => (false, r)
          end in
        match read_decimal 0 r1 with
        | (_, O, _) => None
        | (e, _, r2) => Some (if negative then (- Z.of_N e)%Z else Z.of_N e, r2)
        end
      else Some (0%Z, s)
  | [] => Some (0%Z, s)
  end.

(** *** [StringToNumber] *)

(** White space and line terminators. *)
Definition is_str_ws (c : code_unit) : bool :=
  (((9 <=? c) && (c <=? 13)) || (c =? 32) || (c =? 160) || (c =? 5760)
   || ((8192 <=? c) && (c <=? 8202)) || (c =? 8232) || (c =? 8233)
   || (c =? 8239) || (c =? 8287) || (c =? 12288) || (c =? 65279))%N.

Fixpoint drop_ws (s : jstring) : jstring :=
  match s with
  | c :: r => if is_str_ws c then drop_ws r else s
  | [] => []
  end.

Definition trim_ws (s : jstring) : jstring :=
  List.rev (drop_ws (List.rev (drop_ws s))).

(** The value of a digit in the base [radix], if it is one. *)
Definition digit_in (radix : N) (c : code_unit) : option N :=
  let d :=
    if ((48 <=? c) && (c <=? 57))%N then Some (c - 48)%N
    else if ((97 <=? c) && (c <=? 122))%N then Some (c - 87)%N
    else if ((65 <=? c) && (c <=? 90))%N then Some (c - 55)%N
    else None in
  match d with
  | Some n => if (n <? radix)%N then Some n else None
  | None => None
  end.

Fixpoint read_radix (radix acc : N) (s : jstring) : option N :=
  match s with
  | [] => Some acc
  | c :: r =>
      match digit_in radix c with
      | Some d => read_radix radix (radix * acc + d) r
      | None => None
      end
  end.

(** [0x], [0o] and [0b] literals. *)
Definition non_decimal (s : jstring) : option number :=
  match s with
  | 48%N :: p :: (_ :: _) as ds =>
      let radix :=
        if ((p =? 120) || (p =? 88))%N then Some 16%N
        else if ((p =? 111) || (p =? 79))%N then Some 8%N
        else if ((p =? 98) || (p =? 66))%N then Some 2%N
        else None in
      match radix with
      | Some b =>
          match read_radix b 0 ds with
          | Some n => Some (of_Z (Z.of_N n))
          | None => None
          end
      | None => None
      end
  | _ => None
  end.

(** A decimal literal with no sign: digits with an optional fraction, or a
    fraction alone, and an optional exponent, up to the end of the text. *)
Definition unsigned_decimal (negative : bool) (s : jstring) : option number :=
  let '(int, n_int, r1) := read_decimal 0 s in
  let '(m, n_frac, r2) :=
    match r1 with
    | 46%N :: r => read_decimal int r
    | _ => (int, O, r1)
    end in
  match n_int, n_frac with
  | O, O => None
  | _, _ =>
      match read_exponent r2 with
      | Some (e, []) => Some (of_decimal negative m (e - Z.of_nat n_frac))
      | _ => None
      end
  end.

Definition str_decimal (s : jstring) : option number :=
  let '(negative, r) :=
    match s with
    | c :: r' =>
        if (c =? 45)%N then (true, r')
        else if (c =? 43)%N then (false, r')
        else (false, s)
    | [] => (false, s)
    end in
  if jstring_eqb r "Infinity" then Some (S754_infinity negative)
  else unsigned_decimal negative r.

Definition string_to_number (s : jstring) : number :=
  match trim_ws s with
  | [] => zero
  | t =>
      match non_decimal t with
      | Some x => x
      | None =>
          match str_decimal t with
          | Some x => x
          | None => NaN
          end
      end
  end.

(** *** Objects

    An object is the list of its own properties in enumeration order:
    array-index keys first, by ascending index, then the other keys in
    creation order. *)

Definition array_index (k : jstring) : option N :=
  match ascii_text k with
  | Some cs =>
      match read_digits cs with
      | (d, []) =>
          match d with
          | Nil => None
          | D0 Nil => Some 0%N
          | D0 _ => None
          | _ => let n := N.of_uint d in
                 if (n <? 4294967295)%N then Some n else None
          end
      | _ => None
      end
  | None => None
  end.

Fixpoint obj_insert_index (i : N) (k : jstring) (v : value)
    (fields : list (jstring * value)) : list (jstring * value) :=
  match fields with
  | [] => [(k, v)]
  | (k', v') :: rest =>
      match array_index k' with
      | Some j =>
          if (j <? i)%N then (k', v') :: obj_insert_index i k v rest
          else (k, v) :: fields
      | None => (k, v) :: fields
      end
  end.

(** [o[k] = v] (as [CreateDataProperty] does): an existing property keeps its
    place, a new one is enumerated where its key belongs. *)
Definition obj_set (fields : list (jstring * value)) (k : jstring) (v : value) :
    list (jstring * value) :=
  if has_field k fields then
    map (fun kv => if jstring_eqb k (fst kv) then (fst kv, v) else kv) fields
  else
    match array_index k with
    | Some i => obj_insert_index i k v fields
    | None => fields ++ [(k, v)]
    end.

Definition add_member (acc : list (jstring * value)) (kv : jstring * value) :
    list (jstring * value) :=
  obj_set acc (fst kv) (snd kv).

(** The object built from its members in source order, as [JSON.parse]
    builds it: a repeated key keeps its last value. *)
Definition obj_of_members (members : list (jstring * value)) :
    list (jstring * value) :=
  fold_left add_member members [].

Definition obj_delete (k : jstring) (fields : list (jstring * value)) :
    list (jstring * value) :=
  List.filter (fun kv => negb (jstring_eqb k (fst kv))) fields.

(** [{...v}]: the own enumerable properties of [v], copied into a fresh
    object.  Primitives other than strings have none. *)
Definition indexed {A} (f : A -> value) (l : list A) : list (jstring * value) :=
  map (fun iv : nat * A =>
         (units (chars_of_Z (Z.of_nat (fst iv))), f (snd iv)))
      (combine (seq 0 (length l)) l).

Definition spread (v : value) : list (jstring * value) :=
  match v with
  | VObj fields => fields
  | VArr items => indexed (fun x => x) items
  | VStr s => indexed (fun c => VStr [c]) s
  | _ => []
  end.

(** The order in which an object enumerates its keys. *)
Definition above (i : N) (kv : jstring * value) : Prop :=
  match array_index (fst kv) with
  | Some j => (i < j)%N
  | None => True
  end.

Definition named_other (k : jstring) (kv : jstring * value) : Prop :=
  array_index (fst kv) = None /\ fst kv <> k.

Inductive canonical : list (jstring * value) -> Prop :=
| canonical_nil : canonical []
| canonical_index k v i rest :
    array_index k = Some i -> Forall (above i) rest -> canonical rest ->
    canonical ((k, v) :: rest)
| canonical_name k v rest :
    array_index k = None -> Forall (named_other k) rest -> canonical rest ->
    canonical ((k, v) :: rest).

(** *** Conversions *)

Fixpoint join (sep : jstring) (parts : list jstring) : jstring :=
  match parts with
  | [] => []
  | [p] => p
  | p :: rest => p ++ sep ++ join sep rest
  end.

(** [ToString].  An array is joined on commas, [null] and [undefined] items
    being empty; an object is [[object Object]] unless an own [toString]
    property hides the inherited method. *)
Fixpoint to_string (v : value) : result jstring :=
  match v with
  | VUndef => Ok (str "undefined")
  | VNull => Ok (str "null")
  | VBool true => Ok (str "true")
  | VBool false => Ok (str "false")
  | VNum x => Ok (number_to_string x)
  | VStr s => Ok s
  | VArr items =>
      (fix go (l : list value) (acc : list jstring) : result jstring :=
         match l with
         | [] => Ok (join (str ",") (List.rev acc))
         | x :: l' =>
             match (match x with
                    | VUndef | VNull => Ok []
                    | _ => to_string x
                    end) with
             | Ok t => go l' (t :: acc)
             | Throw e => Throw e
             end
         end) items []
  | VObj fields =>
      if has_field "toString" fields
      then Throw (Thrown TypeError msg_to_primitive)
      else Ok (str "[object Object]")
  end.

(** [ToNumber].  An array or an object goes through its string: the
    inherited [valueOf] returns the object itself. *)
Definition to_number (v : value) : result number :=
  match v with
  | VUndef => Ok NaN
  | VNull => Ok zero
  | VBool true => Ok (of_Z 1)
  | VBool false => Ok zero
  | VNum x => Ok x
  | VStr s => Ok (string_to_number s)
  | VArr _ | VObj _ =>
      match to_string v with
      | Ok s => Ok (string_to_number s)
      | Throw e => Throw e
      end
  end.

(** [v > 0] and [v !== 1]. *)
Definition gt_zero (v : value) : result bool :=
  match to_number v with
  | Ok x => Ok (ltb zero x)
  | Throw e => Throw e
  end.

Definition is_not_one (v : value) : bool :=
  match v with
  | VNum x => negb (eqb x (of_Z 1))
  | _ => true
  end.

End JS.

(** ** The built-in [JSON] object *)

Module JSON.
Import JS.

Definition dquote : code_unit := 34%N.
Definition bslash : code_unit := 92%N.

(** The code unit of an 8-bit character. *)
Definition u (c : ascii) : code_unit := N_of_ascii c.

Definition hex_digit (n : N) : code_unit :=
  if (n <? 10)%N then (48 + n)%N else (87 + n)%N.

Definition hex_value (c : code_unit) : option N :=
  if ((48 <=? c) && (c <=? 57))%N then Some (c - 48)%N
  else if ((97 <=? c) && (c <=? 102))%N then Some (c - 87)%N
  else if ((65 <=? c) && (c <=? 70))%N then Some (c - 55)%N
  else None.

(** [\uXXXX]. *)
Definition unicode_escape (c : code_unit) : jstring :=
  [bslash; u "u"; hex_digit (c / 4096 mod 16); hex_digit (c / 256 mod 16);
   hex_digit (c / 16 mod 16); hex_digit (c mod 16)]%N.

Definition is_high_surrogate (c : code_unit) : bool :=
  ((55296 <=? c) && (c <=? 56319))%N.

Definition is_low_surrogate (c : code_unit) : bool :=
  ((56320 <=? c) && (c <=? 57343))%N.

(** [QuoteJSONString] on a code unit that is no surrogate. *)
Definition escape_unit (c : code_unit) : jstring :=
  if (c =? 8)%N then [bslash; u "b"]
  else if (c =? 9)%N then [bslash; u "t"]
  else if (c =? 10)%N then [bslash; u "n"]
  else if (c =? 12)%N then [bslash; u "f"]
  else if (c =? 13)%N then [bslash; u "r"]
  else if (c =? 34)%N then [bslash; dquote]
  else if (c =? 92)%N then [bslash; bslash]
  else if (c <? 32)%N then unicode_escape c
  else [c].

(** [QuoteJSONString], code point by code point: a surrogate pair is
    written as it is, a surrogate on its own is escaped. *)
Fixpoint escape (s : jstring) : jstring :=
  match s with
  | [] => []
  | c :: r =>
      if is_high_surrogate c then
        match r with
        | d :: r' =>
            if is_low_surrogate d then c :: d :: escape r'
            else unicode_escape c ++ escape r
        | [] => unicode_escape c
        end
      else if is_low_surrogate c then unicode_escape c ++ escape r
      else escape_unit c ++ escape r
  end.

Definition quote (s : jstring) : jstring :=
  dquote :: escape s ++ [dquote].

Definition is_nil {A} (l : list A) : bool :=
  match l with [] => true | _ => false end.

(** The text between the brackets of a non-empty array or object
    ([SerializeJSONArray], [SerializeJSONObject]): on one line without a
    gap, one item per line at the new indentation with one. *)
Definition wrap (opening closing : code_unit) (gap stepback : jstring)
    (partial : list jstring) : jstring :=
  if is_nil partial then [opening; closing]
  else if is_nil gap then
    opening :: join [u ","] partial ++ [closing]
  else
    let indent := stepback ++ gap in
    let nl := 10%N in
    opening :: nl :: indent ++ join (u "," :: nl :: indent) partial
      ++ nl :: stepback ++ [closing].

(** [SerializeJSONProperty]: [None] is the [undefined] that
    [JSON.stringify] returns for a value with no JSON form.  A property
    whose value has none is left out of its object; in an array it is
    written [null].  A number that is not finite is written [null]. *)
Fixpoint serialize (gap indent : jstring) (v : value) : option jstring :=
  match v with
  | VUndef => None
  | VNull => Some (str "null")
  | VBool true => Some (str "true")
  | VBool false => Some (str "false")
  | VNum x =>
      Some (if is_finite x then number_to_string x else str "null")
  | VStr s => Some (quote s)
  | VArr items =>
      Some (wrap (u "[") (u "]") gap indent
        (map (fun x =>
                match serialize gap (indent ++ gap) x with
                | Some t => t
                | None => str "null"
                end) items))
  | VObj fields =>
      Some (wrap (u "{") (u "}") gap indent
        (flat_map (fun kv =>
                match serialize gap (indent ++ gap) (snd kv) with
                | Some t =>
                    [quote (fst kv) ++ u ":" ::
                       (if is_nil gap then [] else [u " "]) ++ t]
                | None => []
                end) fields))
  end.

(** [JSON.stringify(v)] and [JSON.stringify(v, null, n)]. *)
Definition stringify_gap (n : nat) (v : value) : option jstring :=
  serialize (repeat (u " ") (Nat.min n 10)) [] v.

Definition stringify (v : value) : option jstring := stringify_gap 0 v.

(** *** Parsing *)

Definition is_ws (c : code_unit) : bool :=
  ((c =? 32) || (c =? 9) || (c =? 10) || (c =? 13))%N.

Fixpoint skip_ws (s : jstring) : jstring :=
  match s with
  | c :: r => if is_ws c then skip_ws r else s
  | [] => []
  end.

Fixpoint strip_prefix (p s : jstring) : option jstring :=
  match p, s with
  | [], _ => Some s
  | a :: p', b :: s' => if (a =? b)%N then strip_prefix p' s' else None
  | _ :: _, [] => None
  end.

Definition cons_to (c : code_unit) (o : option (jstring * jstring)) :
    option (jstring * jstring) :=
  match o with
  | Some (s, r) => Some (c :: s, r)
  | None => None
  end.

(** The code units of a string literal after its opening quote, and the
    text after its closing quote. *)
Fixpoint parse_string (s : jstring) : option (jstring * jstring) :=
  match s with
  | [] => None
  | c :: r =>
      if (c =? dquote)%N then Some ([], r)
      else if (c =? bslash)%N then
        match r with
        | [] => None
        | e :: r1 =>
            if (e =? dquote)%N then cons_to dquote (parse_string r1)
            else if (e =? bslash)%N then cons_to bslash (parse_string r1)
            else if (e =? u "/")%N then cons_to (u "/") (parse_string r1)
            else if (e =? u "b")%N then cons_to 8%N (parse_string r1)
            else if (e =? u "f")%N then cons_to 12%N (parse_string r1)
            else if (e =? u "n")%N then cons_to 10%N (parse_string r1)
            else if (e =? u "r")%N then cons_to 13%N (parse_string r1)
            else if (e =? u "t")%N then cons_to 9%N (parse_string r1)
            else if (e =? u "u")%N then
              match r1 with
              | h1 :: h2 :: h3 :: h4 :: r2 =>
                  match hex_value h1, hex_value h2, hex_value h3, hex_value h4 with
                  | Some a, Some b, Some c', Some d =>
                      cons_to (((a * 16 + b) * 16 + c') * 16 + d)%N
                        (parse_string r2)
                  | _, _, _, _ => None
                  end
              | _ => None
              end
            else None
        end
      else if (c <? 32)%N then None
      else cons_to c (parse_string r)
  end.

(** A numeral of the JSON grammar at the head of [s]: an optional minus
    sign, an integer part with no leading zero, an optional fraction and an
    optional exponent. *)
Definition read_sign (s : jstring) : bool * jstring :=
  match s with
  | c :: r => if (c =? u "-")%N then (true, r) else (false, s)
  | [] => (false, s)
  end.

Definition leading_zero (s : jstring) (n_digits : nat) : bool :=
  match s, n_digits with
  | c :: _, S (S _) => (c =? u "0")%N
  | _, _ => false
  end.

Definition read_fraction (int : N) (s : jstring) : option (N * nat * jstring) :=
  match s with
  | c :: r =>
      if (c =? u ".")%N then
        match read_decimal int r with
        | (_, O, _) => None
        | (m, k, r2) => Some (m, k, r2)
        end
      else Some (int, O, s)
  | [] => Some (int, O, s)
  end.

Definition parse_number (s : jstring) : option (number * jstring) :=
  let '(negative, s1) := read_sign s in
  match read_decimal 0 s1 with
  | (_, O, _) => None
  | (int, n, r1) =>
      if leading_zero s1 n then None
      else
        match read_fraction int r1 with
        | Some (m, n_frac, r2) =>
            match read_exponent r2 with
            | Some (e, r3) =>
                Some (of_decimal negative m (e - Z.of_nat n_frac), r3)
            | None => None
            end
        | None => None
        end
  end.

Definition starts_with (c : code_unit) (s : jstring) : option jstring :=
  match s with
  | c' :: r => if (c =? c')%N then Some r else None
  | [] => None
  end.

(** A JSON value at the head of [s] (after white space) and the text that
    follows it.  [fuel] bounds the number of nested calls; an object is
    built property by property, so a repeated key keeps its last value. *)
Fixpoint parse_value (fuel : nat) (s : jstring) {struct fuel} :
    option (value * jstring) :=
  match fuel with
  | O => None
  | S fuel' =>
      let s := skip_ws s in
      match strip_prefix (str "null") s with
      | Some r => Some (VNull, r)
      | None =>
      match strip_prefix (str "true") s with
      | Some r => Some (VBool true, r)
      | None =>
      match strip_prefix (str "false") s with
      | Some r => Some (VBool false, r)
      | None =>
      match starts_with dquote s with
      | Some r =>
          match parse_string r with
          | Some (t, r') => Some (VStr t, r')
          | None => None
          end
      | None =>
      match starts_with (u "[") s with
      | Some r =>
          match starts_with (u "]") (skip_ws r) with
          | Some r' => Some (VArr [], r')
          | None => parse_elements fuel' r []
          end
      | None =>
      match starts_with (u "{") s with
      | Some r =>
          match starts_with (u "}") (skip_ws r) with
          | Some r' => Some (VObj [], r')
          | None => parse_members fuel' r []
          end
      | None =>
          match parse_number s with
          | Some (x, r) => Some (VNum x, r)
          | None => None
          end
      end end end end end end
  end
with parse_elements (fuel : nat) (s : jstring) (acc : list value)
    {struct fuel} : option (value * jstring) :=
  match fuel with
  | O => None
  | S fuel' =>
      match parse_value fuel' s with
      | Some (v, r) =>
          let r := skip_ws r in
          match starts_with (u ",") r with
          | Some r' => parse_elements fuel' r' (v :: acc)
          | None =>
              match starts_with (u "]") r with
              | Some r' => Some (VArr (List.rev (v :: acc)), r')
              | None => None
              end
          end
      | None => None
      end
  end
with parse_members (fuel : nat) (s : jstring) (acc : list (jstring * value))
    {struct fuel} : option (value * jstring) :=
  match fuel with
  | O => None
  | S fuel' =>
      match starts_with dquote (skip_ws s) with
      | Some r =>
          match parse_string r with
          | Some (k, r1) =>
              match starts_with (u ":") (skip_ws r1) with
              | Some r2 =>
                  match parse_value fuel' r2 with
                  | Some (v, r3) =>
                      let acc' := add_member acc (k, v) in
                      let r3 := skip_ws r3 in
                      match starts_with (u ",") r3 with
                      | Some r4 => parse_members fuel' r4 acc'
                      | None =>
                          match starts_with (u "}") r3 with
                          | Some r4 => Some (VObj acc', r4)
                          | None => None
                          end
                      end
                  | None => None
                  end
              | None => None
              end
          | None => None
          end
      | None => None
      end
  end.

(** [JSON.parse] on a text: the value of the whole text, or the engine's
    [SyntaxError]. *)
Definition parse_text `{Engine} (s : jstring) : result value :=
  match parse_value (S (length s)) s with
  | Some (v, r) =>
      if is_nil (skip_ws r) then Ok v
      else Throw (Thrown SyntaxError (syntax_error_message s))
  | None => Throw (Thrown SyntaxError (syntax_error_message s))
  end.

(** [JSON.parse(v)]: the argument is converted to a string first. *)
Definition parse `{Engine} (v : value) : result value :=
  match to_string v with
  | Ok t => parse_text t
  | Throw e => Throw e
  end.

(** The values a JSON text decodes to: no [undefined], every object
    enumerates its properties the way building it key by key does, and
    every number is as [P] wants it. *)
#[warnings="-register-all"]
Inductive decoded_where (P : number -> Prop) : value -> Prop :=
| decoded_null : decoded_where P VNull
| decoded_bool b : decoded_where P (VBool b)
| decoded_num x : P x -> decoded_where P (VNum x)
| decoded_str s : decoded_where P (VStr s)
| decoded_arr items :
    Forall (decoded_where P) items -> decoded_where P (VArr items)
| decoded_obj fields :
    obj_of_members fields = fields ->
    Forall (fun kv => decoded_where P (snd kv)) fields ->
    decoded_where P (VObj fields).

Definition decoded : value -> Prop := decoded_where (fun _ => True).

(** The decoded values that [JSON.stringify] writes without loss: their
    numbers are finite and none is [-0]. *)
Definition written_whole : value -> Prop :=
  decoded_where (fun x => plain x = true).

(** Every number in [v] is written in full. *)
Fixpoint all_plain (v : value) : bool :=
  match v with
  | VNum x => plain x
  | VArr items => forallb all_plain items
  | VObj fields => forallb (fun kv => all_plain (snd kv)) fields
  | _ => true
  end.

(** The compact text of a value, [null] standing for a value with none. *)
Definition text (v : value) : jstring :=
  match serialize [] [] v with
  | Some t => t
  | None => str "null"
  end.

Definition member_text (kv : jstring * value) : jstring :=
  quote (fst kv) ++ u ":" :: text (snd kv).

(** What may follow a number literal without changing how it reads. *)
Definition delimited (rest : jstring) : bool :=
  match rest with
  | [] => true
  | c :: _ =>
      negb (is_digit c || (c =? u ".") || (c =? u "e") || (c =? u "E"))%N
  end.

(** The first code unit of a serialised value is none of the punctuation
    the parser looks for between values. *)
Definition opens_value (t : jstring) : bool :=
  match t with
  | c :: _ =>
      negb (is_ws c) && negb (c =? u "]")%N && negb (c =? u "}")%N
      && negb (c =? u ",")%N && negb (c =? u ":")%N
  | [] => false
  end.

Definition round_trips (v : value) : Prop :=
  forall fuel rest,
    length (text v) < fuel -> delimited rest = true ->
    parse_value fuel (text v ++ rest) = Some (v, rest).

End JSON.

(** ** Regular expressions

    The fragment [UrlInput] uses: literals, [.], sequence, alternation, [?]
    and [+], matched with derivatives. *)

Module Regex.

Inductive regex :=
| Void                         (* matches nothing *)
| Eps                          (* the empty string *)
| Chr (c : ascii)
| Dot                          (* any character but a line terminator *)
| Seq (r1 r2 : regex)
| Alt (r1 r2 : regex)
| Opt (r : regex)              (* r? *)
| Plus (r : regex).            (* r+ *)

Fixpoint lit (s : string) : regex :=
  match s with
  | EmptyString => Eps
  | String c s' => Seq (Chr c) (lit s')
  end.

Definition line_terminator (c : ascii) : bool :=
  Ascii.eqb c "010" || Ascii.eqb c "013".

Fixpoint nullable (r : regex) : bool :=
  match r with
  | Void | Chr _ | Dot => false
  | Eps | Opt _ => true
  | Seq r1 r2 => nullable r1 && nullable r2
  | Alt r1 r2 => nullable r1 || nullable r2
  | Plus r => nullable r
  end.

Fixpoint deriv (c : ascii) (r : regex) : regex :=
  match r with
  | Void | Eps => Void
  | Chr c' => if Ascii.eqb c c' then Eps else Void
  | Dot => if line_terminator c then Void else Eps
  | Seq r1 r2 =>
      if nullable r1 then Alt (Seq (deriv c r1) r2) (deriv c r2)
      else Seq (deriv c r1) r2
  | Alt r1 r2 => Alt (deriv c r1) (deriv c r2)
  | Opt r => deriv c r
  | Plus r => Seq (deriv c r) (Opt (Plus r))
  end.

(** [/^r/.test(s)]: some prefix of [s] matches [r]. *)
Fixpoint test_chars (r : regex) (s : list ascii) : bool :=
  nullable r ||
  match s with
  | [] => false
  | c :: s' => test_chars (deriv c r) s'
  end.

Definition test (r : regex) (s : string) : bool :=
  test_chars r (list_ascii_of_string s).

(** The strings a regular expression matches. *)
Inductive matches : regex -> list ascii -> Prop :=
| m_eps : matches Eps []
| m_chr c : matches (Chr c) [c]
| m_dot c : line_terminator c = false -> matches Dot [c]
| m_seq r1 r2 s1 s2 :
    matches r1 s1 -> matches r2 s2 -> matches (Seq r1 r2) (s1 ++ s2)
| m_alt_l r1 r2 s : matches r1 s -> matches (Alt r1 r2) s
| m_alt_r r1 r2 s : matches r2 s -> matches (Alt r1 r2) s
| m_opt_none r : matches (Opt r) []
| m_opt_some r s : matches r s -> matches (Opt r) s
| m_plus_one r s : matches r s -> matches (Plus r) s
| m_plus_more r s1 s2 :
    matches r s1 -> matches (Plus r) s2 -> matches (Plus r) (s1 ++ s2).

End Regex.

(** ** Event handlers

    A handler runs on the state of its component, may throw, and keeps the
    state changes it made before throwing. *)

Module Handler.
Import JS.

Definition M (S A : Type) : Type := S -> S * result A.

Definition ret {S A} (a : A) : M S A := fun s => (s, Ok a).

Definition throw {S A} (e : thrown) : M S A := fun s => (s, Throw e).

Definition bind {S A B} (m : M S A) (k : A -> M S B) : M S B :=
  fun s =>
    match m s with
    | (s', Ok a) => k a s'
    | (s', Throw e) => (s', Throw e)
    end.

Definition lift {S A} (r : result A) : M S A := fun s => (s, r).

Definition modify {S} (f : S -> S) : M S unit := fun s => (f s, Ok tt).

(** [try { body } catch (err) { handler(err) } finally { finalizer }]: the
    finalizer runs on every path; what the handler or the finalizer throws
    leaves the statement. *)
Definition try_catch_finally {S}
    (body : M S unit) (handler : thrown -> M S unit) (finalizer : M S unit) :
    M S unit :=
  fun s =>
    let '(s1, r1) :=
      match body s with
      | (s', Ok tt) => (s', Ok tt)
      | (s', Throw e) => handler e s'
      end in
    match finalizer s1 with
    | (s2, Ok tt) => (s2, r1)
    | (s2, Throw e) => (s2, Throw e)
    end.

Definition when {S} (b : bool) (m : M S unit) : M S unit :=
  if b then m else ret tt.

Declare Scope handler_scope.
Delimit Scope handler_scope with handler.
Notation "'let*' x ':=' m 'in' k" := (bind m (fun x => k))
  (at level 10, x name, m at level 100, k at level 200) : handler_scope.
Notation "m '>>' k" := (bind m (fun _ => k))
  (at level 90, right associativity) : handler_scope.

End Handler.

(** ** The form: app/components/UrlInput.tsx *)

Module UrlInput.
Import JS.

(** [String.prototype.trim]: white space and line terminators, among the
    8-bit code units. *)
Definition is_space (c : ascii) : bool :=
  let n := N_of_ascii c in
  (((9 <=? n) && (n <=? 13)) || (n =? 32) || (n =? 160))%N.

Fixpoint trim_start (s : list ascii) : list ascii :=
  match s with
  | c :: r => if is_space c then trim_start r else s
  | [] => []
  end.

Definition trim (s : string) : string :=
  string_of_list_ascii
    (List.rev (trim_start (List.rev (trim_start (list_ascii_of_string s))))).

(** [/^(https?:\/\/)?(www\.)?(youtube\.com|youtu\.be)\/.+/] *)
Definition youtubeRegex : Regex.regex :=
  let lit := Regex.lit in
  Regex.Seq (Regex.Opt (Regex.Seq (lit "http")
                          (Regex.Seq (Regex.Opt (Regex.Chr "s")) (lit "://"))))
    (Regex.Seq (Regex.Opt (lit "www."))
       (Regex.Seq (Regex.Alt (lit "youtube.com") (lit "youtu.be"))
          (Regex.Seq (Regex.Chr "/") (Regex.Plus Regex.Dot)))).

Definition isValidYoutubeUrl (url : string) : bool :=
  Regex.test youtubeRegex url.

(** [handleSubmit] on the [url] in the field and the [isLoading] prop: the
    argument [onSubmit] is called with, if it is called. *)
Definition handleSubmit (url : string) (isLoading : bool) : option string :=
  if truthy (VStr (trim url)) && negb isLoading
  then Some (trim url)
  else None.

(** The [disabled] attribute of the submit button. *)
Definition submit_disabled (url : string) (isLoading : bool) : bool :=
  negb (truthy (VStr (trim url))) || negb (isValidYoutubeUrl url) || isLoading.

(** The message under the field:
    [{url && !isValidYoutubeUrl(url) && <p>Please enter a valid YouTube
    URL</p>}]. *)
Definition validation_message (url : string) : option string :=
  if truthy (VStr url) && negb (isValidYoutubeUrl url)
  then Some "Please enter a valid YouTube URL"
  else None.

(** [trim] on the code units, and the texts it empties. *)
Definition trim_chars (l : list ascii) : list ascii :=
  List.rev (trim_start (List.rev (trim_start l))).

Definition blank (s : string) : Prop :=
  Forall (fun c => is_space c = true) (list_ascii_of_string s).

(** The state of the component, and what it wrote to the console. *)
Record Field := {
  url : string;
  copied : bool;
  errors : list (string * thrown)
}.

Definition setUrl (text : string) : Handler.M Field unit :=
  Handler.modify (fun f =>
    {| url := text; copied := copied f; errors := errors f |}).

Definition console_error (label : string) (err : thrown) :
    Handler.M Field unit :=
  Handler.modify (fun f =>
    {| url := url f; copied := copied f;
       errors := errors f ++ [(label, err)] |}).

(** The clipboard, as [handlePaste] meets it: [navigator.clipboard] is
    undefined outside a secure context; where it exists, [readText] settles
    with the text or is rejected. *)
Inductive clipboard_read :=
| NoClipboard
| ReadText (settled : result string).

Definition handlePaste (cb : clipboard_read) : Handler.M Field unit :=
  Handler.try_catch_finally
    (Handler.bind
       (Handler.lift
          match cb with
          | NoClipboard =>
              Throw (Thrown TypeError (msg_read_of "undefined" "readText"))
          | ReadText settled => settled
          end)
       setUrl)
    (console_error "Failed to read clipboard:")
    (Handler.ret tt).

End UrlInput.

(** ** A clip card: app/components/ClipCard.tsx *)

Module ClipCard.
Import JS Handler.
Local Open Scope handler_scope.

(** The [clip] prop as the handlers of the card use it. *)
Record Clip := {
  clip_id : string;
  s3_url : string;
  start_time : number;
  end_time : number;
  duration : number;
  interest_score : number;
  interest_reasons : list string;
  transcript_text : string;
  file_size_formatted : string;
  resolution : string;
  expires_at : option string
}.

(** The four state variables of a card. *)
Record Flags := {
  loading : bool;
  showPreview : bool;
  copied : bool;
  liked : bool
}.

(** The callbacks the card hands to [setTimeout]. *)
Inductive callback :=
| ResetCopied.                       (* () => setCopied(false) *)

(** What the card does to the world around it. *)
Inductive effect :=
| ClipboardWrite (text : string)
| FetchMedia (url : string)
| SaveFile (fileName : string)
| ConsoleError (label : string) (err : thrown).

(** A mounted card: its flags, the clock in milliseconds, the timers it has
    pending with the time each is due, and its effects so far. *)
Record Card := {
  flags : Flags;
  now : Z;
  timers : list (Z * callback);
  trace : list effect
}.

Definition unset : Flags :=
  {| loading := false; showPreview := false; copied := false;
     liked := false |}.

Definition mount (t : Z) : Card :=
  {| flags := {| loading := false; showPreview := false;
                 copied := false; liked := false |};
     now := t; timers := []; trace := [] |}.

Definition with_flags (f : Flags -> Flags) (c : Card) : Card :=
  {| flags := f (flags c); now := now c; timers := timers c;
     trace := trace c |}.

Definition setLoading (b : bool) : M Card unit :=
  modify (with_flags (fun f =>
    {| loading := b; showPreview := showPreview f; copied := copied f;
       liked := liked f |})).

Definition setShowPreview (b : bool) : M Card unit :=
  modify (with_flags (fun f =>
    {| loading := loading f; showPreview := b; copied := copied f;
       liked := liked f |})).

Definition setCopied (b : bool) : M Card unit :=
  modify (with_flags (fun f =>
    {| loading := loading f; showPreview := showPreview f; copied := b;
       liked := liked f |})).

Definition setLiked (b : bool) : M Card unit :=
  modify (with_flags (fun f =>
    {| loading := loading f; showPreview := showPreview f;
       copied := copied f; liked := b |})).

Definition setTimeout (cb : callback) (ms : Z) : M Card unit :=
  modify (fun c =>
    {| flags := flags c; now := now c;
       timers := timers c ++ [((now c + ms)%Z, cb)]; trace := trace c |}).

Definition perform (e : effect) : M Card unit :=
  modify (fun c =>
    {| flags := flags c; now := now c; timers := timers c;
       trace := trace c ++ [e] |}).

(** The clipboard, as [copyUrl] meets it: [navigator.clipboard] is
    undefined outside a secure context; where it exists, [writeText]
    returns a promise that is fulfilled or rejected later. *)
Inductive clipboard :=
| NoClipboard
| Clipboard (fulfilled : bool).

Definition copyUrl (clip : Clip) (cb : clipboard) : M Card unit :=
  match cb with
  | NoClipboard =>
      throw (Thrown TypeError (msg_read_of "undefined" "writeText"))
  | Clipboard _ => perform (ClipboardWrite (s3_url clip))
  end >>
  setCopied true >>
  setTimeout ResetCopied 2000.

Definition run_callback (cb : callback) : M Card unit :=
  match cb with
  | ResetCopied => setCopied false
  end.

(** Time passes: the timers that have come due run, in the order they were
    set. *)
Definition advance (ms : Z) (c : Card) : Card :=
  let t := (now c + ms)%Z in
  let due := List.filter (fun x => (fst x <=? t)%Z) (timers c) in
  let later := List.filter (fun x => negb (fst x <=? t)%Z) (timers c) in
  fold_left (fun c x => fst (run_callback (snd x) c)) due
    {| flags := flags c; now := t; timers := later; trace := trace c |}.

(** [clip.s3_url.split('/').pop()?.split('?')[0] || 'clip.mp4'] *)
Fixpoint last_segment (s acc : list ascii) : list ascii :=
  match s with
  | [] => List.rev acc
  | c :: r =>
      if Ascii.eqb c "/" then last_segment r [] else last_segment r (c :: acc)
  end.

Fixpoint before_query (s : list ascii) : list ascii :=
  match s with
  | [] => []
  | c :: r => if Ascii.eqb c "?" then [] else c :: before_query r
  end.

Definition fileName (clip : Clip) : string :=
  let name :=
    string_of_list_ascii
      (before_query (last_segment (list_ascii_of_string (s3_url clip)) [])) in
  if truthy (VStr name) then name else "clip.mp4".

(** How the steps of a download turn out: [fetch], [response.blob()], and
    the save through a temporary link. *)
Record download := {
  fetched : result unit;
  blob : result unit;
  saved : result unit
}.

(** [handleDownload] up to its first [await], and from there on. *)
Definition handleDownload_start (clip : Clip) : M Card unit :=
  setLoading true >>
  perform (FetchMedia (s3_url clip)).

Definition handleDownload_try (clip : Clip) (d : download) : M Card unit :=
  lift (fetched d) >>
  lift (blob d) >>
  lift (saved d) >>
  perform (SaveFile (fileName clip)).

Definition handleDownload_settle (clip : Clip) (d : download) : M Card unit :=
  try_catch_finally
    (handleDownload_try clip d)
    (fun err => perform (ConsoleError "Download failed:" err))
    (setLoading false).

Definition handleDownload (clip : Clip) (d : download) : M Card unit :=
  handleDownload_start clip >> handleDownload_settle clip d.

Definition handlePreview : M Card unit := setShowPreview true.

Definition closePreview : M Card unit := setShowPreview false.

Definition toggleLike : M Card unit :=
  fun c => setLiked (negb (liked (flags c))) c.

(** The cards of the results section, in the order of the clips: one
    instance of the component for each item of [clips.map], each with its
    own state.  A handler runs on the card it belongs to. *)
Definition on_card (i : nat) (h : M Card unit) (cards : list Card) :
    list Card :=
  match cards !! i with
  | Some c => <[i := fst (h c)]> cards
  | None => cards
  end.

(** [formatTime]: [Math.floor(seconds / 60)], [Math.floor(seconds % 60)]
    and [secs.toString().padStart(2, '0')]. *)
Definition padStart2 (s : jstring) : jstring :=
  repeat 48%N (2 - length s) ++ s.

Definition formatTime (seconds : value) : result jstring :=
  match to_number seconds with
  | Ok x =>
      let mins := floor (div x (of_Z 60)) in
      let secs := floor (rem x (of_Z 60)) in
      Ok (number_to_string mins ++ str ":"
            ++ padStart2 (number_to_string secs))
  | Throw e => Throw e
  end.

(** What the card shows of its clip: the children it hands to React and
    the texts it computes. *)
Record card_view := {
  overlay : bool;                     (* loading && ... *)
  video_src : option value;           (* showPreview && <video src=...> *)
  transcript : value;                 (* {clip.transcript_text} *)
  time_range : jstring * jstring;     (* formatTime of start and end *)
  reasons : list value;               (* up to three {reason} *)
  file_size : value;                  (* {clip.file_size_formatted} *)
  resolution_shown : value;           (* {clip.resolution} *)
  heart_filled : bool;                (* liked ? ... *)
  copy_label : string                 (* copied ? ... *)
}.

Definition msg_slice_not_function : string :=
  "clip.interest_reasons.slice is not a function".

Definition msg_slice_map_not_function : string :=
  "clip.interest_reasons.slice(...).map is not a function".

(** [clip.interest_reasons.length > 0 &&
    clip.interest_reasons.slice(0, 3).map(...)]: the reasons shown. *)
Definition shown_reasons (r : value) : result (list value) :=
  match get_length r with
  | Ok len =>
      match gt_zero len with
      | Ok true =>
          match r with
          | VArr items => Ok (firstn 3 items)
          | VStr _ => Throw (Thrown TypeError msg_slice_map_not_function)
          | _ => Throw (Thrown TypeError msg_slice_not_function)
          end
      | Ok false => Ok []
      | Throw e => Throw e
      end
  | Throw e => Throw e
  end.

(** The component function on its [clip] prop and its state: the reads and
    calls of the JSX, in source order. *)
Definition render (clip : value) (f : Flags) : result card_view :=
  match (if showPreview f then
           match get clip "s3_url" with
           | Ok src => Ok (Some src)
           | Throw e => Throw e
           end
         else Ok None) with
  | Ok src =>
  match get clip "transcript_text" with
  | Ok text =>
  match get clip "start_time" with
  | Ok t0 =>
  match formatTime t0 with
  | Ok from =>
  match get clip "end_time" with
  | Ok t1 =>
  match formatTime t1 with
  | Ok to =>
  match get clip "interest_reasons" with
  | Ok r =>
  match shown_reasons r with
  | Ok rs =>
  match get clip "file_size_formatted" with
  | Ok size =>
  match get clip "resolution" with
  | Ok res =>
      Ok {| overlay := loading f; video_src := src; transcript := text;
            time_range := (from, to); reasons := rs; file_size := size;
            resolution_shown := res; heart_filled := liked f;
            copy_label := if copied f then "URL Copied!" else "Copy URL" |}
  | Throw e => Throw e end
  | Throw e => Throw e end
  | Throw e => Throw e end
  | Throw e => Throw e end
  | Throw e => Throw e end
  | Throw e => Throw e end
  | Throw e => Throw e end
  | Throw e => Throw e end
  | Throw e => Throw e end
  | Throw e => Throw e end.

(** The preview modal, rendered while [showPreview]: the backdrop, inside
    it the container of the video, inside that the close button and the
    video. *)
Inductive node := Backdrop | Container | CloseButton | Video.

Inductive dom_event :=
| Click (target : node)
| KeyDown (target : node) (key : string).

Definition parent (n : node) : option node :=
  match n with
  | Backdrop => None
  | Container => Some Backdrop
  | CloseButton | Video => Some Container
  end.

(** The nodes an event visits as it bubbles, from its target up. *)
Definition bubble_path (n : node) : list node :=
  match n with
  | Backdrop => [Backdrop]
  | Container => [Container; Backdrop]
  | CloseButton => [CloseButton; Container; Backdrop]
  | Video => [Video; Container; Backdrop]
  end.

(** The handler a node has for an event, and whether it stops the
    propagation. *)
Definition listener (n : node) (ev : dom_event) : M Card unit * bool :=
  match ev, n with
  | Click _, Backdrop => (setShowPreview false, false)
  | Click _, Container => (ret tt, true)          (* e.stopPropagation() *)
  | Click _, CloseButton => (setShowPreview false, false)
  | KeyDown _ key, CloseButton =>
      (if String.eqb key "Escape" then setShowPreview false else ret tt,
       false)
  | _, _ => (ret tt, false)
  end.

Fixpoint bubble (ev : dom_event) (path : list node) : M Card unit :=
  match path with
  | [] => ret tt
  | n :: up =>
      let '(h, stop) := listener n ev in
      h >> (if stop then ret tt else bubble ev up)
  end.

Definition target_of (ev : dom_event) : node :=
  match ev with
  | Click n | KeyDown n _ => n
  end.

(** An event on the modal; there is no modal to receive it unless
    [showPreview]. *)
Definition dispatch (ev : dom_event) : M Card unit :=
  fun c =>
    if showPreview (flags c) then bubble ev (bubble_path (target_of ev)) c
    else (c, Ok tt).

(** Running the callbacks of the timers that have come due. *)
Definition reset_copied (c : Card) : Card := fst (setCopied false c).

Definition fire (due : list (Z * callback)) (c : Card) : Card :=
  fold_left (fun c x => fst (run_callback (snd x) c)) due c.

End ClipCard.

(** ** The page: app/page.tsx *)

Module Home.
Import JS Handler.
Local Open Scope handler_scope.

(** The state variables of [Home] that [handleSubmit] writes, and what the
    component has written to the browser console. *)
Record Page := {
  isLoading : bool;
  clips : value;
  error : string;
  videoId : value;
  debugData : value;
  console : list (string * value)
}.

Definition initial : Page :=
  {| isLoading := false; clips := VArr []; error := ""; videoId := VStr "";
     debugData := VNull; console := [] |}.

Definition setIsLoading (b : bool) : M Page unit :=
  modify (fun p => {| isLoading := b; clips := clips p; error := error p;
                      videoId := videoId p; debugData := debugData p;
                      console := console p |}).

Definition setClips (v : value) : M Page unit :=
  modify (fun p => {| isLoading := isLoading p; clips := v; error := error p;
                      videoId := videoId p; debugData := debugData p;
                      console := console p |}).

Definition setError (m : string) : M Page unit :=
  modify (fun p => {| isLoading := isLoading p; clips := clips p; error := m;
                      videoId := videoId p; debugData := debugData p;
                      console := console p |}).

Definition setVideoId (v : value) : M Page unit :=
  modify (fun p => {| isLoading := isLoading p; clips := clips p;
                      error := error p; videoId := v;
                      debugData := debugData p; console := console p |}).

Definition setDebugData (v : value) : M Page unit :=
  modify (fun p => {| isLoading := isLoading p; clips := clips p;
                      error := error p; videoId := videoId p;
                      debugData := v; console := console p |}).

Definition console_log (label : string) (v : value) : M Page unit :=
  modify (fun p => {| isLoading := isLoading p; clips := clips p;
                      error := error p; videoId := videoId p;
                      debugData := debugData p;
                      console := console p ++ [(label, v)] |}).

(** The network, as the handler sees it. *)
Record request := {
  endpoint : string;
  method : string;
  content_type : string;
  body : option jstring
}.

Record response := {
  ok : bool;
  json : result value        (* how [response.json()] settles *)
}.

(** How [fetch] settles: rejected, or resolved with a response. *)
Definition fetch_outcome : Type := result response.

Definition response_of_text `{Engine} (ok : bool) (text : jstring) : response :=
  {| ok := ok; json := JSON.parse_text text |}.

Definition msg_not_function : string := "data.clips.map is not a function".

(** [arr.map(f)] for a callback [f] that does not throw. *)
Definition array_map (f : value -> value) (arr : value) : result value :=
  match arr with
  | VArr items => Ok (VArr (map f items))
  | VUndef => Throw (Thrown TypeError (msg_read_of "undefined" "map"))
  | VNull => Throw (Thrown TypeError (msg_read_of "null" "map"))
  | _ => Throw (Thrown TypeError msg_not_function)
  end.

(** [{ ...clip, s3_url: undefined }]. *)
Definition sanitize (clip : value) : value :=
  VObj (obj_set (spread clip) "s3_url" VUndef).

(** The nested response structure (lines 74-82): the payload is either the
    response itself or the JSON text in its [body]. *)
Definition unwrap `{Engine} (responseData : value) : result value :=
  match get responseData "body" with
  | Ok b => if truthy b then JSON.parse b else Ok responseData
  | Throw e => Throw e
  end.

(** [handleSubmit] up to its first [await]: the state is reset and the
    request leaves. *)
Definition handleSubmit_request (youtubeUrl : string) : request :=
  {| endpoint := "http://127.0.0.1:5000/clip";
     method := "POST";
     content_type := "application/json";
     body := JSON.stringify (VObj [("youtube_url", VStr youtubeUrl)]) |}.

Definition handleSubmit_start (youtubeUrl : string) : M Page request :=
  setIsLoading true >>
  setError "" >>
  setClips (VArr []) >>
  setVideoId (VStr "") >>
  ret (handleSubmit_request youtubeUrl).

(** The [try] block from the point where [fetch] settles. *)
Definition handleSubmit_try `{Engine} (settled : fetch_outcome) : M Page unit :=
  let* response := lift settled in
  when (negb (ok response))
    (throw (Thrown Error "Failed to process video")) >>
  let* responseData := lift (json response) in
  let* data := lift (unwrap responseData) in
  console_log "API Response:" data >>
  (let* c := lift (get data "clips") in console_log "Clips:" c) >>
  (let* v := lift (get data "video_id") in console_log "Video ID:" v) >>
  (let* c := lift (get data "clips") in setClips (or_else c (VArr []))) >>
  (let* v := lift (get data "video_id") in setVideoId (or_else v (VStr ""))) >>
  let* c := lift (get data "clips") in
  let* sanitizedClips := lift (array_map sanitize c) in
  setDebugData sanitizedClips.

Definition handleSubmit_catch (err : thrown) : M Page unit :=
  setError match err with
           | Thrown _ message => message
           | ThrownOther _ => "An error occurred"
           end.

Definition handleSubmit_settle `{Engine} (settled : fetch_outcome) :
    M Page unit :=
  try_catch_finally
    (handleSubmit_try settled)
    handleSubmit_catch
    (setIsLoading false).

(** A whole run of [handleSubmit]: the page it leaves and whether anything
    escaped it. *)
Definition handleSubmit `{Engine} (youtubeUrl : string)
    (settled : fetch_outcome) : M Page unit :=
  handleSubmit_start youtubeUrl >> handleSubmit_settle settled.

(** The debug section: [{debugData && <pre>{JSON.stringify(debugData, null,
    2)}</pre>}]; [None] when nothing is rendered. *)
Definition debug_section (p : Page) : option jstring :=
  if truthy (debugData p) then JSON.stringify_gap 2 (debugData p) else None.

(** The life cycle as the page shows it: the spinner while [isLoading], the
    error banner for a non-empty [error], the debug section once a
    submission has succeeded. *)
Inductive Status := Idle | Pending | Succeeded | Failed.

Definition status (p : Page) : Status :=
  if isLoading p then Pending
  else if negb (String.eqb (error p) "") then Failed
  else if truthy (debugData p) then Succeeded
  else Idle.

(** A response with a success status whose body decodes to [responseData]. *)
Definition success (responseData : value) : fetch_outcome :=
  Ok {| ok := true; json := Ok responseData |}.

(** The payload of a settled request, when there is one. *)
Definition payload `{Engine} (settled : fetch_outcome) : result value :=
  match settled with
  | Ok r =>
      if ok r then
        match json r with
        | Ok responseData => unwrap responseData
        | Throw e => Throw e
        end
      else Throw (Thrown Error "Failed to process video")
  | Throw e => Throw e
  end.

(** The page once the fields of [data] have been logged and published. *)
Definition published (data c v : value) (p : Page) : Page :=
  {| isLoading := isLoading p;
     clips := or_else c (VArr []);
     error := error p;
     videoId := or_else v (VStr "");
     debugData := debugData p;
     console := ((console p ++ [("API Response:", data)])
                   ++ [("Clips:", c)]) ++ [("Video ID:", v)] |}.

Definition logged (data : value) (p : Page) : Page :=
  {| isLoading := isLoading p; clips := clips p; error := error p;
     videoId := videoId p; debugData := debugData p;
     console := console p ++ [("API Response:", data)] |}.

Definition with_debug (d : value) (p : Page) : Page :=
  {| isLoading := isLoading p; clips := clips p; error := error p;
     videoId := videoId p; debugData := d; console := console p |}.

(** The page right after [handleSubmit_start]. *)
Definition started (p : Page) : Page :=
  {| isLoading := true; clips := VArr []; error := ""; videoId := VStr "";
     debugData := debugData p; console := console p |}.

(** *** The results section (lines 204-241)

    [{clips?.length > 0 && (...)}]: the heading
    [{clips.length} engaging clip{clips.length !== 1 ? 's' : ''} ready to
    share], the mark [{debugData?.from_cache && ...}], and
    [clips.map(...)], one [ClipCard] element for each clip, keyed by
    [clip.clip_id] and given the clip itself. *)

(** [v?.k]. *)
Definition get_optional (v : value) (k : string) : result value :=
  match v with
  | VUndef | VNull => Ok VUndef
  | _ => get v k
  end.

Definition get_length_optional (v : value) : result value :=
  match v with
  | VUndef | VNull => Ok VUndef
  | _ => get_length v
  end.

(** The children of the heading, as they are handed to React. *)
Definition heading (count : value) : list value :=
  [count; VStr " engaging clip";
   VStr (if is_not_one count then "s" else ""); VStr " ready to share"].

Record card_element := {
  key : value;
  clip : value
}.

Fixpoint card_elements (cs : list value) : result (list card_element) :=
  match cs with
  | [] => Ok []
  | c :: rest =>
      match get c "clip_id" with
      | Ok k =>
          match card_elements rest with
          | Ok els => Ok ({| key := k; clip := c |} :: els)
          | Throw e => Throw e
          end
      | Throw e => Throw e
      end
  end.

(** The element of a clip that has properties to read. *)
Definition card_of (c : value) : card_element :=
  {| key := match get c "clip_id" with Ok k => k | Throw _ => VUndef end;
     clip := c |}.

Definition has_properties (c : value) : Prop := c <> VNull /\ c <> VUndef.

Definition msg_clips_not_function : string := "clips.map is not a function".

Record results := {
  shown_heading : list value;
  from_cache : value;        (* the mark is shown when this is truthy *)
  cards : list card_element
}.

(** What [Home] returns for the section; [None] when nothing is rendered. *)
Definition results_section (p : Page) : result (option results) :=
  match get_length_optional (clips p) with
  | Ok len =>
      match gt_zero len with
      | Ok true =>
          match get_optional (debugData p) "from_cache" with
          | Ok mark =>
              match (match clips p with
                     | VArr items => card_elements items
                     | _ => Throw (Thrown TypeError msg_clips_not_function)
                     end) with
              | Ok els =>
                  Ok (Some {| shown_heading := heading len;
                              from_cache := mark; cards := els |})
              | Throw e => Throw e
              end
          | Throw e => Throw e
          end
      | Ok false => Ok None
      | Throw e => Throw e
      end
  | Throw e => Throw e
  end.

(** What [ClipCard] returns for each element when React calls it, every
    card in its initial state. *)
Fixpoint render_cards (els : list card_element) :
    result (list ClipCard.card_view) :=
  match els with
  | [] => Ok []
  | el :: rest =>
      match ClipCard.render (clip el) ClipCard.unset with
      | Ok view =>
          match render_cards rest with
          | Ok views => Ok (view :: views)
          | Throw e => Throw e
          end
      | Throw e => Throw e
      end
  end.

(** The section and its cards together: what the page hands to React, or
    the error that takes the page down on the way. *)
Definition results_shown (p : Page) :
    result (option (results * list ClipCard.card_view)) :=
  match results_section p with
  | Ok (Some r) =>
      match render_cards (cards r) with
      | Ok views => Ok (Some (r, views))
      | Throw e => Throw e
      end
  | Ok None => Ok None
  | Throw e => Throw e
  end.

End Home.

(** ** The application: the form in front of the page, and the network *)

Module App.
Import JS Handler.

(** The page ([UrlInput] receives its [isLoading] as a prop) and the
    requests that have left and not settled yet, oldest first. *)
Record System := {
  page : Home.Page;
  outstanding : list Home.request
}.

Definition initial : System :=
  {| page := Home.initial; outstanding := [] |}.

Inductive event :=
| SubmitEvent (url : string)
    (* the form's submit event reaches [UrlInput.handleSubmit], the field
       holding [url] *)
| PressSubmit (url : string) (accepted : bool)
    (* the user activates the submit button, or presses Enter in the field:
       the browser raises the submit event unless the button is disabled or
       the field, an [<input type="url">], fails its validation;
       [accepted] says whether the browser takes [url] for an absolute
       URL *)
| Settle (settled : Home.fetch_outcome).
    (* the oldest outstanding request settles *)

Definition on_submit (url : string) (sys : System) : System :=
  match UrlInput.handleSubmit url (Home.isLoading (page sys)) with
  | Some youtubeUrl =>
      let '(p, r) := Home.handleSubmit_start youtubeUrl (page sys) in
      {| page := p;
         outstanding :=
           match r with
           | Ok req => outstanding sys ++ [req]
           | Throw _ => outstanding sys
           end |}
  | None => sys
  end.

Definition step `{Engine} (sys : System) (ev : event) : System :=
  match ev with
  | SubmitEvent url => on_submit url sys
  | PressSubmit url accepted =>
      if UrlInput.submit_disabled url (Home.isLoading (page sys))
         || negb accepted
      then sys
      else on_submit url sys
  | Settle settled =>
      match outstanding sys with
      | [] => sys
      | _ :: rest =>
          {| page := fst (Home.handleSubmit_settle settled (page sys));
             outstanding := rest |}
      end
  end.

Definition run `{Engine} (evs : list event) (sys : System) : System :=
  fold_left step evs sys.

End App.

(** ** Vocabulary of the properties *)

(** Numerals: the digits of a decimal and the parts of its text. *)
Module Numeral.
Import JS JSON.

(** A record of [SpecFloat]'s shifts with nothing shifted out. *)
Definition exact_record (m : Z) : shr_record :=
  {| shr_m := m; shr_r := false; shr_s := false |}.

(** A positive number: finite and above zero, or [Infinity]. *)
Definition positive_number (x : number) : Prop :=
  (exists m e, x = S754_finite false m e) \/ x = S754_infinity false.

(** [x] with the sign [s]. *)
Definition with_sign (s : bool) (x : number) : number :=
  match x with
  | S754_zero _ => S754_zero s
  | S754_infinity _ => S754_infinity s
  | S754_finite _ m e => S754_finite s m e
  | S754_nan => S754_nan
  end.

Definition digit (d : Z) : Prop := (0 <= d < 10)%Z.

(** A decimal with a first digit that counts: what [parse] can read. *)
Definition well_formed (d : decimal) : Prop :=
  Forall digit (fst d) /\ exists c t, fst d = c :: t /\ c <> 0%Z.

(** What follows a numeral is no digit. *)
Definition ends_numeral (rest : jstring) : Prop :=
  match rest with
  | c :: _ => is_digit c = false
  | [] => True
  end.

(** A numeral in its parts: a sign or none, an integer part, a fraction or
    none, an exponent or none. *)
Definition sign_text (negative : bool) : jstring :=
  if negative then str "-" else [].

Definition fraction_text (fracs : list Z) : jstring :=
  match fracs with
  | [] => []
  | _ => str "." ++ digit_units fracs
  end.

Definition exponent_text (e : option Z) : jstring :=
  match e with
  | Some e =>
      str (if (0 <=? e)%Z then "e+" else "e-") ++ digit_units (digits (Z.abs e))
  | None => []
  end.

End Numeral.

Module Props.
Import JS.

(** A raw clip carries the numeric field [k]. *)
Definition has_number (k : string) (clip : value) : bool :=
  match get clip k with
  | Ok (VNum _) => true
  | _ => false
  end.

Definition is_string (v : value) : bool :=
  match v with
  | VStr _ => true
  | _ => false
  end.

Definition has_string (k : string) (clip : value) : bool :=
  match get clip k with
  | Ok v => is_string v
  | Throw _ => false
  end.

(** A raw clip as the service is expected to send it: the eleven fields,
    each of its type; [expires_at] may be [null] or missing. *)
Definition well_formed (clip : value) : bool :=
  has_string "clip_id" clip && has_string "s3_url" clip
  && has_number "start_time" clip && has_number "end_time" clip
  && has_number "duration" clip && has_number "interest_score" clip
  && match get clip "interest_reasons" with
     | Ok (VArr items) => forallb is_string items
     | _ => false
     end
  && has_string "transcript_text" clip
  && has_string "file_size_formatted" clip && has_string "resolution" clip
  && match get clip "expires_at" with
     | Ok (VStr _ | VNull | VUndef) => true
     | _ => false
     end.

Definition is_object (v : value) : bool :=
  match v with
  | VObj _ => true
  | _ => false
  end.

(** A clip object without its property [k]. *)
Definition without (k : string) (clip : value) : value :=
  match clip with
  | VObj fields => VObj (obj_delete k fields)
  | _ => clip
  end.

Definition is_array (v : value) : bool :=
  match v with
  | VArr _ => true
  | _ => false
  end.

(** An error of the environment carries a message, as the errors of
    [fetch] and of [response.json()] do in every browser. *)
Definition has_message (e : thrown) : Prop :=
  match e with
  | Thrown _ message => message <> ""
  | ThrownOther _ => True
  end.

Definition reports (settled : Home.fetch_outcome) : Prop :=
  match settled with
  | Throw e => has_message e
  | Ok r =>
      match Home.json r with
      | Throw e => has_message e
      | Ok _ => True
      end
  end.

(** While the page is loading it shows nothing of the previous session. *)
Definition cleared (sys : App.System) : Prop :=
  Home.isLoading (App.page sys) = true ->
  Home.clips (App.page sys) = VArr [] /\ Home.error (App.page sys) = ""
  /\ Home.videoId (App.page sys) = VStr "".

(** A request that carries a trimmed, non-empty URL. *)
Definition well_formed_request (r : Home.request) : Prop :=
  exists u, r = Home.handleSubmit_request u /\ u <> "" /\ UrlInput.trim u = u.

Definition event_reports (ev : App.event) : Prop :=
  match ev with
  | App.Settle settled => reports settled
  | _ => True
  end.

(** While the page is loading exactly one request is outstanding, and
    otherwise none. *)
Definition in_step (sys : App.System) : Prop :=
  (Home.isLoading (App.page sys) = true /\ length (App.outstanding sys) = 1)
  \/ (Home.isLoading (App.page sys) = false /\ App.outstanding sys = []).

(** The moves of the session life cycle. *)
Definition life_cycle_move (s s' : Home.Status) : Prop :=
  s' = s
  \/ (s <> Home.Pending /\ s' = Home.Pending)
  \/ (s = Home.Pending /\ (s' = Home.Succeeded \/ s' = Home.Failed)).

End Props.

(** ** Sample data *)

Module Sample.
Import JS.

(** An engine, for the examples: the wording of V8 at the end of the
    input. *)
Definition engine : Engine :=
  {| syntax_error_message := fun _ => "Unexpected end of JSON input";
     syntax_error_message_nonempty := fun _ H =>
       match H in _ = s
             return match s with EmptyString => False | _ => True end
       with eq_refl => I end |}.

Definition url : string := "https://www.youtube.com/watch?v=abc123".

(** A raw clip with every field, as the service describes it. *)
Definition clip_c1 : value :=
  VObj [("clip_id", VStr "c1");
        ("s3_url", VStr "https://bucket/c1.mp4?sig=k1");
        ("start_time", VNum (of_Z 0));
        ("end_time", VNum (of_decimal false 125 (-1)));
        ("duration", VNum (of_decimal false 125 (-1)));
        ("interest_score", VNum (of_decimal false 87 (-2)));
        ("interest_reasons", VArr [VStr "hook"; VStr "question"]);
        ("transcript_text", VStr "So how does it work?");
        ("file_size_formatted", VStr "1.2 MB");
        ("resolution", VStr "1280x720");
        ("expires_at", VNull)].

(** The same without [start_time]. *)
Definition clip_c2 : value :=
  VObj [("clip_id", VStr "c2");
        ("s3_url", VStr "https://bucket/c2.mp4?sig=k2");
        ("end_time", VNum (of_Z 95));
        ("duration", VNum (of_decimal false 205 (-1)));
        ("interest_score", VNum (of_decimal false 64 (-2)));
        ("interest_reasons", VArr [VStr "surprise"]);
        ("transcript_text", VStr "Nobody expected that.");
        ("file_size_formatted", VStr "2.0 MB");
        ("resolution", VStr "1280x720");
        ("expires_at", VNull)].

Definition batch : value :=
  VObj [("video_id", VStr "v1"); ("clips", VArr [clip_c1; clip_c2])].

(** A payload with one clip, a well-formed one. *)
Definition single : value :=
  VObj [("video_id", VStr "v1"); ("clips", VArr [clip_c1])].

(** A payload with a [video_id] and no [clips] at all. *)
Definition no_clips : value := VObj [("video_id", VStr "v1")].

(** A payload whose [clips] is a string, not an array. *)
Definition clips_not_array : value :=
  VObj [("video_id", VStr "v1"); ("clips", VStr "none")].

(** JSON texts are written with ['] for the double quote. *)
Definition json (s : string) : jstring :=
  map (fun c => if (c =? 39)%N then JSON.dquote else c) (str s).

(** A body with an empty clip list and the session id [v1]. *)
Definition empty_text : jstring := json "{'clips': [], 'video_id': 'v1'}".

(** An envelope: the payload, with one clip, is the JSON text in [body]. *)
Definition enveloped_text : jstring :=
  json ("{'body': '{\'clips\':[{\'clip_id\':\'c1\',\'start_time\':0,"
        ++ "\'end_time\':5}],\'video_id\':\'v1\'}'}").

(** The text of [batch], as a service would write it. *)
Definition batch_text : jstring :=
  json ("{'video_id': 'v1', 'clips': ["
        ++ "{'clip_id': 'c1', 's3_url': 'https://bucket/c1.mp4?sig=k1', "
        ++ "'start_time': 0.0, 'end_time': 12.5, 'duration': 1.25e1, "
        ++ "'interest_score': 0.87, "
        ++ "'interest_reasons': ['hook', 'question'], "
        ++ "'transcript_text': 'So how does it work?', "
        ++ "'file_size_formatted': '1.2 MB', 'resolution': '1280x720', "
        ++ "'expires_at': null}, "
        ++ "{'clip_id': 'c2', 's3_url': 'https://bucket/c2.mp4?sig=k2', "
        ++ "'end_time': 95, 'duration': 20.5, 'interest_score': 0.64, "
        ++ "'interest_reasons': ['surprise'], "
        ++ "'transcript_text': 'Nobody expected that.', "
        ++ "'file_size_formatted': '2.0 MB', 'resolution': '1280x720', "
        ++ "'expires_at': null}]}").

(** A payload with a duration beyond the range of the numbers. *)
Definition overflowing_text : jstring :=
  json "{'video_id': 'v1', 'clips': [{'clip_id': 'c1', 'duration': 1e999}]}".

Definition overflowing : value :=
  VObj [("video_id", VStr "v1");
        ("clips", VArr [VObj [("clip_id", VStr "c1");
                              ("duration", VNum (S754_infinity false))]])].

(** What [JSON.stringify] writes for [overflowing]. *)
Definition overflowing_written : jstring :=
  json "{'video_id':'v1','clips':[{'clip_id':'c1','duration':null}]}".

(** An envelope around [batch_text], its quotes escaped. *)
Definition enveloped_batch : value :=
  VObj [("body", VStr batch_text)].

(** The page after a submission that the service answers with [text], and
    after one whose response body decodes to [responseData]. *)
Definition after_text (text : jstring) : Home.Page :=
  fst (Home.handleSubmit (H := engine) url
         (Ok (Home.response_of_text (H := engine) true text)) Home.initial).

Definition after (responseData : value) : Home.Page :=
  fst (Home.handleSubmit (H := engine) url (Home.success responseData)
         Home.initial).

Definition card_clip : ClipCard.Clip :=
  {| ClipCard.clip_id := "c1";
     ClipCard.s3_url := "https://bucket/c1.mp4?sig=k1";
     ClipCard.start_time := of_Z 0;
     ClipCard.end_time := of_decimal false 125 (-1);
     ClipCard.duration := of_decimal false 125 (-1);
     ClipCard.interest_score := of_decimal false 87 (-2);
     ClipCard.interest_reasons := ["hook"; "question"];
     ClipCard.transcript_text := "So how does it work?";
     ClipCard.file_size_formatted := "1.2 MB";
     ClipCard.resolution := "1280x720";
     ClipCard.expires_at := None |}.

End Sample.

(** * Properties *)

(** ** Numbers and their digits *)

Module NumberFacts.
Import Number Numeral.
Local Open Scope Z_scope.

Lemma same_eq a b : same a b = true -> a = b.
Proof.
  destruct a as [s|s| |s m e], b as [s'|s'| |s' m' e']; cbn; try discriminate;
    try reflexivity.
  - intros H. apply Bool.eqb_prop in H. now subst.
  - intros H. apply Bool.eqb_prop in H. now subst.
  - rewrite !andb_true_iff. intros [[Hs Hm] He].
    apply Bool.eqb_prop in Hs. apply Pos.eqb_eq in Hm. apply Z.eqb_eq in He.
    now subst.
Qed.

(** *** Rounding what needs no rounding *)

Lemma digits2_log2 p : Zpos (digits2_pos p) = Z.log2 (Zpos p) + 1.
Proof.
  induction p as [p IH|p IH|]; cbn [digits2_pos]; try reflexivity.
  - rewrite Pos2Z.inj_succ, IH. cbn [Z.log2]. destruct p; cbn; lia.
  - rewrite Pos2Z.inj_succ, IH. cbn [Z.log2]. destruct p; cbn; lia.
Qed.

Lemma Zdigits2_shift (m : positive) t :
  0 <= t -> Zdigits2 (Zpos m * 2 ^ t) = Zpos (digits2_pos m) + t.
Proof.
  intros Ht. assert (Hp : 0 < Zpos m * 2 ^ t) by (apply Z.mul_pos_pos; lia).
  destruct (Zpos m * 2 ^ t) as [|q|q] eqn:E; try lia.
  cbn [Zdigits2]. rewrite !digits2_log2, <- E.
  rewrite Z.log2_mul_pow2 by lia. lia.
Qed.

Lemma iter_pos_nat {A} (f : A -> A) p x :
  SpecFloat.iter_pos f p x = Nat.iter (Pos.to_nat p) f x.
Proof.
  revert x. induction p as [p IH|p IH|]; intros x; cbn [SpecFloat.iter_pos].
  - rewrite !IH, Pos2Nat.inj_xI, <- Nat.iter_add, <- Nat.iter_succ_r.
    f_equal. lia.
  - rewrite !IH, Pos2Nat.inj_xO, <- Nat.iter_add. f_equal. lia.
  - reflexivity.
Qed.

Lemma shr_1_double (m : positive) :
  shr_1 (exact_record (2 * Zpos m)) = exact_record (Zpos m).
Proof. reflexivity. Qed.

Lemma shift_out (n : nat) (m : positive) :
  Nat.iter n shr_1 (exact_record (Zpos m * 2 ^ Z.of_nat n))
  = exact_record (Zpos m).
Proof.
  induction n as [|n IH].
  - cbn [Nat.iter]. now rewrite Z.mul_1_r.
  - rewrite Nat.iter_succ_r, Nat2Z.inj_succ, Z.pow_succ_r by lia.
    assert (Hp : 0 < Zpos m * 2 ^ Z.of_nat n) by (apply Z.mul_pos_pos; lia).
    replace (Zpos m * (2 * 2 ^ Z.of_nat n)) with (2 * (Zpos m * 2 ^ Z.of_nat n))
      by lia.
    destruct (Zpos m * 2 ^ Z.of_nat n) as [|q|q] eqn:E; try lia.
    rewrite shr_1_double. exact IH.
Qed.

Lemma shr_exact (m : positive) e t :
  0 <= t ->
  shr (exact_record (Zpos m * 2 ^ t)) e t = (exact_record (Zpos m), e + t).
Proof.
  intros Ht. destruct t as [|p|p]; try lia.
  - cbn [shr]. now rewrite Z.mul_1_r, Z.add_0_r.
  - cbn [shr]. rewrite iter_pos_nat.
    rewrite <- (positive_nat_Z p) at 1. now rewrite shift_out.
Qed.

(** A number that is there already is what rounding returns. *)
Lemma binary_round_aux_exact s (m : positive) e t :
  bounded prec emax m e = true -> 0 <= t ->
  binary_round_aux prec emax s (Zpos m * 2 ^ t) (e - t) loc_Exact
  = S754_finite s m e.
Proof.
  unfold bounded, canonical_mantissa. rewrite andb_true_iff.
  intros [Hc He] Ht. apply Z.eqb_eq in Hc.
  unfold binary_round_aux.
  assert (H1 : shr_fexp prec emax (Zpos m * 2 ^ t) (e - t) loc_Exact
               = (exact_record (Zpos m), e)).
  { unfold shr_fexp. rewrite Zdigits2_shift by exact Ht.
    replace (Zpos (digits2_pos m) + t + (e - t)) with (Zpos (digits2_pos m) + e)
      by lia.
    rewrite Hc. replace (e - (e - t)) with t by lia.
    cbn [shr_record_of_loc]. fold (exact_record (Zpos m * 2 ^ t)).
    rewrite shr_exact by exact Ht. f_equal. lia. }
  rewrite H1. cbn [exact_record shr_m loc_of_shr_record round_nearest_even].
  assert (H2 : shr_fexp prec emax (Zpos m) e loc_Exact
               = (exact_record (Zpos m), e)).
  { unfold shr_fexp. cbn [Zdigits2]. rewrite Hc, Z.sub_diag. reflexivity. }
  rewrite H2. cbn [exact_record shr_m]. now rewrite He.
Qed.

Lemma bounded_fexp m e :
  bounded prec emax m e = true ->
  fexp prec emax (Zpos (digits2_pos m) + e) = e /\ e <= emax - prec.
Proof.
  unfold bounded, canonical_mantissa. rewrite andb_true_iff.
  intros [Hc He]. apply Z.eqb_eq in Hc. apply Z.leb_le in He. auto.
Qed.

Lemma fexp_le a b : a <= b -> fexp prec emax a <= fexp prec emax b.
Proof. unfold fexp. lia. Qed.

(** An integer that is a number. *)
Lemma binary_round_exact s (m : positive) e :
  bounded prec emax m e = true -> 0 <= e ->
  binary_round prec emax s (Z.to_pos (Zpos m * 2 ^ e)) 0 = S754_finite s m e.
Proof.
  intros Hb He. destruct (bounded_fexp _ _ Hb) as [Hc _].
  assert (Hp : 0 < Zpos m * 2 ^ e) by (apply Z.mul_pos_pos; lia).
  unfold binary_round.
  assert (Hd : Zpos (digits2_pos (Z.to_pos (Zpos m * 2 ^ e)))
               = Zpos (digits2_pos m) + e).
  { rewrite <- Zdigits2_shift by exact He.
    destruct (Zpos m * 2 ^ e) as [|q|q]; try lia. reflexivity. }
  rewrite Hd, Z.add_0_r, Hc. unfold shl_align. rewrite Z.sub_0_r.
  pose proof (binary_round_aux_exact s m e e Hb He) as H.
  rewrite Z.sub_diag in H.
  destruct e as [|p|p]; try lia; rewrite Z2Pos.id by exact Hp; exact H.
Qed.

(** A quotient that is a number. *)
Lemma SFdiv_exact s (m : positive) k :
  bounded prec emax m (- k) = true -> 0 < k ->
  SFdiv prec emax (S754_finite s (Z.to_pos (Zpos m * 5 ^ k)) 0)
    (S754_finite false (Z.to_pos (10 ^ k)) 0)
  = S754_finite s m (- k).
Proof.
  intros Hb Hk. destruct (bounded_fexp _ _ Hb) as [Hc _].
  assert (H5 : 0 < 5 ^ k) by (apply Z.pow_pos_nonneg; lia).
  assert (H10 : 0 < 10 ^ k) by (apply Z.pow_pos_nonneg; lia).
  assert (Hp : 0 < Zpos m * 5 ^ k) by (apply Z.mul_pos_pos; lia).
  cbn [SFdiv]. rewrite xorb_false_r.
  rewrite !Z2Pos.id by assumption.
  unfold SFdiv_core_binary.
  set (d1 := Zdigits2 (Zpos m * 5 ^ k)). set (d2 := Zdigits2 (10 ^ k)).
  rewrite !Z.add_0_r, !Z.sub_0_r.
  set (e' := Z.min (fexp prec emax (d1 - d2)) 0).
  assert (Hd : d1 - d2 <= Zpos (digits2_pos m) - k).
  { assert (E1 : d1 = Z.log2 (Zpos m * 5 ^ k) + 1).
    { unfold d1. destruct (Zpos m * 5 ^ k) as [|q|q] eqn:E; try lia.
      cbn [Zdigits2]. apply digits2_log2. }
    assert (E2 : d2 = Z.log2 (10 ^ k) + 1).
    { unfold d2. destruct (10 ^ k) as [|q|q] eqn:E; try lia.
      cbn [Zdigits2]. apply digits2_log2. }
    rewrite E1, E2, digits2_log2.
    assert (Hm : Z.log2 (Zpos m * 5 ^ k * 2 ^ k) = k + Z.log2 (Zpos m * 5 ^ k))
      by (apply Z.log2_mul_pow2; lia).
    replace (Zpos m * 5 ^ k * 2 ^ k) with (Zpos m * 10 ^ k) in Hm.
    2:{ change 10 with (5 * 2). rewrite Z.pow_mul_l. lia. }
    pose proof (Z.log2_mul_above (Zpos m) (10 ^ k)). lia. }
  assert (He' : e' <= - k).
  { unfold e'. pose proof (fexp_le _ _ Hd) as Hf.
    replace (Zpos (digits2_pos m) - k) with (Zpos (digits2_pos m) + - k) in Hf
      by lia.
    rewrite Hc in Hf. lia. }
  replace (0 - e') with (- e') by lia.
  destruct (- e') as [|p|p] eqn:Es; try lia.
  rewrite Z.shiftl_mul_pow2 by lia.
  assert (Hq : Zpos m * 5 ^ k * 2 ^ Zpos p
               = 10 ^ k * (Zpos m * 2 ^ (Zpos p - k))).
  { replace (Zpos p) with (k + (Zpos p - k)) at 1 by lia.
    rewrite Z.pow_add_r by lia. change 10 with (5 * 2).
    rewrite Z.pow_mul_l. lia. }
  rewrite Hq.
  assert (Ed : Z.div_eucl (10 ^ k * (Zpos m * 2 ^ (Zpos p - k))) (10 ^ k)
               = (Zpos m * 2 ^ (Zpos p - k), 0)).
  { pose proof (Z.div_mul (Zpos m * 2 ^ (Zpos p - k)) (10 ^ k)) as Hdiv.
    pose proof (Z.mod_mul (Zpos m * 2 ^ (Zpos p - k)) (10 ^ k)) as Hmod.
    unfold Z.div, Z.modulo in Hdiv, Hmod.
    rewrite (Z.mul_comm (10 ^ k)).
    destruct (Z.div_eucl _ _) as [q r].
    rewrite Hdiv, Hmod by lia. reflexivity. }
  rewrite Ed.
  assert (Hl : new_location (10 ^ k) 0 = loc_Exact).
  { unfold new_location, new_location_even, new_location_odd.
    now destruct (Z.even (10 ^ k)). }
  rewrite Hl.
  replace e' with (- k - (Zpos p - k)) by lia.
  apply binary_round_aux_exact; [exact Hb | lia].
Qed.

(** *** Rounding keeps a positive number positive *)

Lemma shr_1_m r : 0 <= shr_m r -> shr_m (shr_1 r) = shr_m r / 2.
Proof.
  destruct r as [m rr ss]. cbn [shr_m]. intros Hm.
  destruct m as [|[p|p|]|p]; try lia; cbn [shr_1 shr_m].
  - reflexivity.
  - rewrite Pos2Z.inj_xI. apply (Z.div_unique _ _ _ 1); lia.
  - rewrite Pos2Z.inj_xO. apply (Z.div_unique _ _ _ 0); lia.
  - reflexivity.
Qed.

Lemma iter_shr_m n r :
  0 <= shr_m r -> shr_m (Nat.iter n shr_1 r) = shr_m r / 2 ^ Z.of_nat n.
Proof.
  intros Hm. induction n as [|n IH].
  - change (Nat.iter 0 shr_1 r) with r. now rewrite Z.div_1_r.
  - rewrite Nat.iter_succ, shr_1_m, IH.
    + rewrite Nat2Z.inj_succ, Z.pow_succ_r, (Z.mul_comm 2) by lia.
      rewrite Z.div_div; [reflexivity | | lia].
      assert (0 < 2 ^ Z.of_nat n) by (apply Z.pow_pos_nonneg; lia). lia.
    + rewrite IH. apply Z.div_pos; [exact Hm|]. apply Z.pow_pos_nonneg; lia.
Qed.

Lemma shr_m_shr r e n :
  0 <= shr_m r -> shr_m (fst (shr r e n)) = shr_m r / 2 ^ Z.max n 0.
Proof.
  intros Hm. destruct n as [|p|p]; cbn [shr fst].
  - now rewrite Z.div_1_r.
  - rewrite iter_pos_nat, iter_shr_m by exact Hm.
    now rewrite positive_nat_Z, Z.max_l by lia.
  - now rewrite Z.div_1_r.
Qed.

Lemma shr_e r e n : snd (shr r e n) = e + Z.max n 0.
Proof. destruct n; cbn [shr snd]; lia. Qed.

Lemma Zdigits2_lower m : 0 < m -> 2 ^ (Zdigits2 m - 1) <= m.
Proof.
  intros Hm. destruct m as [|p|p]; try lia. cbn [Zdigits2].
  rewrite digits2_log2. replace (Z.log2 (Zpos p) + 1 - 1) with (Z.log2 (Zpos p))
    by lia.
  apply Z.log2_spec. lia.
Qed.

Lemma Zdigits2_pos m : 0 < m -> 0 < Zdigits2 m.
Proof. destruct m; cbn [Zdigits2]; lia. Qed.

Lemma shr_record_of_loc_m m l : shr_m (shr_record_of_loc m l) = m.
Proof. destruct l as [|[]]; reflexivity. Qed.

(** What [shr_fexp] leaves of a positive mantissa is positive, for an
    exponent the format has. *)
Lemma shr_fexp_positive m e l :
  0 < m -> emin prec emax <= e ->
  0 < shr_m (fst (shr_fexp prec emax m e l))
  /\ emin prec emax <= snd (shr_fexp prec emax m e l).
Proof.
  intros Hm He. unfold shr_fexp. rewrite shr_e. split; [|lia].
  rewrite shr_m_shr, shr_record_of_loc_m by (rewrite shr_record_of_loc_m; lia).
  set (n := Z.max (fexp prec emax (Zdigits2 m + e) - e) 0).
  assert (Hn : 0 <= n <= Zdigits2 m - 1).
  { pose proof (Zdigits2_pos m Hm). unfold n, fexp, prec in *. lia. }
  assert (H2 : 0 < 2 ^ n) by (apply Z.pow_pos_nonneg; lia).
  apply Z.div_str_pos. split; [exact H2|].
  apply Z.le_trans with (2 ^ (Zdigits2 m - 1)); [|now apply Zdigits2_lower].
  apply Z.pow_le_mono_r; lia.
Qed.

Lemma round_nearest_even_positive m l : 0 < m -> 0 < round_nearest_even m l.
Proof.
  intros Hm. destruct l as [|[]]; cbn [round_nearest_even]; try lia.
  destruct (Z.even m); lia.
Qed.

Lemma binary_round_aux_positive m e l :
  0 < m -> emin prec emax <= e ->
  positive_number (binary_round_aux prec emax false m e l).
Proof.
  intros Hm He. unfold binary_round_aux.
  destruct (shr_fexp_positive m e l Hm He) as [H1 H1e].
  destruct (shr_fexp prec emax m e l) as [mrs' e']. cbn [fst snd] in H1, H1e.
  pose proof (round_nearest_even_positive _ (loc_of_shr_record mrs') H1) as H2.
  destruct (shr_fexp_positive _ e' loc_Exact H2 H1e) as [H3 _].
  destruct (shr_fexp prec emax _ e' loc_Exact) as [mrs'' e''].
  cbn [fst] in H3. destruct (shr_m mrs'') as [|q|q]; try lia.
  destruct (e'' <=? emax - prec); [left; eauto | now right].
Qed.

(** A positive whole number is a positive number. *)
Lemma of_Z_positive p : positive_number (of_Z (Zpos p)).
Proof.
  unfold of_Z, binary_normalize, binary_round.
  destruct (shl_align p 0 _) as [mz ez] eqn:E.
  apply binary_round_aux_positive; [lia|].
  unfold shl_align in E. rewrite Z.add_0_r, Z.sub_0_r in E.
  destruct (fexp prec emax (Zpos (digits2_pos p))) as [|k|k] eqn:Ef;
    injection E as <- <-; unfold emin, emax, prec in *; try lia.
  unfold fexp, emin in Ef. lia.
Qed.

(** The length of a list is a number above zero, or zero for the empty
    list. *)
Lemma of_nat_positive n : ltb zero (of_nat n) = negb (Nat.eqb n 0).
Proof.
  destruct n as [|n]; [reflexivity|].
  unfold of_nat. destruct (Z.of_nat (S n)) as [|p|p] eqn:E; try lia.
  destruct (of_Z_positive p) as [(m & e & ->) | ->]; reflexivity.
Qed.

Lemma binary_round_aux_sign s mx ex lx :
  binary_round_aux prec emax s mx ex lx
  = with_sign s (binary_round_aux prec emax false mx ex lx).
Proof.
  unfold binary_round_aux.
  destruct (shr_fexp prec emax mx ex lx) as [mrs' e'].
  destruct (shr_fexp prec emax _ e' loc_Exact) as [mrs'' e''].
  destruct (shr_m mrs''); try reflexivity.
  now destruct (e'' <=? emax - prec).
Qed.

Lemma of_decimal_sign s m e :
  of_decimal s m e = with_sign s (of_decimal false m e).
Proof.
  unfold of_decimal. destruct m as [|p]; [reflexivity|].
  destruct (0 <=? e).
  - unfold binary_round. destruct (shl_align _ _ _) as [mz ez].
    apply binary_round_aux_sign.
  - cbn [SFdiv]. destruct (SFdiv_core_binary _ _ _ _ _ _) as [[mz ez] lz].
    rewrite !xorb_false_r. apply binary_round_aux_sign.
Qed.

(** *** Digits *)

Lemma digits_from_value fuel n acc :
  0 <= n < 2 ^ Z.of_nat fuel ->
  digits_value 0 (digits_from fuel n acc) = digits_value n acc.
Proof.
  revert n acc. induction fuel as [|fuel IH]; intros n acc Hn.
  - cbn in Hn. cbn [digits_from]. now replace n with 0 by lia.
  - cbn [digits_from]. destruct (Z.ltb_spec n 10) as [Hlt|Hge].
    + cbn [digits_value]; f_equal; lia.
    + rewrite IH.
      * cbn [digits_value]. f_equal.
        pose proof (Z.div_mod n 10). lia.
      * rewrite Nat2Z.inj_succ, Z.pow_succ_r in Hn by lia.
        split; [apply Z.div_pos; lia|].
        apply Z.div_lt_upper_bound; lia.
Qed.

Lemma digits_value_digits n : 0 <= n -> digits_value 0 (digits n) = n.
Proof.
  intros Hn. unfold digits. rewrite digits_from_value; [reflexivity|].
  split; [exact Hn|]. rewrite Nat2Z.inj_succ, Z2Nat.id by apply Z.log2_nonneg.
  destruct (Z.eq_dec n 0) as [->|]; [reflexivity|].
  apply Z.log2_spec. lia.
Qed.

Lemma digits_from_digit fuel n acc :
  0 <= n -> Forall digit acc -> Forall digit (digits_from fuel n acc).
Proof.
  revert n acc. induction fuel as [|fuel IH]; intros n acc Hn Hacc;
    cbn [digits_from]; [exact Hacc|].
  destruct (Z.ltb_spec n 10).
  - constructor; [split; lia | exact Hacc].
  - apply IH; [apply Z.div_pos; lia|].
    constructor; [|exact Hacc]. apply Z.mod_pos_bound. lia.
Qed.

Lemma digits_from_head fuel n acc :
  0 < n < 2 ^ Z.of_nat fuel ->
  exists d t, digits_from fuel n acc = d :: t /\ d <> 0.
Proof.
  revert n acc. induction fuel as [|fuel IH]; intros n acc Hn.
  - cbn in Hn. lia.
  - cbn [digits_from]. destruct (Z.ltb_spec n 10).
    + exists n, acc. split; [reflexivity | lia].
    + apply IH. rewrite Nat2Z.inj_succ, Z.pow_succ_r in Hn by lia.
      split; [apply Z.div_str_pos; lia|].
      apply Z.div_lt_upper_bound; lia.
Qed.

Lemma digits_head n : 0 < n -> exists d t, digits n = d :: t /\ d <> 0.
Proof.
  intros Hn. apply digits_from_head. split; [exact Hn|].
  rewrite Nat2Z.inj_succ, Z2Nat.id by apply Z.log2_nonneg.
  apply Z.log2_spec. lia.
Qed.

Lemma digits_digit n : 0 <= n -> Forall digit (digits n).
Proof. intros Hn. apply digits_from_digit; [exact Hn | constructor]. Qed.

Lemma strip_zeros_suffix l : exists z, l = z ++ strip_zeros l.
Proof.
  induction l as [|d l [z IH]]; [now exists []|].
  cbn [strip_zeros]. destruct d as [|p|p]; try (now exists []).
  exists (0 :: z). cbn. now f_equal.
Qed.

Lemma strip_zeros_last l d : d <> 0 -> exists t, strip_zeros (l ++ [d]) = t ++ [d].
Proof.
  intros Hd. induction l as [|c l [t IH]]; cbn [List.app strip_zeros].
  - exists []. destruct d; congruence || reflexivity.
  - destruct c as [|p|p]; [rewrite IH; now exists t | |].
    + now exists (Zpos p :: l).
    + now exists (Zneg p :: l).
Qed.

Lemma strip_trailing_zeros_head d l :
  d <> 0 -> exists t, strip_trailing_zeros (d :: l) = d :: t.
Proof.
  intros Hd. unfold strip_trailing_zeros. cbn [List.rev].
  destruct (strip_zeros_last (List.rev l) d Hd) as [t ->].
  rewrite rev_app_distr. cbn. eauto.
Qed.

Lemma strip_trailing_zeros_digit l :
  Forall digit l -> Forall digit (strip_trailing_zeros l).
Proof.
  intros H. unfold strip_trailing_zeros. apply Forall_rev.
  apply Forall_rev in H.
  destruct (strip_zeros_suffix (List.rev l)) as [z E]. rewrite E in H.
  now apply Forall_app in H as [_ H].
Qed.

Lemma decimal_of_well_formed s e : 0 < s -> well_formed (decimal_of s e).
Proof.
  intros Hs. unfold decimal_of, well_formed. cbn [fst]. split.
  - apply strip_trailing_zeros_digit, digits_digit. lia.
  - destruct (digits_head s Hs) as (d & t & -> & Hd).
    destruct (strip_trailing_zeros_head d t Hd) as [t' ->]. eauto.
Qed.

Lemma decimal_of_zero e x :
  decimal_number (decimal_of 0 e) = x -> forall s m e', x <> S754_finite s m e'.
Proof. intros <- s m e'. discriminate. Qed.

(** *** The digits of a number denote it *)

Lemma candidates_cases num den n k d :
  0 < num -> 0 < den -> In d (candidates num den n k) ->
  exists s e, 0 <= s /\ d = decimal_of s e.
Proof.
  intros Hnum Hden. unfold candidates.
  destruct (if 0 <=? k - n then _ else _) as [a b] eqn:E.
  assert (Hab : 0 <= a /\ 0 < b).
  { destruct (0 <=? k - n) eqn:Ek; injection E as <- <-.
    - split; [|lia]. apply Z.mul_nonneg_nonneg; [lia|]. apply Z.pow_nonneg. lia.
    - split; [lia|]. apply Z.mul_pos_pos; [lia|]. apply Z.pow_pos_nonneg; [lia|].
      apply Z.leb_gt in Ek. lia. }
  assert (Hlo : 0 <= a / b) by (apply Z.div_pos; lia).
  cbv zeta. intros Hin.
  assert (H : d = decimal_of (a / b) (n - k) \/ d = decimal_of (a / b + 1) (n - k)).
  { destruct (2 * (a mod b) ?= b); [destruct (Z.even (a / b))| |];
      cbn in Hin; intuition congruence. }
  destruct H as [-> | ->]; eexists _, _; (split; [|reflexivity]); lia.
Qed.

Lemma shortest_spec fuel k x num den n d :
  0 < num -> 0 < den ->
  shortest fuel k x num den n = Some d ->
  decimal_number d = x /\ exists s e, 0 <= s /\ d = decimal_of s e.
Proof.
  intros Hnum Hden. revert k. induction fuel as [|fuel IH]; intros k;
    cbn [shortest]; [discriminate|].
  destruct (List.find _ _) as [d'|] eqn:E.
  - intros [= ->]. apply List.find_some in E as [Hin Hsame]. split.
    + now apply same_eq.
    + now apply (candidates_cases num den n k).
  - apply IH.
Qed.

Lemma ratio_pos m e : 0 < fst (ratio m e) /\ 0 < snd (ratio m e).
Proof.
  unfold ratio. destruct (Z.leb_spec 0 e); cbn [fst snd]; split; try lia;
    try (apply Z.mul_pos_pos; [lia|]); apply Z.pow_pos_nonneg; lia.
Qed.

Lemma exact_spec m e :
  bounded prec emax m e = true ->
  decimal_number (exact m e) = S754_finite false m e /\ well_formed (exact m e).
Proof.
  intros Hb. unfold exact. destruct (Z.leb_spec 0 e) as [He|He].
  - assert (Hp : 0 < Zpos m * 2 ^ e)
      by (apply Z.mul_pos_pos; [lia|]; apply Z.pow_pos_nonneg; lia).
    split.
    + unfold decimal_number. cbn [fst snd].
      rewrite digits_value_digits, Z.sub_diag by lia.
      unfold of_decimal. destruct (Z.to_N _) as [|p] eqn:E; [lia|].
      cbn [Z.leb Z.compare]. change (10 ^ 0) with 1. cbn [Z.to_pos].
      rewrite Pos.mul_1_r.
      replace p with (Z.to_pos (Zpos m * 2 ^ e)) by lia.
      now apply binary_round_exact.
    + split; cbn [fst]; [apply digits_digit; lia | now apply digits_head].
  - assert (Hp : 0 < Zpos m * 5 ^ (- e))
      by (apply Z.mul_pos_pos; [lia|]; apply Z.pow_pos_nonneg; lia).
    split.
    + unfold decimal_number. cbn [fst snd].
      rewrite digits_value_digits by lia.
      replace (e + _ - _) with e by lia.
      unfold of_decimal. destruct (Z.to_N _) as [|p] eqn:E; [lia|].
      destruct (Z.leb_spec 0 e); [lia|].
      replace p with (Z.to_pos (Zpos m * 5 ^ (- e))) by lia.
      rewrite <- (Z.opp_involutive e) at 3.
      apply SFdiv_exact; [now rewrite Z.opp_involutive | lia].
    + split; cbn [fst]; [apply digits_digit; lia | now apply digits_head].
Qed.

(** The digits [Number::toString] prints denote the number, and the first
    of them is not a zero. *)
Theorem to_decimal_spec m e :
  bounded prec emax m e = true ->
  decimal_number (to_decimal m e) = S754_finite false m e
  /\ well_formed (to_decimal m e).
Proof.
  intros Hb. unfold to_decimal.
  pose proof (ratio_pos m e) as [Hnum Hden].
  destruct (ratio m e) as [num den]. cbn [fst snd] in Hnum, Hden.
  destruct (shortest _ _ _ _ _ _) as [d|] eqn:E; [|now apply exact_spec].
  apply shortest_spec in E as (Hd & s & e' & Hs & ->); try assumption.
  split; [exact Hd|]. apply decimal_of_well_formed.
  destruct (Z.eq_dec s 0) as [->|]; [|lia].
  now destruct (decimal_of_zero _ _ Hd false m e).
Qed.

Lemma exact_well_formed m e : well_formed (exact m e).
Proof.
  unfold exact. destruct (Z.leb_spec 0 e) as [He|He].
  - assert (Hp : 0 < Zpos m * 2 ^ e)
      by (apply Z.mul_pos_pos; [lia|]; apply Z.pow_pos_nonneg; lia).
    split; cbn [fst]; [apply digits_digit; lia | now apply digits_head].
  - assert (Hp : 0 < Zpos m * 5 ^ (- e))
      by (apply Z.mul_pos_pos; [lia|]; apply Z.pow_pos_nonneg; lia).
    split; cbn [fst]; [apply digits_digit; lia | now apply digits_head].
Qed.

(** The digits of any finite number start with one that counts. *)
Lemma to_decimal_well_formed m e : well_formed (to_decimal m e).
Proof.
  unfold to_decimal.
  pose proof (ratio_pos m e) as [Hnum Hden].
  destruct (ratio m e) as [num den]. cbn [fst snd] in Hnum, Hden.
  destruct (shortest _ _ _ _ _ _) as [d|] eqn:E; [|apply exact_well_formed].
  apply shortest_spec in E as (Hd & s & e' & Hs & ->); try assumption.
  apply decimal_of_well_formed.
  destruct (Z.eq_dec s 0) as [->|]; [|lia].
  now destruct (decimal_of_zero _ _ Hd false m e).
Qed.

End NumberFacts.

(** ** [JSON.parse] inverts [JSON.stringify] *)

Module JSONFacts.
Import JS JSON Numeral NumberFacts.

(** *** Numerals *)

Lemma digit_unit_eq d : digit d -> digit_unit d = (48 + Z.to_N d)%N.
Proof. unfold digit, digit_unit. lia. Qed.

Lemma is_digit_bounds c : is_digit c = true <-> (48 <= c <= 57)%N.
Proof. unfold is_digit. rewrite andb_true_iff, !N.leb_le. tauto. Qed.

Lemma is_digit_unit d : digit d -> is_digit (digit_unit d) = true.
Proof.
  intros Hd. apply is_digit_bounds. rewrite digit_unit_eq by exact Hd.
  unfold digit in Hd. lia.
Qed.

Lemma read_decimal_units acc ds rest :
  Forall digit ds -> ends_numeral rest ->
  read_decimal acc (digit_units ds ++ rest)
  = (Z.to_N (digits_value (Z.of_N acc) ds), length ds, rest).
Proof.
  intros Hds Hrest. revert acc.
  induction Hds as [|d ds Hd _ IH]; intros acc.
  - cbn [digit_units map List.app digits_value length]. rewrite N2Z.id.
    destruct rest as [|c r]; [reflexivity|]. cbn [read_decimal].
    cbn in Hrest. now rewrite Hrest.
  - cbn [digit_units map List.app read_decimal digits_value length].
    rewrite (is_digit_unit d Hd). fold (digit_units ds). rewrite IH.
    rewrite (digit_unit_eq d Hd). unfold digit in Hd.
    replace (Z.of_N (10 * acc + (48 + Z.to_N d - 48)))%Z
      with (10 * Z.of_N acc + d)%Z by lia.
    reflexivity.
Qed.

Lemma digits_value_app a l1 l2 :
  digits_value a (l1 ++ l2) = digits_value (digits_value a l1) l2.
Proof. revert a. induction l1 as [|d l1 IH]; intros a; cbn; auto. Qed.

Lemma digits_value_zeros a n :
  (digits_value a (repeat 0 n) = a * 10 ^ Z.of_nat n)%Z.
Proof.
  revert a. induction n as [|n IH]; intros a.
  - cbn. lia.
  - cbn [repeat digits_value]. rewrite IH, Nat2Z.inj_succ, Z.pow_succ_r by lia.
    lia.
Qed.

Lemma digits_value_ge a l : (0 <= a)%Z -> Forall digit l -> (a <= digits_value a l)%Z.
Proof.
  intros Ha Hl. revert a Ha. induction Hl as [|d l Hd _ IH]; intros a Ha.
  - cbn. lia.
  - cbn [digits_value]. unfold digit in Hd.
    specialize (IH (10 * a + d)%Z ltac:(lia)). lia.
Qed.

Lemma digits_value_pos c t :
  Forall digit (c :: t) -> c <> 0%Z -> (0 < digits_value 0 (c :: t))%Z.
Proof.
  intros H Hc. inversion H as [|? ? Hd Ht]; subst. cbn [digits_value].
  unfold digit in Hd. pose proof (digits_value_ge (10 * 0 + c) t ltac:(lia) Ht).
  lia.
Qed.

Lemma zeros_units n : zeros n = digit_units (repeat 0%Z (Z.to_nat n)).
Proof.
  unfold zeros, digit_units. induction (Z.to_nat n); cbn; [reflexivity|].
  now f_equal.
Qed.

Lemma Forall_digit_zeros n : Forall digit (repeat 0%Z n).
Proof. induction n; constructor; [unfold digit; lia | assumption]. Qed.

(** An exponent part is read back. *)
Lemma read_exponent_units e rest :
  ends_numeral rest ->
  read_exponent (str (if (0 <=? e)%Z then "e+" else "e-")
                   ++ digit_units (digits (Z.abs e)) ++ rest)
  = Some (e, rest).
Proof.
  intros Hrest.
  assert (Hd : Forall digit (digits (Z.abs e))) by (apply digits_digit; lia).
  assert (Hv : digits_value 0 (digits (Z.abs e)) = Z.abs e)
    by (apply digits_value_digits; lia).
  assert (Hn : length (digits (Z.abs e)) <> O).
  { destruct (Z.eq_dec (Z.abs e) 0%Z) as [->|Hne]; [discriminate|].
    destruct (digits_head (Z.abs e) ltac:(lia)) as (d & t & -> & _).
    discriminate. }
  destruct (Z.leb_spec 0 e).
  - change (str "e+" ++ digit_units (digits (Z.abs e)) ++ rest)
      with (101%N :: 43%N :: digit_units (digits (Z.abs e)) ++ rest).
    unfold read_exponent. change ((101 =? 101) || (101 =? 69))%N with true.
    change (43 =? 45)%N with false. change (43 =? 43)%N with true. cbv iota.
    rewrite (read_decimal_units 0 _ rest Hd Hrest). cbn [Z.of_N]. rewrite Hv.
    destruct (length _); [congruence|]. f_equal. f_equal. lia.
  - change (str "e-" ++ digit_units (digits (Z.abs e)) ++ rest)
      with (101%N :: 45%N :: digit_units (digits (Z.abs e)) ++ rest).
    unfold read_exponent. change ((101 =? 101) || (101 =? 69))%N with true.
    change (45 =? 45)%N with true. cbv iota.
    rewrite (read_decimal_units 0 _ rest Hd Hrest). cbn [Z.of_N]. rewrite Hv.
    destruct (length _); [congruence|]. f_equal. f_equal. lia.
Qed.

Lemma read_exponent_none rest :
  delimited rest = true -> read_exponent rest = Some (0%Z, rest).
Proof.
  destruct rest as [|c r]; [reflexivity|]. cbn [delimited read_exponent].
  rewrite negb_true_iff, !orb_false_iff. intros [[[_ _] He] HE].
  change (u "e") with 101%N in He. change (u "E") with 69%N in HE.
  now rewrite He, HE.
Qed.

Lemma delimited_ends rest : delimited rest = true -> ends_numeral rest.
Proof.
  destruct rest as [|c r]; [easy|]. cbn [delimited ends_numeral].
  rewrite negb_true_iff, !orb_false_iff. tauto.
Qed.

Lemma delimited_no_point c r :
  delimited (c :: r) = true -> (c =? u ".")%N = false.
Proof.
  cbn [delimited]. rewrite negb_true_iff, !orb_false_iff. tauto.
Qed.

Lemma exponent_text_ends e rest :
  delimited rest = true -> ends_numeral (exponent_text e ++ rest).
Proof.
  intros Hrest. destruct e as [e|]; cbn [exponent_text].
  - now destruct (0 <=? e)%Z.
  - now apply delimited_ends.
Qed.

Lemma exponent_text_no_point e rest int :
  delimited rest = true ->
  read_fraction int (exponent_text e ++ rest)
  = Some (int, O, exponent_text e ++ rest).
Proof.
  intros Hrest. destruct e as [e|]; cbn [exponent_text].
  - now destruct (0 <=? e)%Z.
  - cbn [List.app]. destruct rest as [|c0 r]; [reflexivity|].
    cbn [read_fraction]. now rewrite (delimited_no_point _ _ Hrest).
Qed.

Lemma read_exponent_text e rest :
  delimited rest = true ->
  read_exponent (exponent_text e ++ rest)
  = Some (match e with Some e => e | None => 0%Z end, rest).
Proof.
  intros Hrest. destruct e as [e|]; cbn [exponent_text].
  - rewrite <- app_assoc. apply read_exponent_units. now apply delimited_ends.
  - now apply read_exponent_none.
Qed.

Lemma read_sign_text negative c t :
  is_digit c = true ->
  read_sign (sign_text negative ++ c :: t) = (negative, c :: t).
Proof.
  intros Hc. destruct negative; [reflexivity|].
  cbn [sign_text List.app read_sign].
  apply is_digit_bounds in Hc.
  replace (c =? u "-")%N with false; [reflexivity|].
  symmetry. apply N.eqb_neq. change (u "-") with 45%N. lia.
Qed.

Lemma parse_number_parts negative c ints fracs e rest :
  Forall digit (c :: ints) -> (c = 0%Z -> ints = []) ->
  Forall digit fracs -> delimited rest = true ->
  parse_number (sign_text negative ++ digit_units (c :: ints)
                  ++ fraction_text fracs ++ exponent_text e ++ rest)
  = Some (of_decimal negative
            (Z.to_N (digits_value 0 ((c :: ints) ++ fracs)))
            (match e with Some e => e | None => 0 end
             - Z.of_nat (length fracs)), rest).
Proof.
  intros Hints Hzero Hfracs Hrest.
  assert (Hc : digit c) by now inversion Hints.
  set (tail := fraction_text fracs ++ exponent_text e ++ rest).
  assert (Htail : ends_numeral tail).
  { unfold tail. destruct fracs; [|easy].
    now apply exponent_text_ends. }
  unfold parse_number. cbn [digit_units map List.app].
  rewrite (read_sign_text negative _ _ (is_digit_unit c Hc)).
  change (digit_unit c :: map digit_unit ints ++ tail)
    with (digit_units (c :: ints) ++ tail).
  rewrite (read_decimal_units 0 (c :: ints) tail Hints Htail).
  cbn [length].
  assert (Hlead : leading_zero (digit_units (c :: ints) ++ tail) (S (length ints))
                  = false).
  { cbn [digit_units map List.app leading_zero].
    destruct (Z.eq_dec c 0%Z) as [->|Hne].
    - now rewrite (Hzero eq_refl).
    - destruct (length ints); [reflexivity|].
      rewrite (digit_unit_eq c Hc). unfold digit in Hc.
      apply N.eqb_neq. change (u "0") with 48%N. lia. }
  rewrite Hlead. unfold tail.
  destruct fracs as [|f fracs].
  - cbn [fraction_text List.app length]. rewrite app_nil_r.
    rewrite (exponent_text_no_point e rest _ Hrest).
    rewrite (read_exponent_text e rest Hrest). reflexivity.
  - change (fraction_text (f :: fracs) ++ exponent_text e ++ rest)
      with (u "." :: digit_units (f :: fracs) ++ exponent_text e ++ rest).
    cbn [read_fraction]. rewrite N.eqb_refl.
    rewrite (read_decimal_units _ (f :: fracs) _ Hfracs
               (exponent_text_ends e rest Hrest)).
    cbn [length]. rewrite (read_exponent_text e rest Hrest). rewrite Z2N.id.
    + change (c :: ints ++ f :: fracs) with ((c :: ints) ++ f :: fracs).
      now rewrite digits_value_app.
    + apply Z.le_trans with (Z.of_N 0); [cbn; lia|].
      apply digits_value_ge; [cbn; lia | exact Hints].
Qed.

Lemma digit_units_app a b : digit_units (a ++ b) = digit_units a ++ digit_units b.
Proof. apply map_app. Qed.

Lemma of_decimal_scale negative v j :
  (0 < v)%Z -> (0 <= j)%Z ->
  of_decimal negative (Z.to_N (v * 10 ^ j)) 0 = of_decimal negative (Z.to_N v) j.
Proof.
  intros Hv Hj.
  assert (H10 : (0 < 10 ^ j)%Z) by (apply Z.pow_pos_nonneg; lia).
  destruct v as [|p|p]; try lia.
  destruct (10 ^ j)%Z as [|q|q] eqn:E; try lia.
  change (Z.to_N (Z.pos p * Z.pos q)) with (Npos (p * q)).
  change (Z.to_N (Z.pos p)) with (Npos p).
  unfold of_decimal. rewrite E. apply Z.leb_le in Hj. rewrite Hj.
  change (0 <=? 0)%Z with true. change (Z.to_pos (10 ^ 0)) with 1%positive.
  now rewrite Pos.mul_1_r.
Qed.

Lemma digits_value_leading_zeros n l :
  digits_value 0 (repeat 0%Z n ++ l) = digits_value 0 l.
Proof. induction n as [|n IH]; [reflexivity|]. exact IH. Qed.

(** The text [Number::toString] gives to a decimal reads back as the number
    the decimal denotes. *)
Lemma parse_number_format negative d rest :
  well_formed d -> delimited rest = true ->
  parse_number (sign_text negative ++ format_decimal d ++ rest)
  = Some (of_decimal negative (Z.to_N (digits_value 0 (fst d)))
            (snd d - Z.of_nat (length (fst d))), rest).
Proof.
  destruct d as [ds n]. intros (Hds & c & t & E & Hc) Hrest.
  cbn [fst snd] in *. subst ds. unfold format_decimal.
  set (k := Z.of_nat (length (c :: t))).
  assert (Hk : (0 < k)%Z) by (unfold k; cbn [length]; lia).
  destruct ((k <=? n) && (n <=? 21))%Z eqn:C1.
  { (* an integer: digits, then zeros *)
    apply andb_true_iff in C1 as [C1 _]. apply Z.leb_le in C1.
    rewrite zeros_units, <- digit_units_app.
    pose proof (parse_number_parts negative c
      (t ++ repeat 0%Z (Z.to_nat (n - k))) [] None rest) as H.
    cbn [fraction_text exponent_text List.app length Z.of_nat] in H.
    cbn [List.app]. rewrite H; clear H; try assumption.
    - f_equal. f_equal. rewrite app_nil_r.
      change (c :: t ++ repeat 0%Z (Z.to_nat (n - k)))
        with ((c :: t) ++ repeat 0%Z (Z.to_nat (n - k))).
      rewrite digits_value_app, digits_value_zeros, Z2Nat.id by lia.
      rewrite Z.sub_0_r.
      apply of_decimal_scale; [|lia]. now apply digits_value_pos.
    - change (Forall digit ((c :: t) ++ repeat 0%Z (Z.to_nat (n - k)))).
      apply Forall_app. split; [assumption | apply Forall_digit_zeros].
    - intros ->. now destruct Hc.
    - constructor. }
  destruct ((0 <? n) && (n <=? 21))%Z eqn:C2.
  { (* digits on both sides of the point *)
    apply andb_true_iff in C2 as [C2 C2']. apply Z.ltb_lt in C2.
    apply andb_false_iff in C1 as [C1|C1]; [apply Z.leb_gt in C1 | congruence].
    destruct (Z.to_nat n) as [|n'] eqn:En; [lia|].
    cbn [firstn skipn].
    assert (Hlen : (n' < length t)%nat) by (unfold k in C1; cbn [length] in C1; lia).
    destruct (skipn n' t) as [|f fr] eqn:Es.
    { apply (f_equal (@length Z)) in Es. rewrite length_skipn in Es.
      cbn [length] in Es. lia. }
    pose proof (parse_number_parts negative c (firstn n' t) (f :: fr) None rest)
      as H.
    cbn [exponent_text List.app] in H.
    change (fraction_text (f :: fr)) with (str "." ++ digit_units (f :: fr)) in H.
    rewrite <- !app_assoc in H. rewrite <- !app_assoc. rewrite H; clear H.
    - f_equal. f_equal. rewrite <- Es.
      change ((c :: firstn n' t) ++ skipn n' t) with (c :: firstn n' t ++ skipn n' t).
      rewrite firstn_skipn. f_equal. rewrite length_skipn.
      unfold k. cbn [length]. lia.
    - inversion Hds; subst. constructor; [assumption|].
      now apply (Forall_take digit).
    - intros ->. now destruct Hc.
    - rewrite <- Es. inversion Hds; subst. now apply (Forall_drop digit).
    - assumption. }
  destruct ((-6 <? n) && (n <=? 0))%Z eqn:C3.
  { (* a fraction below one *)
    apply andb_true_iff in C3 as [_ C3]. apply Z.leb_le in C3.
    rewrite zeros_units, <- !app_assoc.
    pose proof (parse_number_parts negative 0%Z []
      (repeat 0%Z (Z.to_nat (- n)) ++ c :: t) None rest) as H.
    cbn [exponent_text List.app] in H.
    assert (Hf : fraction_text (repeat 0%Z (Z.to_nat (- n)) ++ c :: t)
                 = str "." ++ digit_units (repeat 0%Z (Z.to_nat (- n)))
                     ++ digit_units (c :: t)).
    { rewrite <- digit_units_app.
      destruct (repeat 0%Z (Z.to_nat (- n)) ++ c :: t) eqn:Ez; [|reflexivity].
      now destruct (repeat 0%Z (Z.to_nat (- n))). }
    rewrite Hf in H. rewrite <- !app_assoc in H.
    change (str "0." ++ digit_units (repeat 0%Z (Z.to_nat (- n)))
              ++ digit_units (c :: t) ++ rest)
      with (digit_units [0%Z] ++ str "."
              ++ digit_units (repeat 0%Z (Z.to_nat (- n)))
              ++ digit_units (c :: t) ++ rest).
    rewrite H; clear H.
    - f_equal. f_equal.
      rewrite (digits_value_leading_zeros (S (Z.to_nat (- n))) (c :: t)
               : digits_value 0 (0%Z :: repeat 0%Z (Z.to_nat (- n)) ++ c :: t) = _).
      f_equal.
      rewrite length_app, repeat_length. unfold k. cbn [length]. lia.
    - constructor; [unfold digit; lia | constructor].
    - reflexivity.
    - apply Forall_app. split; [apply Forall_digit_zeros | assumption].
    - assumption. }
  (* an exponent *)
  destruct t as [|f fr].
  - pose proof (parse_number_parts negative c [] [] (Some (n - 1)%Z) rest) as H.
    cbn [fraction_text exponent_text List.app length Z.of_nat digit_units map] in H.
    rewrite <- !app_assoc in H. cbn [List.app]. rewrite <- !app_assoc.
    cbn [List.app]. rewrite H; clear H; try assumption; try reflexivity.
    + f_equal; f_equal; f_equal; try reflexivity. unfold k. cbn [length]. lia.
    + constructor.
  - pose proof (parse_number_parts negative c [] (f :: fr) (Some (n - 1)%Z) rest)
      as H.
    cbn [exponent_text] in H.
    change (fraction_text (f :: fr)) with (str "." ++ digit_units (f :: fr)) in H.
    change (digit_units [c]) with [digit_unit c] in H.
    rewrite <- !app_assoc in H. cbn [List.app] in H.
    rewrite <- !app_assoc. cbn [List.app]. rewrite <- !app_assoc.
    rewrite H; clear H; try assumption; try reflexivity.
    + f_equal; f_equal; f_equal; try reflexivity. unfold k. cbn [length]. lia.
    + inversion Hds; subst. constructor; [assumption | constructor].
    + now inversion Hds.
Qed.

(** A number that [JSON.stringify] writes in full reads back. *)
Theorem parse_number_to_string x rest :
  plain x = true -> delimited rest = true ->
  parse_number (number_to_string x ++ rest) = Some (x, rest).
Proof.
  intros Hx Hrest. destruct x as [[]| | |s m e]; try discriminate.
  - exact (parse_number_parts false 0%Z [] [] None rest
             ltac:(repeat constructor; unfold digit; lia) ltac:(reflexivity)
             ltac:(constructor) Hrest).
  - cbn [plain] in Hx. destruct (to_decimal_spec m e Hx) as [Hd Hw].
    cbn [number_to_string].
    pose proof (parse_number_format s _ rest Hw Hrest) as H.
    rewrite <- app_assoc. etransitivity; [exact H|]. clear H.
    rewrite of_decimal_sign. fold (decimal_number (to_decimal m e)).
    now rewrite Hd.
Qed.

Lemma format_decimal_head d :
  well_formed d -> exists c t, format_decimal d = c :: t /\ is_digit c = true.
Proof.
  destruct d as [ds n]. intros (Hds & c & t & E & Hc). cbn [fst] in *. subst ds.
  assert (Hd : is_digit (digit_unit c) = true)
    by (apply is_digit_unit; now inversion Hds).
  unfold format_decimal.
  destruct ((Z.of_nat (length (c :: t)) <=? n) && (n <=? 21))%Z;
    [eexists _, _; split; [reflexivity | exact Hd]|].
  destruct ((0 <? n) && (n <=? 21))%Z eqn:C2.
  { apply andb_true_iff in C2 as [C2 _]. apply Z.ltb_lt in C2.
    destruct (Z.to_nat n) eqn:En; [lia|].
    eexists _, _; split; [reflexivity | exact Hd]. }
  destruct ((-6 <? n) && (n <=? 0))%Z;
    [eexists _, _; split; reflexivity|].
  destruct t; eexists _, _; (split; [reflexivity | exact Hd]).
Qed.

Lemma number_to_string_head x :
  is_finite x = true ->
  exists c t, number_to_string x = c :: t
              /\ (c = u "-" \/ is_digit c = true).
Proof.
  destruct x as [s| | |s m e]; try discriminate; intros _.
  - eexists _, _; split; [reflexivity | now right].
  - cbn [number_to_string].
    destruct (format_decimal_head _ (to_decimal_well_formed m e))
      as (c & t & -> & Hc).
    destruct s; eexists _, _; (split; [reflexivity|]); [now left | now right].
Qed.

(** *** String literals *)

Lemma hex_value_digit n : (n < 16)%N -> hex_value (hex_digit n) = Some n.
Proof.
  intros Hn. rewrite <- (N2Nat.id n) in *.
  assert (H : (N.to_nat n < 16)%nat) by lia. clear Hn.
  revert H. generalize (N.to_nat n) as k. intros k Hk.
  do 16 (destruct k as [|k]; [reflexivity|]). lia.
Qed.

Lemma hex_digits c :
  (c < 65536)%N ->
  (((c / 4096 mod 16 * 16 + c / 256 mod 16) * 16 + c / 16 mod 16) * 16
   + c mod 16 = c)%N.
Proof.
  intros Hc.
  pose proof (N.div_mod c 16 ltac:(lia)) as H1.
  pose proof (N.div_mod (c / 16) 16 ltac:(lia)) as H2.
  pose proof (N.div_mod (c / 256) 16 ltac:(lia)) as H3.
  pose proof (N.Div0.div_div c 16 16) as E1.
  pose proof (N.Div0.div_div c 256 16) as E2.
  change (16 * 16)%N with 256%N in E1. change (256 * 16)%N with 4096%N in E2.
  rewrite E1 in H2. rewrite E2 in H3.
  assert (H4 : (c / 4096 < 16)%N)
    by (apply N.Div0.div_lt_upper_bound; lia).
  rewrite (N.mod_small (c / 4096) 16 H4). lia.
Qed.

Lemma parse_string_unicode c t :
  (c < 65536)%N ->
  parse_string (unicode_escape c ++ t) = cons_to c (parse_string t).
Proof.
  intros Hc. unfold unicode_escape. cbn [List.app parse_string].
  change (bslash =? dquote)%N with false. change (bslash =? bslash)%N with true.
  change (u "u" =? dquote)%N with false. change (u "u" =? bslash)%N with false.
  change (u "u" =? u "/")%N with false. change (u "u" =? u "b")%N with false.
  change (u "u" =? u "f")%N with false. change (u "u" =? u "n")%N with false.
  change (u "u" =? u "r")%N with false. change (u "u" =? u "t")%N with false.
  change (u "u" =? u "u")%N with true. cbv iota.
  rewrite !hex_value_digit by (apply N.mod_lt; lia).
  now rewrite hex_digits.
Qed.

Lemma parse_string_raw c t :
  (32 <= c)%N -> c <> dquote -> c <> bslash ->
  parse_string (c :: t) = cons_to c (parse_string t).
Proof.
  intros H32 Hq Hb. cbn [parse_string].
  apply N.eqb_neq in Hq, Hb. rewrite Hq, Hb.
  apply N.ltb_ge in H32. now rewrite H32.
Qed.

Lemma parse_string_unit c t :
  parse_string (escape_unit c ++ t) = cons_to c (parse_string t).
Proof.
  unfold escape_unit.
  repeat match goal with
  | |- context [(c =? ?k)%N] =>
      destruct (N.eqb_spec c k); [subst c; reflexivity|]
  end.
  destruct (N.ltb_spec c 32).
  - apply parse_string_unicode. lia.
  - apply parse_string_raw; assumption.
Qed.

Lemma surrogate_bounds c :
  is_high_surrogate c = true \/ is_low_surrogate c = true ->
  (32 <= c < 65536)%N /\ c <> dquote /\ c <> bslash.
Proof.
  unfold is_high_surrogate, is_low_surrogate, dquote, bslash.
  rewrite !andb_true_iff, !N.leb_le. lia.
Qed.

(** A string reads back from between its quotes. *)
Theorem parse_string_quoted s rest :
  parse_string (escape s ++ dquote :: rest) = Some (s, rest).
Proof.
  remember (length s) as n eqn:En.
  revert s En. induction n as [n IH] using lt_wf_ind. intros s ->.
  destruct s as [|c r]; [reflexivity|]. cbn [escape].
  destruct (is_high_surrogate c) eqn:Hh.
  - destruct (surrogate_bounds c (or_introl Hh)) as ([? ?] & ? & ?).
    destruct r as [|d r'].
    + rewrite parse_string_unicode by assumption. reflexivity.
    + destruct (is_low_surrogate d) eqn:Hl.
      * destruct (surrogate_bounds d (or_intror Hl)) as ([? ?] & ? & ?).
        cbn [List.app]. rewrite !parse_string_raw by assumption.
        rewrite (IH (length r')) by (cbn [length]; lia || reflexivity).
        reflexivity.
      * rewrite <- app_assoc, parse_string_unicode by assumption.
        rewrite (IH (length (d :: r'))) by (cbn [length]; lia || reflexivity).
        reflexivity.
  - destruct (is_low_surrogate c) eqn:Hl.
    + destruct (surrogate_bounds c (or_intror Hl)) as ([? ?] & ? & ?).
      rewrite <- app_assoc, parse_string_unicode by assumption.
      rewrite (IH (length r)) by (cbn [length]; lia || reflexivity).
      reflexivity.
    + rewrite <- app_assoc, parse_string_unit.
      rewrite (IH (length r)) by (cbn [length]; lia || reflexivity).
      reflexivity.
Qed.

(** *** The text of a decoded value *)

Lemma decoded_where_impl (P Q : number -> Prop) v :
  (forall x, P x -> Q x) -> decoded_where P v -> decoded_where Q v.
Proof.
  intros HPQ. induction v using JS.value_ind; intros Hd; inversion Hd; subst;
    constructor; auto.
  - rewrite Forall_forall in *. auto.
  - rewrite Forall_forall in *. auto.
Qed.

Lemma written_whole_decoded v : written_whole v -> decoded v.
Proof. now apply decoded_where_impl. Qed.

(** A decoded value is written in full when its numbers are. *)
Lemma decoded_all_plain v :
  decoded v -> all_plain v = true -> written_whole v.
Proof.
  induction v using JS.value_ind; intros Hd Hp; inversion Hd; subst;
    try (constructor; assumption).
  - constructor. cbn [all_plain] in Hp. rewrite forallb_forall in Hp.
    rewrite Forall_forall in *. intros x Hx.
    apply H; [exact Hx | now apply H1 | apply Hp; now apply list_elem_of_In].
  - constructor; [assumption|]. cbn [all_plain] in Hp.
    rewrite forallb_forall in Hp. rewrite Forall_forall in *. intros x Hx.
    apply H; [exact Hx | now apply H2 | apply Hp; now apply list_elem_of_In].
Qed.

Lemma serialize_decoded v : decoded v -> serialize [] [] v = Some (text v).
Proof. unfold text. destruct 1 as [|[]| | | |]; reflexivity. Qed.

Lemma text_arr items :
  text (VArr items) = wrap (u "[") (u "]") [] [] (map text items).
Proof. reflexivity. Qed.

Lemma text_obj fields :
  Forall (fun kv => decoded (snd kv)) fields ->
  text (VObj fields) = wrap (u "{") (u "}") [] [] (map member_text fields).
Proof.
  intros H. unfold text at 1. cbn [serialize].
  change (@List.app code_unit [] []) with (@nil code_unit). f_equal.
  induction H as [|kv l Hkv _ IH]; [reflexivity|].
  cbn [flat_map map]. rewrite IH, (serialize_decoded _ Hkv). reflexivity.
Qed.

Lemma digit_opens c t : is_digit c = true -> opens_value (c :: t) = true.
Proof.
  intros H. apply is_digit_bounds in H. unfold opens_value, is_ws.
  repeat match goal with
  | |- context [(c =? ?k)%N] =>
      destruct (N.eqb_spec c k); [exfalso; subst c; cbn in H; lia|]
  end. reflexivity.
Qed.

Lemma text_opens v : opens_value (text v) = true.
Proof.
  destruct v as [| |[]|x| | |]; try reflexivity.
  - unfold text; cbn [serialize]. destruct (is_finite x) eqn:Hx; [|reflexivity].
    destruct (number_to_string_head x Hx) as (c & t & -> & [->|Hc]);
      [reflexivity | now apply digit_opens].
  - unfold text; cbn [serialize]. unfold wrap.
    destruct (is_nil _); reflexivity.
  - unfold text; cbn [serialize]. unfold wrap.
    destruct (is_nil _); reflexivity.
Qed.

Lemma opens_skip_ws t rest :
  opens_value t = true -> skip_ws (t ++ rest) = t ++ rest.
Proof.
  destruct t as [|c t]; [discriminate|]. cbn [List.app skip_ws opens_value].
  destruct (is_ws c); [discriminate | reflexivity].
Qed.

Lemma opens_not c t rest :
  opens_value t = true ->
  c = u "]" \/ c = u "}" \/ c = u "," \/ c = u ":" ->
  starts_with c (t ++ rest) = None.
Proof.
  destruct t as [|c' t]; [discriminate|].
  cbn [List.app starts_with opens_value].
  intros H Hc. rewrite !andb_true_iff, !negb_true_iff in H.
  destruct H as [[[[_ H1] H2] H3] H4].
  rewrite N.eqb_sym.
  destruct Hc as [-> | [-> | [-> | ->]]]; now rewrite ?H1, ?H2, ?H3, ?H4.
Qed.

(** *** The parser, one step at a time *)

Lemma parse_elements_eq fuel s acc :
  parse_elements (S fuel) s acc =
  match parse_value fuel s with
  | Some (v, r) =>
      match starts_with (u ",") (skip_ws r) with
      | Some r' => parse_elements fuel r' (v :: acc)
      | None =>
          match starts_with (u "]") (skip_ws r) with
          | Some r' => Some (VArr (List.rev (v :: acc)), r')
          | None => None
          end
      end
  | None => None
  end.
Proof. reflexivity. Qed.

Lemma parse_members_eq fuel s acc :
  parse_members (S fuel) s acc =
  match starts_with dquote (skip_ws s) with
  | Some r =>
      match parse_string r with
      | Some (k, r1) =>
          match starts_with (u ":") (skip_ws r1) with
          | Some r2 =>
              match parse_value fuel r2 with
              | Some (v, r3) =>
                  let acc' := add_member acc (k, v) in
                  match starts_with (u ",") (skip_ws r3) with
                  | Some r4 => parse_members fuel r4 acc'
                  | None =>
                      match starts_with (u "}") (skip_ws r3) with
                      | Some r4 => Some (VObj acc', r4)
                      | None => None
                      end
                  end
              | None => None
              end
          | None => None
          end
      | None => None
      end
  | None => None
  end.
Proof. reflexivity. Qed.

Lemma after_comma r : starts_with (u ",") (skip_ws (u "," :: r)) = Some r.
Proof. reflexivity. Qed.

Lemma after_colon r : starts_with (u ":") (skip_ws (u ":" :: r)) = Some r.
Proof. reflexivity. Qed.

Lemma after_bracket r :
  starts_with (u ",") (skip_ws (u "]" :: r)) = None
  /\ starts_with (u "]") (skip_ws (u "]" :: r)) = Some r.
Proof. split; reflexivity. Qed.

Lemma after_brace r :
  starts_with (u ",") (skip_ws (u "}" :: r)) = None
  /\ starts_with (u "}") (skip_ws (u "}" :: r)) = Some r.
Proof. split; reflexivity. Qed.

Lemma before_key r : starts_with dquote (skip_ws (dquote :: r)) = Some r.
Proof. reflexivity. Qed.

Lemma delimited_punctuation c r :
  c = u "," \/ c = u "]" \/ c = u "}" -> delimited (c :: r) = true.
Proof. intros [-> | [-> | ->]]; reflexivity. Qed.

(** The loops over the items of an array and the members of an object. *)
Lemma parse_elements_text items :
  Forall round_trips items -> items <> [] ->
  forall fuel acc rest,
    length (join [u ","] (map text items)) + 1 < fuel ->
    parse_elements fuel (join [u ","] (map text items) ++ u "]" :: rest) acc
    = Some (VArr (List.rev acc ++ items), rest).
Proof.
  induction 1 as [|x l Hx Hl IH]; [congruence|]. intros _ fuel acc rest Hfuel.
  destruct fuel as [|fuel]; [lia|]. rewrite parse_elements_eq.
  destruct l as [|y l].
  - cbn [map join] in *. rewrite Hx by (reflexivity || lia).
    destruct (after_bracket rest) as [-> ->]. reflexivity.
  - change (join [u ","] (map text (x :: y :: l)))
      with (text x ++ [u ","] ++ join [u ","] (map text (y :: l))) in *.
    rewrite length_app, length_app in Hfuel. cbn [length] in Hfuel.
    rewrite <- !app_assoc. rewrite Hx by (reflexivity || lia).
    cbn [List.app]. rewrite after_comma.
    rewrite IH by (congruence || lia). cbn [List.rev].
    rewrite <- app_assoc. reflexivity.
Qed.

Lemma parse_members_text fields :
  Forall (fun kv => round_trips (snd kv)) fields -> fields <> [] ->
  forall fuel acc rest,
    length (join [u ","] (map member_text fields)) + 1 < fuel ->
    parse_members fuel
      (join [u ","] (map member_text fields) ++ u "}" :: rest) acc
    = Some (VObj (fold_left add_member fields acc), rest).
Proof.
  induction 1 as [|[k x] l Hx Hl IH]; [congruence|]. intros _ fuel acc rest Hfuel.
  destruct fuel as [|fuel]; [lia|]. rewrite parse_members_eq.
  cbn [snd] in Hx.
  assert (Hk : forall tail,
    member_text (k, x) ++ tail
    = dquote :: escape k ++ dquote :: u ":" :: text x ++ tail).
  { intros tail. unfold member_text, quote. cbn [fst snd List.app].
    rewrite <- !app_assoc. reflexivity. }
  destruct l as [|kv l].
  - cbn [map join] in *. rewrite Hk, before_key, parse_string_quoted, after_colon.
    unfold member_text in Hfuel. rewrite length_app in Hfuel.
    cbn [length fst snd] in Hfuel.
    rewrite Hx by (reflexivity || lia).
    destruct (after_brace rest) as [-> ->]. reflexivity.
  - change (join [u ","] (map member_text ((k, x) :: kv :: l)))
      with (member_text (k, x) ++ [u ","]
              ++ join [u ","] (map member_text (kv :: l))) in *.
    rewrite <- !app_assoc, Hk, before_key, parse_string_quoted, after_colon.
    unfold member_text at 1 in Hfuel. rewrite !length_app in Hfuel.
    cbn [length fst snd] in Hfuel.
    rewrite Hx by (reflexivity || lia). cbn [List.app]. rewrite after_comma.
    cbv zeta. rewrite IH by (congruence || lia). reflexivity.
Qed.

Lemma parse_value_number fuel c t :
  c = u "-" \/ is_digit c = true ->
  parse_value (S fuel) (c :: t) =
  match parse_number (c :: t) with
  | Some (n, r) => Some (VNum n, r)
  | None => None
  end.
Proof.
  intros Hc.
  assert (H : (c = 45 \/ 48 <= c <= 57)%N).
  { destruct Hc as [->|Hc]; [now left | right; now apply is_digit_bounds]. }
  cbn [parse_value skip_ws]. unfold is_ws.
  repeat match goal with
  | |- context [(c =? ?k)%N] =>
      destruct (N.eqb_spec c k); [exfalso; subst c; cbn in H; lia|]
  end.
  cbn [orb]. unfold str, units.
  cbn [list_ascii_of_string map strip_prefix starts_with].
  repeat match goal with
  | |- context [(?k =? c)%N] =>
      destruct (N.eqb_spec k c); [exfalso; subst c; cbn in H; lia|]
  end.
  destruct (N.eqb_spec dquote c); [exfalso; subst c; unfold dquote in H; lia|].
  reflexivity.
Qed.

Lemma length_wrap o c parts :
  parts <> [] ->
  length (wrap o c [] [] parts) = length (join [u ","] parts) + 2.
Proof.
  destruct parts; [congruence|]. intros _. unfold wrap. cbn [is_nil].
  cbn [length]. rewrite length_app. cbn. lia.
Qed.

Lemma parse_value_string fuel r :
  parse_value (S fuel) (dquote :: r) =
  match parse_string r with
  | Some (t, r') => Some (VStr t, r')
  | None => None
  end.
Proof. reflexivity. Qed.

Lemma parse_value_array fuel r :
  parse_value (S fuel) (u "[" :: r) =
  match starts_with (u "]") (skip_ws r) with
  | Some r' => Some (VArr [], r')
  | None => parse_elements fuel r []
  end.
Proof. reflexivity. Qed.

Lemma parse_value_object fuel r :
  parse_value (S fuel) (u "{" :: r) =
  match starts_with (u "}") (skip_ws r) with
  | Some r' => Some (VObj [], r')
  | None => parse_members fuel r []
  end.
Proof. reflexivity. Qed.

(** The parser reads the text of a value back to that value, whatever
    follows it, when [JSON.stringify] wrote the value in full. *)
Theorem decoded_round_trips v : written_whole v -> round_trips v.
Proof.
  induction v using JS.value_ind; intros Hd; inversion Hd; subst;
    intros fuel rest Hfuel Hrest.
  - destruct fuel; [cbn in Hfuel; lia | reflexivity].
  - destruct fuel; [cbn in Hfuel; lia |]. destruct b; reflexivity.
  - destruct fuel; [cbn in Hfuel; lia |].
    assert (Hf : is_finite x = true) by (now destruct x as [| | |]).
    unfold text. cbn [serialize]. rewrite Hf.
    destruct (number_to_string_head x Hf) as (c & t & E & Hc).
    pose proof (parse_number_to_string x rest H0 Hrest) as Hp.
    rewrite E in *. cbn [List.app] in *.
    rewrite parse_value_number by exact Hc. now rewrite Hp.
  - destruct fuel; [cbn in Hfuel; lia |].
    change (text (VStr s)) with (quote s). unfold quote.
    rewrite <- app_comm_cons, <- app_assoc. cbn [List.app].
    now rewrite parse_value_string, parse_string_quoted.
  - destruct fuel; [cbn in Hfuel; lia |].
    destruct items as [|x l]; [reflexivity|].
    rewrite text_arr in *. rewrite length_wrap in Hfuel by discriminate.
    unfold wrap. cbn [is_nil map]. rewrite <- app_comm_cons, <- app_assoc.
    rewrite parse_value_array.
    change (join [u ","] (text x :: map text l))
      with (join [u ","] (map text (x :: l))) in *.
    assert (Ho : opens_value (join [u ","] (map text (x :: l))) = true).
    { pose proof (text_opens x) as Hx. cbn [map join].
      destruct (text x) eqn:E; [discriminate|].
      destruct (map text l); exact Hx. }
    cbn [List.app]. rewrite (opens_skip_ws _ _ Ho), (opens_not _ _ _ Ho) by tauto.
    rewrite parse_elements_text; try (discriminate || lia || reflexivity).
    apply Forall_forall. intros y Hy.
    rewrite Forall_forall in H, H1. apply H; [exact Hy | apply H1; exact Hy].
  - destruct fuel; [cbn in Hfuel; lia |].
    destruct fields as [|kv l]; [reflexivity|].
    assert (Hdec : Forall (fun kv => decoded (snd kv)) (kv :: l)).
    { eapply List.Forall_impl; [|exact H2]. intros a. apply written_whole_decoded. }
    rewrite text_obj in * by assumption.
    rewrite length_wrap in Hfuel by discriminate.
    unfold wrap. cbn [is_nil map]. rewrite <- app_comm_cons, <- app_assoc.
    rewrite parse_value_object.
    change (join [u ","] (member_text kv :: map member_text l))
      with (join [u ","] (map member_text (kv :: l))) in *.
    assert (Ho : opens_value (join [u ","] (map member_text (kv :: l))) = true).
    { cbn [map join]. destruct (map member_text l); reflexivity. }
    cbn [List.app]. rewrite (opens_skip_ws _ _ Ho), (opens_not _ _ _ Ho) by tauto.
    rewrite parse_members_text; try (discriminate || lia).
    + f_equal. f_equal. f_equal. exact H1.
    + apply Forall_forall. intros y Hy.
      rewrite Forall_forall in H, H2. apply H; [exact Hy | apply H2; exact Hy].
Qed.

Section Parsing.
Context {JSE : Engine}.

Lemma parse_text_text v : written_whole v -> parse_text (text v) = Ok v.
Proof.
  intros Hd. unfold parse_text.
  pose proof (decoded_round_trips v Hd (S (length (text v))) []) as H.
  rewrite app_nil_r in H. rewrite H by (reflexivity || lia). reflexivity.
Qed.

(** [JSON.parse(JSON.stringify(v))] is [v] again, for a [v] that is
    written in full. *)
Theorem parse_stringify v s :
  written_whole v -> stringify v = Some s -> parse (VStr s) = Ok v.
Proof.
  intros Hd Hs. unfold parse. cbn [to_string].
  unfold stringify, stringify_gap in Hs. cbn [Nat.min repeat] in Hs.
  rewrite (serialize_decoded _ (written_whole_decoded _ Hd)) in Hs.
  injection Hs as <-. now apply parse_text_text.
Qed.

End Parsing.

Lemma stringify_text v s : stringify v = Some s -> s = text v.
Proof.
  unfold stringify, stringify_gap, text. cbn [Nat.min repeat].
  destruct (serialize [] [] v); congruence.
Qed.

(** The text [JSON.stringify] returns is never the empty string. *)
Lemma stringify_truthy v s : stringify v = Some s -> truthy (VStr s) = true.
Proof.
  intros H. rewrite (stringify_text _ _ H).
  pose proof (text_opens v) as Ho.
  destruct (text v); [discriminate | reflexivity].
Qed.

Lemma stringify_decoded v : decoded v -> stringify v = Some (text v).
Proof.
  intros Hd. unfold stringify, stringify_gap. cbn [Nat.min repeat].
  now rewrite (serialize_decoded _ Hd).
Qed.

(** An own property set to [undefined] is serialised like a property that
    is not there. *)
Lemma members_insert_undefined (f : jstring * value -> list jstring) i k fields :
  f (k, VUndef) = [] ->
  flat_map f (obj_insert_index i k VUndef fields) = flat_map f fields.
Proof.
  intros Hf. induction fields as [|[k' v'] rest IH]; cbn [obj_insert_index].
  - cbn. now rewrite Hf.
  - destruct (array_index k') as [j|].
    + destruct (j <? i)%N; cbn [flat_map]; [now rewrite IH | now rewrite Hf].
    + cbn [flat_map]. now rewrite Hf.
Qed.

Lemma members_set_undefined (f : jstring * value -> list jstring) k fields :
  (forall k', f (k', VUndef) = []) ->
  flat_map f (obj_set fields k VUndef) = flat_map f (obj_delete k fields).
Proof.
  intros Hf. unfold obj_set, obj_delete.
  destruct (has_field k fields) eqn:Hk.
  - clear Hk. induction fields as [|[k' v'] rest IH]; [reflexivity|].
    cbn [map List.filter fst]. destruct (jstring_eqb k k'); cbn [negb flat_map].
    + now rewrite Hf, IH.
    + now rewrite IH.
  - assert (Hfilter : List.filter (fun kv => negb (jstring_eqb k (fst kv))) fields = fields).
    { unfold has_field in Hk. induction fields as [|[k' v'] rest IH]; [reflexivity|].
      cbn [existsb fst] in Hk. apply orb_false_iff in Hk as [Hk1 Hk2].
      cbn [List.filter fst]. rewrite Hk1. cbn [negb]. now rewrite IH. }
    rewrite Hfilter. destruct (array_index k).
    + apply members_insert_undefined, Hf.
    + rewrite flat_map_app. cbn [flat_map]. now rewrite Hf, !app_nil_r.
Qed.

Lemma serialize_set_undefined gap indent k fields :
  serialize gap indent (VObj (obj_set fields k VUndef))
  = serialize gap indent (VObj (obj_delete k fields)).
Proof.
  cbn [serialize]. f_equal. f_equal. apply members_set_undefined.
  reflexivity.
Qed.

End JSONFacts.

(** ** Objects keep their properties in order *)

Module ObjectFacts.
Import JS.

(** *** Array-index keys *)

Lemma digit_of_char c D :
  digit_of c = Some D -> forall d, chars_of_uint (D d) = c :: chars_of_uint d.
Proof.
  unfold digit_of. intros H d.
  repeat match type of H with
  | context [Ascii.eqb c ?k] =>
      destruct (Ascii.eqb_spec c k); [subst c; injection H as <-; reflexivity|]
  end.
  discriminate.
Qed.

Lemma read_digits_all s d : read_digits s = (d, []) -> s = chars_of_uint d.
Proof.
  revert d. induction s as [|c r IH]; intros d; cbn [read_digits].
  - now intros [= <-].
  - destruct (digit_of c) as [D|] eqn:E; [|discriminate].
    destruct (read_digits r) as [d' r'] eqn:Er. intros [= <- ->].
    rewrite (digit_of_char _ _ E). f_equal. now apply IH.
Qed.

(** An array-index key is the decimal numeral of its index. *)
Lemma ascii_text_units k cs : ascii_text k = Some cs -> k = units cs.
Proof.
  revert cs. induction k as [|c r IH]; intros cs; cbn [ascii_text].
  - now intros [= <-].
  - destruct (N.ltb_spec c 256); [|discriminate].
    destruct (ascii_text r) as [t|]; [|discriminate]. intros [= <-].
    cbn [units map]. rewrite N_ascii_embedding by assumption.
    f_equal. now apply IH.
Qed.

Lemma array_index_numeral k i :
  array_index k = Some i -> k = units (chars_of_uint (N.to_uint i)).
Proof.
  unfold array_index. destruct (ascii_text k) as [cs|] eqn:Ek; [|discriminate].
  apply ascii_text_units in Ek. subst k.
  destruct (read_digits cs) as [d r] eqn:E.
  destruct r; [|discriminate]. apply read_digits_all in E. rewrite E.
  assert (Hn : forall d', d' <> Nil -> (forall d'', d' <> D0 d'') ->
               (N.of_uint d' <? 4294967295)%N = true ->
               chars_of_uint d' = chars_of_uint (N.to_uint (N.of_uint d'))).
  { intros d' Hnil Hz _. rewrite DecimalN.Unsigned.to_of.
    destruct d'; try reflexivity; [congruence | now destruct (Hz d')]. }
  destruct d as [|d|d|d|d|d|d|d|d|d|d]; try discriminate;
    try (destruct (N.of_uint _ <? _)%N eqn:Hlt; [|discriminate];
         intros [= <-]; f_equal; apply Hn; [discriminate | discriminate | exact Hlt]).
  destruct d; try discriminate. now intros [= <-].
Qed.

Lemma array_index_inj k k' i :
  array_index k = Some i -> array_index k' = Some i -> k = k'.
Proof.
  intros H H'. apply array_index_numeral in H, H'. congruence.
Qed.

(** *** Keys *)

Lemma jstring_eqb_eq a b : jstring_eqb a b = true <-> a = b.
Proof.
  revert b. induction a as [|x a IH]; intros [|y b]; cbn [jstring_eqb];
    try (split; (discriminate || reflexivity)).
  rewrite andb_true_iff, N.eqb_eq, IH. split; [intros [-> ->] | intros [= -> ->]];
    auto.
Qed.

Lemma jstring_eqb_refl a : jstring_eqb a a = true.
Proof. now apply jstring_eqb_eq. Qed.

Lemma jstring_eqb_neq a b : jstring_eqb a b = false <-> a <> b.
Proof.
  rewrite <- jstring_eqb_eq. destruct (jstring_eqb a b); split; congruence.
Qed.

Lemma units_inj a b : units a = units b -> a = b.
Proof.
  revert b. induction a as [|x a IH]; intros [|y b]; cbn; try congruence.
  intros [= Hx Hr]. f_equal; [|now apply IH].
  rewrite <- (ascii_N_embedding x), <- (ascii_N_embedding y). congruence.
Qed.

Lemma str_inj a b : str a = str b -> a = b.
Proof.
  unfold str. intros H. apply units_inj in H.
  rewrite <- (string_of_list_ascii_of_string a),
          <- (string_of_list_ascii_of_string b). congruence.
Qed.

(** Comparing two literals of the program compares their characters. *)
Lemma jstring_eqb_str a b : jstring_eqb (str a) (str b) = String.eqb a b.
Proof.
  destruct (String.eqb_spec a b) as [->|Hne].
  - apply jstring_eqb_refl.
  - apply jstring_eqb_neq. intros H. now apply Hne, str_inj.
Qed.

(** A literal is truthy unless it is empty. *)
Lemma truthy_str s : truthy (VStr (str s)) = negb (String.eqb s "").
Proof. destruct s; reflexivity. Qed.

(** *** Canonical order is kept by [obj_set] *)

Lemma has_field_false k fields :
  has_field k fields = false <-> Forall (fun kv => fst kv <> k) fields.
Proof.
  unfold has_field. induction fields as [|[k' v'] rest IH]; cbn [existsb fst].
  - split; [constructor | reflexivity].
  - rewrite orb_false_iff, IH. split.
    + intros [Hk Hr]. constructor; [|exact Hr]. cbn.
      intros ->. now rewrite jstring_eqb_refl in Hk.
    + inversion 1 as [|? ? Hk Hr]; subst. split; [|exact Hr].
      apply jstring_eqb_neq. cbn in Hk. congruence.
Qed.

Lemma canonical_replace k v fields :
  canonical fields ->
  canonical (map (fun kv => if jstring_eqb k (fst kv) then (fst kv, v) else kv)
               fields).
Proof.
  set (f := fun kv : jstring * value =>
              if jstring_eqb k (fst kv) then (fst kv, v) else kv).
  assert (Hfst : forall kv, fst (f kv) = fst kv).
  { intros kv. unfold f. now destruct (jstring_eqb k (fst kv)). }
  assert (Hall : forall (P : jstring * value -> Prop) l,
            (forall kv, P kv -> P (f kv)) -> Forall P l -> Forall P (map f l)).
  { intros P l HP H. induction H; cbn; constructor; auto. }
  assert (Hhead : forall k' v', exists w, f (k', v') = (k', w)).
  { intros k' v'. unfold f. cbn [fst]. destruct (jstring_eqb k k'); eauto. }
  induction 1 as [|k' v' i rest Hi Hab _ IH|k' v' rest Hn Hno _ IH]; cbn [map].
  - constructor.
  - destruct (Hhead k' v') as [w ->].
    apply (canonical_index _ _ i); auto.
    apply Hall; [|exact Hab]. intros kv. unfold above. now rewrite Hfst.
  - destruct (Hhead k' v') as [w ->].
    apply canonical_name; auto.
    apply Hall; [|exact Hno]. intros kv. unfold named_other. now rewrite Hfst.
Qed.

Lemma canonical_insert_index i k v fields :
  array_index k = Some i -> has_field k fields = false ->
  canonical fields ->
  canonical (obj_insert_index i k v fields)
  /\ forall j, (j < i)%N -> Forall (above j) fields ->
               Forall (above j) (obj_insert_index i k v fields).
Proof.
  intros Hk Hf Hc. apply has_field_false in Hf.
  induction Hc as [|k' v' j rest Hj Hab Hc IH|k' v' rest Hn Hno Hc _];
    cbn [obj_insert_index].
  - split.
    + apply (canonical_index _ _ i); auto. constructor.
    + intros j Hlt _. constructor; [|constructor]. unfold above. cbn.
      now rewrite Hk.
  - inversion Hf as [|? ? Hne Hf']; subst. cbn in Hne. rewrite Hj.
    destruct (N.ltb_spec j i) as [Hlt|Hge].
    + destruct (IH Hf') as [IH1 IH2]. split.
      * apply (canonical_index _ _ j); auto.
      * intros j' Hj' Hall. inversion Hall; subst. constructor; auto.
    + assert (Hij : (i < j)%N).
      { destruct (N.eq_dec i j) as [->|]; [|lia].
        destruct Hne. now apply (array_index_inj _ _ j). }
      split.
      * apply (canonical_index _ _ i); auto.
        -- constructor; [unfold above; cbn; now rewrite Hj|].
           eapply List.Forall_impl; [|exact Hab]. intros kv. unfold above.
           destruct (array_index (fst kv)); [lia | trivial].
        -- apply (canonical_index _ _ j); auto.
      * intros j' Hj' Hall. constructor; [|exact Hall].
        unfold above. cbn. now rewrite Hk.
  - rewrite Hn. split.
    + apply (canonical_index _ _ i); auto.
      * constructor; [unfold above; cbn; now rewrite Hn|].
        eapply List.Forall_impl; [|exact Hno]. intros kv [Hkv _]. unfold above.
        now rewrite Hkv.
      * now apply canonical_name.
    + intros j Hj Hall. constructor; [|exact Hall].
      unfold above. cbn. now rewrite Hk.
Qed.

Lemma canonical_append k v fields :
  array_index k = None -> has_field k fields = false ->
  canonical fields -> canonical (fields ++ [(k, v)]).
Proof.
  intros Hk Hf Hc. apply has_field_false in Hf.
  induction Hc as [|k' v' j rest Hj Hab Hc IH|k' v' rest Hn Hno Hc IH];
    cbn [List.app].
  - apply canonical_name; auto. constructor.
  - inversion Hf; subst. apply (canonical_index _ _ j); auto.
    apply Forall_app. split; [exact Hab|]. constructor; [|constructor].
    unfold above. cbn. now rewrite Hk.
  - inversion Hf as [|? ? Hne Hf']; subst. apply canonical_name; auto.
    apply Forall_app. split; [exact Hno|]. constructor; [|constructor].
    split; [exact Hk | cbn in *; congruence].
Qed.

Lemma canonical_set k v fields :
  canonical fields -> canonical (obj_set fields k v).
Proof.
  intros Hc. unfold obj_set. destruct (has_field k fields) eqn:Hf.
  - now apply canonical_replace.
  - destruct (array_index k) as [i|] eqn:Hk.
    + now apply canonical_insert_index.
    + now apply canonical_append.
Qed.

(** *** A canonical object is rebuilt by its own members *)

(** Setting the key that comes next in a canonical object appends it. *)
Lemma canonical_not_before acc k v rest :
  canonical (acc ++ (k, v) :: rest) -> has_field k acc = false.
Proof.
  intros Hc. apply has_field_false.
  induction acc as [|[k' v'] acc IH]; [constructor|].
  cbn [List.app] in Hc.
  inversion Hc as [|? ? j ? Hj Hab Hc'|? ? ? Hn Hno Hc']; subst.
  - constructor; [|now apply IH]. cbn. intros ->.
    apply Forall_app in Hab as [_ Hab]. inversion Hab as [|? ? Hk _]; subst.
    unfold above in Hk. cbn in Hk. rewrite Hj in Hk. lia.
  - constructor; [|now apply IH]. cbn. intros ->.
    apply Forall_app in Hno as [_ Hno]. inversion Hno as [|? ? [_ Hk] _]; subst.
    now apply Hk.
Qed.

Lemma insert_index_last acc i k v rest :
  array_index k = Some i ->
  canonical (acc ++ (k, v) :: rest) ->
  obj_insert_index i k v acc = acc ++ [(k, v)].
Proof.
  intros Hk. induction acc as [|[k' v'] acc IH]; intros Hc; [reflexivity|].
  cbn [List.app] in Hc. cbn [obj_insert_index List.app].
  inversion Hc as [|? ? j ? Hj Hab Hc'|? ? ? Hn Hno Hc']; subst.
  - rewrite Hj. apply Forall_app in Hab as [_ Hab].
    inversion Hab as [|? ? Hlt _]; subst. unfold above in Hlt. cbn in Hlt.
    rewrite Hk in Hlt. apply N.ltb_lt in Hlt. rewrite Hlt. f_equal. now apply IH.
  - apply Forall_app in Hno as [_ Hno].
    inversion Hno as [|? ? [Hnone _] _]; subst. cbn in Hnone. congruence.
Qed.

Lemma canonical_rebuild fields acc :
  canonical (acc ++ fields) -> fold_left add_member fields acc = acc ++ fields.
Proof.
  revert acc. induction fields as [|[k v] rest IH]; intros acc Hc;
    cbn [fold_left].
  - now rewrite app_nil_r.
  - assert (Hs : add_member acc (k, v) = acc ++ [(k, v)]).
    { unfold add_member, obj_set. cbn [fst snd].
      rewrite (canonical_not_before _ _ _ _ Hc).
      destruct (array_index k) as [i|] eqn:Hk; [|reflexivity].
      now apply (insert_index_last _ _ _ _ rest). }
    rewrite Hs, IH.
    + now rewrite <- app_assoc.
    + now rewrite <- app_assoc.
Qed.

Lemma canonical_members fields :
  canonical fields -> obj_of_members fields = fields.
Proof. intros H. now apply (canonical_rebuild fields []). Qed.

Lemma Forall_set (P : value -> Prop) k v fields :
  Forall (fun kv => P (snd kv)) fields -> P v ->
  Forall (fun kv => P (snd kv)) (obj_set fields k v).
Proof.
  intros Hall Hv. unfold obj_set. destruct (has_field k fields).
  - induction Hall as [|kv l Hkv _ IH]; cbn [map]; constructor; auto.
    destruct (jstring_eqb k (fst kv)); auto.
  - destruct (array_index k) as [i|].
    + induction Hall as [|[k' v'] l Hkv Hl IH]; cbn [obj_insert_index].
      * now repeat constructor.
      * destruct (array_index k') as [j|];
          [destruct (j <? i)%N|]; repeat constructor; auto.
    + apply Forall_app. split; [exact Hall | now repeat constructor].
Qed.

End ObjectFacts.

Module ParserFacts.
Import JS JSON ObjectFacts.

Lemma parse_value_eq fuel s :
  parse_value (S fuel) s =
  let s := skip_ws s in
  match strip_prefix (str "null") s with
  | Some r => Some (VNull, r)
  | None =>
  match strip_prefix (str "true") s with
  | Some r => Some (VBool true, r)
  | None =>
  match strip_prefix (str "false") s with
  | Some r => Some (VBool false, r)
  | None =>
  match starts_with dquote s with
  | Some r =>
      match parse_string r with
      | Some (t, r') => Some (VStr t, r')
      | None => None
      end
  | None =>
  match starts_with (u "[") s with
  | Some r =>
      match starts_with (u "]") (skip_ws r) with
      | Some r' => Some (VArr [], r')
      | None => parse_elements fuel r []
      end
  | None =>
  match starts_with (u "{") s with
  | Some r =>
      match starts_with (u "}") (skip_ws r) with
      | Some r' => Some (VObj [], r')
      | None => parse_members fuel r []
      end
  | None =>
      match parse_number s with
      | Some (n, r) => Some (VNum n, r)
      | None => None
      end
  end end end end end end.
Proof. reflexivity. Qed.

Ltac split_matches :=
  repeat match goal with
  | |- context [match ?x with _ => _ end] => destruct x eqn:?
  end.

Lemma decoded_object fields :
  canonical fields -> Forall (fun kv => decoded (snd kv)) fields ->
  decoded (VObj fields).
Proof. intros Hc Hall. constructor; [now apply canonical_members | exact Hall]. Qed.

(** Whatever the parser returns is a decoded value. *)
Lemma parse_decoded fuel :
  (forall s v r, parse_value fuel s = Some (v, r) -> decoded v)
  /\ (forall s acc v r,
        parse_elements fuel s acc = Some (v, r) ->
        Forall decoded acc -> decoded v)
  /\ (forall s acc v r,
        parse_members fuel s acc = Some (v, r) ->
        canonical acc -> Forall (fun kv => decoded (snd kv)) acc ->
        decoded v).
Proof.
  induction fuel as [|fuel (IHv & IHe & IHm)].
  - repeat split; discriminate.
  - repeat split.
    + intros s v r. rewrite parse_value_eq. cbv zeta. split_matches;
        intros [= <- <-] || discriminate || idtac; try (now constructor).
      * intros H. eapply IHe; [exact H | constructor].
      * intros H. eapply IHm; [exact H | constructor | constructor].
    + intros s acc v r. rewrite JSONFacts.parse_elements_eq. split_matches;
        try discriminate.
      * intros H Hacc. eapply IHe; [exact H|]. constructor; [|exact Hacc].
        eapply IHv; eassumption.
      * intros [= <- <-] Hacc. constructor. cbn [List.rev].
        apply Forall_app. split; [now apply Forall_rev|].
        constructor; [|constructor]. eapply IHv; eassumption.
    + intros s acc v r. rewrite JSONFacts.parse_members_eq. cbv zeta.
      split_matches; try discriminate.
      * intros H Hc Hacc. eapply IHm; [exact H | now apply canonical_set |].
        apply Forall_set; [exact Hacc|]. eapply IHv; eassumption.
      * intros [= <- <-] Hc Hacc. apply decoded_object.
        -- now apply canonical_set.
        -- apply Forall_set; [exact Hacc|]. eapply IHv; eassumption.
Qed.

Section Parsing.
Context {JSE : Engine}.

Theorem parse_text_decoded s v : parse_text s = Ok v -> decoded v.
Proof.
  unfold parse_text.
  destruct (parse_value _ _) as [[w r]|] eqn:E; [|discriminate].
  destruct (is_nil _); [|discriminate]. intros [= <-].
  eapply (proj1 (parse_decoded _)); exact E.
Qed.

Theorem parse_decoded_value v w : parse v = Ok w -> decoded w.
Proof.
  unfold parse. destruct (to_string v); [|discriminate]. apply parse_text_decoded.
Qed.

End Parsing.

End ParserFacts.

(** ** The submission handler *)

Module HomeFacts.
Import JS Handler Home.

Section Engine.
Context {JSE : Engine}.

(** The [try] block, path by path. *)
Lemma try_no_payload settled e p :
  payload settled = Throw e -> handleSubmit_try settled p = (p, Throw e).
Proof.
  unfold payload, handleSubmit_try, bind, lift, when, throw, ret.
  destruct settled as [[[] [rd|e']]|e']; cbn; try congruence.
  destruct (unwrap rd); congruence.
Qed.

Lemma try_payload settled data p :
  payload settled = Ok data ->
  handleSubmit_try settled p =
  match get data "clips", get data "video_id" with
  | Ok c, Ok v =>
      match array_map sanitize c with
      | Ok d => (with_debug d (published data c v p), Ok tt)
      | Throw e => (published data c v p, Throw e)
      end
  | Throw e, _ | _, Throw e => (logged data p, Throw e)
  end.
Proof.
  unfold payload, handleSubmit_try, bind, lift, when, throw, ret.
  destruct settled as [[[] [rd|e']]|e']; cbn; try congruence.
  destruct (unwrap rd) as [data'|]; [|congruence]. intros [= ->].
  destruct data; cbn; try reflexivity;
    destruct (array_map sanitize _); reflexivity.
Qed.

Lemma get_message_nonempty v k e :
  get v k = Throw e -> exists kind m, e = Thrown kind m /\ m <> "".
Proof.
  destruct v; cbn; intros [= <-]; eexists _, _; (split; [reflexivity|]);
    discriminate.
Qed.

Lemma array_map_message_nonempty f c e :
  array_map f c = Throw e -> exists kind m, e = Thrown kind m /\ m <> "".
Proof.
  destruct c; cbn; intros [= <-]; eexists _, _; (split; [reflexivity|]);
    discriminate.
Qed.

(** [handleSubmit_settle] lets nothing escape and always clears
    [isLoading]. *)
Lemma settle_total settled p :
  snd (handleSubmit_settle settled p) = Ok tt
  /\ isLoading (fst (handleSubmit_settle settled p)) = false.
Proof.
  unfold handleSubmit_settle, try_catch_finally.
  destruct (handleSubmit_try settled p) as [p1 [[]|e]]; cbn; auto.
Qed.

Lemma settle_ok settled p p1 :
  handleSubmit_try settled p = (p1, Ok tt) ->
  handleSubmit_settle settled p =
  ({| isLoading := false; clips := clips p1; error := error p1;
      videoId := videoId p1; debugData := debugData p1;
      console := console p1 |}, Ok tt).
Proof.
  unfold handleSubmit_settle, try_catch_finally. now intros ->.
Qed.

Lemma settle_throw settled p p1 e :
  handleSubmit_try settled p = (p1, Throw e) ->
  handleSubmit_settle settled p =
  ({| isLoading := false; clips := clips p1;
      error := match e with
               | Thrown _ message => message
               | ThrownOther _ => "An error occurred"
               end;
      videoId := videoId p1; debugData := debugData p1;
      console := console p1 |}, Ok tt).
Proof.
  unfold handleSubmit_settle, try_catch_finally. now intros ->.
Qed.

Lemma start_eq url p :
  handleSubmit_start url p = (started p, Ok (handleSubmit_request url)).
Proof. reflexivity. Qed.

Lemma handleSubmit_eq url settled p :
  handleSubmit url settled p = handleSubmit_settle settled (started p).
Proof. reflexivity. Qed.

(** The messages of the errors the built-ins raise are not empty. *)
Lemma to_string_message v e :
  to_string v = Throw e -> e = Thrown TypeError msg_to_primitive.
Proof.
  induction v as [| |[]| | |items IH|fields _] using JS.value_ind;
    cbn [to_string]; try discriminate.
  - generalize (@nil jstring).
    induction IH as [|x l Hx _ IHl]; intros acc; [discriminate|].
    destruct x; try apply IHl;
      (destruct (to_string _) eqn:E; [apply IHl | intros [= <-]; now apply Hx]).
  - destruct (has_field "toString" fields); [now intros [= <-] | discriminate].
Qed.

Lemma parse_text_message t e :
  JSON.parse_text t = Throw e -> Props.has_message e.
Proof.
  unfold JSON.parse_text. destruct (JSON.parse_value _ _) as [[w r]|].
  - destruct (JSON.is_nil _); [discriminate|]. intros [= <-].
    apply syntax_error_message_nonempty.
  - intros [= <-]. apply syntax_error_message_nonempty.
Qed.

Lemma parse_message v e : JSON.parse v = Throw e -> Props.has_message e.
Proof.
  unfold JSON.parse. destruct (to_string v) eqn:E.
  - apply parse_text_message.
  - intros [= <-]. now rewrite (to_string_message _ _ E).
Qed.

Lemma unwrap_message responseData e :
  unwrap responseData = Throw e -> Props.has_message e.
Proof.
  unfold unwrap. destruct (get responseData "body") as [b|e'] eqn:E.
  - destruct (truthy b); [apply parse_message | discriminate].
  - intros [= <-]. destruct (get_message_nonempty _ _ _ E) as (k & m & -> & Hm).
    exact Hm.
Qed.

Lemma payload_message settled e :
  Props.reports settled -> payload settled = Throw e -> Props.has_message e.
Proof.
  unfold Props.reports, payload.
  destruct settled as [[[] [rd|e']]|e']; cbn; intros Hr.
  - apply unwrap_message.
  - now intros [= <-].
  - now intros [= <-].
  - now intros [= <-].
  - now intros [= <-].
Qed.

Lemma has_message_shown e :
  Props.has_message e ->
  match e with
  | Thrown _ message => message
  | ThrownOther _ => "An error occurred"
  end <> "".
Proof. destruct e; cbn; [trivial | discriminate]. Qed.

(** Where the [try] block can stop, and the page it leaves there. *)
Lemma try_throws settled p e :
  snd (handleSubmit_try settled p) = Throw e ->
  (payload settled = Throw e /\ fst (handleSubmit_try settled p) = p)
  \/ (exists data,
        payload settled = Ok data
        /\ fst (handleSubmit_try settled p) = logged data p
        /\ (get data "clips" = Throw e \/ get data "video_id" = Throw e))
  \/ (exists data c v,
        payload settled = Ok data
        /\ get data "clips" = Ok c /\ get data "video_id" = Ok v
        /\ array_map sanitize c = Throw e
        /\ fst (handleSubmit_try settled p) = published data c v p).
Proof.
  destruct (payload settled) as [data|e'] eqn:Hp.
  - rewrite (try_payload _ _ _ Hp).
    destruct (get data "clips") as [c|e1] eqn:Hc.
    + destruct (get data "video_id") as [v|e2] eqn:Hv.
      * destruct (array_map sanitize c) as [d|e3] eqn:Hm; [discriminate|].
        cbn. intros [= <-]. right. right. exists data, c, v. auto.
      * cbn. intros [= <-]. right. left. exists data. auto.
    + cbn. intros [= <-]. right. left. exists data. auto.
  - rewrite (try_no_payload _ _ _ Hp). cbn. intros [= <-]. now left.
Qed.

Lemma try_throws_debug settled p e :
  snd (handleSubmit_try settled p) = Throw e ->
  debugData (fst (handleSubmit_try settled p)) = debugData p.
Proof.
  intros H. destruct (try_throws _ _ _ H) as
    [[_ ->] | [(data & _ & -> & _) | (data & c & v & _ & _ & _ & _ & ->)]];
    reflexivity.
Qed.

Lemma settle_fst settled p :
  fst (handleSubmit_settle settled p) =
  let p1 := fst (handleSubmit_try settled p) in
  {| isLoading := false; clips := clips p1;
     error := match snd (handleSubmit_try settled p) with
              | Ok _ => error p1
              | Throw (Thrown _ message) => message
              | Throw (ThrownOther _) => "An error occurred"
              end;
     videoId := videoId p1; debugData := debugData p1;
     console := console p1 |}.
Proof.
  unfold handleSubmit_settle, try_catch_finally.
  destruct (handleSubmit_try settled p) as [p1 [[]|[k m|w]]]; reflexivity.
Qed.

(** Only the payload matters to [handleSubmit], not its wrapping. *)
Lemma handleSubmit_unwrap url http_ok rd1 rd2 p :
  unwrap rd1 = unwrap rd2 ->
  handleSubmit url (Ok {| ok := http_ok; json := Ok rd1 |}) p
  = handleSubmit url (Ok {| ok := http_ok; json := Ok rd2 |}) p.
Proof.
  intros H. rewrite !handleSubmit_eq.
  unfold handleSubmit_settle, handleSubmit_try, try_catch_finally, bind, lift.
  cbn [ok json]. now rewrite H.
Qed.

End Engine.

End HomeFacts.

Module Submission.
Import JS Handler Home HomeFacts Props.

Section Engine.
Context {JSE : Engine}.

(** What a successful run leaves on the page. *)
Lemma handleSubmit_success url responseData data cs v p :
  unwrap responseData = Ok data ->
  get data "clips" = Ok (VArr cs) ->
  get data "video_id" = Ok v ->
  handleSubmit url (success responseData) p =
  ({| isLoading := false; clips := VArr cs; error := "";
      videoId := or_else v (VStr "");
      debugData := VArr (map sanitize cs);
      console := ((console p ++ [("API Response:", data)])
                    ++ [("Clips:", VArr cs)]) ++ [("Video ID:", v)] |}, Ok tt).
Proof.
  intros Hu Hc Hv. rewrite handleSubmit_eq.
  rewrite (settle_ok _ _ (with_debug (VArr (map sanitize cs))
                            (published data (VArr cs) v (started p)))).
  - reflexivity.
  - rewrite (try_payload _ data) by exact Hu. rewrite Hc, Hv. reflexivity.
Qed.

Lemma clips_array_video_id data cs :
  get data "clips" = Ok (VArr cs) -> exists v, get data "video_id" = Ok v.
Proof. destruct data; cbn; try discriminate; eauto. Qed.

(** The raw payload, [s3_url] included, goes to the browser console. *)
Lemma console_receives_raw_clips url responseData data cs p :
  unwrap responseData = Ok data ->
  get data "clips" = Ok (VArr cs) ->
  In ("Clips:", VArr cs)
     (console (fst (handleSubmit url (success responseData) p))).
Proof.
  intros Hu Hc. destruct (clips_array_video_id _ _ Hc) as [v Hv].
  rewrite (handleSubmit_success _ _ _ _ _ _ Hu Hc Hv). cbn [fst console].
  rewrite !in_app_iff. cbn. tauto.
Qed.

(** C1 (as amended).  The page performs no per-item validation: whenever
    the payload, enveloped or not, carries an array of raw clips, the clip
    list is that array, item for item and in order, so a raw clip without a
    numeric [start_time] is kept next to the well-formed ones; and the
    submission succeeds. *)
Theorem submit_keeps_every_clip url responseData data cs clip p :
  unwrap responseData = Ok data ->
  get data "clips" = Ok (VArr cs) ->
  In clip cs ->
  has_number "start_time" clip = false ->
  let '(p', escaped) := handleSubmit url (success responseData) p in
  escaped = Ok tt
  /\ clips p' = VArr cs
  /\ (exists kept, clips p' = VArr kept /\ In clip kept)
  /\ error p' = ""
  /\ status p' = Succeeded.
Proof.
  intros Hu Hc Hin _. destruct (clips_array_video_id _ _ Hc) as [v Hv].
  rewrite (handleSubmit_success _ _ _ _ _ _ Hu Hc Hv). cbn.
  repeat split; eauto.
Qed.

(** The same for every payload object without [clips]. *)
Lemma absent_clips_always_fail url responseData fields p :
  unwrap responseData = Ok (VObj fields) ->
  lookup_field "clips" fields = VUndef ->
  let p' := fst (handleSubmit url (success responseData) p) in
  clips p' = VArr []
  /\ videoId p' = or_else (lookup_field "video_id" fields) (VStr "")
  /\ error p' = msg_read_of "undefined" "map"
  /\ status p' = Failed.
Proof.
  intros Hu Hc. rewrite handleSubmit_eq.
  rewrite (settle_throw _ _
             (published (VObj fields) VUndef (lookup_field "video_id" fields)
                (started p))
             (Thrown TypeError (msg_read_of "undefined" "map"))).
  - cbn. repeat split.
  - rewrite (try_payload _ (VObj fields)) by exact Hu. cbn [get].
    rewrite Hc. reflexivity.
Qed.

(** *** The envelope *)

Lemma unwrap_direct fields :
  truthy (lookup_field "body" fields) = false ->
  unwrap (VObj fields) = Ok (VObj fields).
Proof. unfold unwrap. cbn [get]. now intros ->. Qed.

(** A response with a non-empty text in [body] is an envelope around what
    the text decodes to. *)
Lemma unwrap_body text :
  text <> [] ->
  unwrap (VObj [("body", VStr text)]) = JSON.parse_text text.
Proof.
  intros Ht. unfold unwrap. cbn [get].
  change (lookup_field "body" [(str "body", VStr text)]) with (VStr text).
  destruct text; [congruence | reflexivity].
Qed.

Lemma unwrap_envelope v text :
  JSON.written_whole v -> JSON.stringify v = Some text ->
  unwrap (VObj [("body", VStr text)]) = Ok v.
Proof.
  intros Hd Hs. unfold unwrap. cbn [get].
  change (lookup_field "body" [(str "body", VStr text)]) with (VStr text).
  rewrite (JSONFacts.stringify_truthy _ _ Hs).
  now apply JSONFacts.parse_stringify.
Qed.

(** C3 (as amended).  A payload [{video_id, clips}] that [JSON.stringify]
    writes in full (its numbers are finite and none is [-0]) and the
    envelope [{body: JSON.stringify({video_id, clips})}] around it leave
    the same page, in particular the same session id and the same clip
    list, and the same outcome. *)
Theorem envelope_is_transparent url http_ok video_id clip_list p :
  JSON.written_whole video_id -> JSON.written_whole clip_list ->
  exists text,
    JSON.stringify (VObj [("video_id", video_id); ("clips", clip_list)])
    = Some text
    /\ handleSubmit url
         (Ok {| ok := http_ok; json := Ok (VObj [("body", VStr text)]) |}) p
       = handleSubmit url
         (Ok {| ok := http_ok;
                json := Ok (VObj [("video_id", video_id);
                                  ("clips", clip_list)]) |}) p.
Proof.
  intros Hv Hc.
  assert (Hd : JSON.written_whole
                 (VObj [("video_id", video_id); ("clips", clip_list)])).
  { constructor; [reflexivity | repeat constructor; assumption]. }
  pose proof (JSONFacts.stringify_decoded _ (JSONFacts.written_whole_decoded _ Hd))
    as Hs.
  eexists. split; [exact Hs|].
  apply handleSubmit_unwrap.
  rewrite (unwrap_envelope _ _ Hd Hs).
  now rewrite unwrap_direct.
Qed.

(** The same for every object written in full that has no truthy [body]
    of its own. *)
Lemma envelope_object_is_transparent url http_ok fields text p :
  JSON.written_whole (VObj fields) ->
  truthy (lookup_field "body" fields) = false ->
  JSON.stringify (VObj fields) = Some text ->
  handleSubmit url
    (Ok {| ok := http_ok; json := Ok (VObj [("body", VStr text)]) |}) p
  = handleSubmit url (Ok {| ok := http_ok; json := Ok (VObj fields) |}) p.
Proof.
  intros Hd Hb Hs. apply handleSubmit_unwrap.
  now rewrite (unwrap_envelope _ _ Hd Hs), unwrap_direct.
Qed.

(** And so for every payload object the service can send as a JSON text,
    when the numbers it decodes to are finite and none is [-0]. *)
Lemma decoded_payload_is_transparent url http_ok received fields p :
  JSON.parse_text received = Ok (VObj fields) ->
  JSON.all_plain (VObj fields) = true ->
  truthy (lookup_field "body" fields) = false ->
  exists text,
    JSON.stringify (VObj fields) = Some text
    /\ handleSubmit url
         (Ok {| ok := http_ok; json := Ok (VObj [("body", VStr text)]) |}) p
       = handleSubmit url
           (Ok {| ok := http_ok; json := JSON.parse_text received |}) p.
Proof.
  intros Hr Hp Hb. rewrite Hr.
  assert (Hd : JSON.decoded (VObj fields))
    by now apply (ParserFacts.parse_text_decoded received).
  pose proof (JSONFacts.decoded_all_plain _ Hd Hp) as Hw.
  exists (JSON.text (VObj fields)).
  pose proof (JSONFacts.stringify_decoded _ Hd) as Hs.
  split; [exact Hs|]. now apply envelope_object_is_transparent.
Qed.

(** *** Failures *)

(** C4 (as amended).  Whatever is thrown while the request is in flight or
    the response is processed, nothing escapes [handleSubmit]; the session
    ends [Failed] with a non-empty message (the environment's errors
    carrying one); and the clip list is empty unless the payload had a
    truthy [clips]. *)
Theorem failures_are_captured url settled p e :
  reports settled ->
  snd (handleSubmit_try settled (started p)) = Throw e ->
  let '(p', escaped) := handleSubmit url settled p in
  escaped = Ok tt
  /\ status p' = Failed
  /\ error p' <> ""
  /\ isLoading p' = false
  /\ ((forall data c,
         payload settled = Ok data -> get data "clips" = Ok c ->
         truthy c = false) ->
      clips p' = VArr []).
Proof.
  intros Hr Ht. rewrite handleSubmit_eq.
  destruct (handleSubmit_settle settled (started p)) as [p' escaped] eqn:Hs.
  pose proof (settle_total settled (started p)) as [Hesc Hload].
  pose proof (settle_fst settled (started p)) as Hfst.
  rewrite Hs in Hesc, Hload, Hfst. cbn [fst snd] in *. rewrite Ht in Hfst.
  assert (Hmsg : has_message e).
  { destruct (try_throws _ _ _ Ht) as
      [[Hp _] | [(data & _ & _ & [Hg|Hg]) | (data & c & v & _ & _ & _ & Hm & _)]].
    - now apply (payload_message settled).
    - destruct (get_message_nonempty _ _ _ Hg) as (k & m & -> & Hne). exact Hne.
    - destruct (get_message_nonempty _ _ _ Hg) as (k & m & -> & Hne). exact Hne.
    - destruct (array_map_message_nonempty _ _ _ Hm) as (k & m & -> & Hne).
      exact Hne. }
  assert (Herr : error p' <> "").
  { rewrite Hfst. cbn. destruct e; [exact Hmsg | discriminate]. }
  repeat split; auto.
  - unfold status. rewrite Hload.
    destruct (String.eqb_spec (error p') ""); [contradiction | reflexivity].
  - intros Hfalsy. rewrite Hfst. cbn [clips].
    destruct (try_throws _ _ _ Ht) as
      [[_ ->] | [(data & _ & -> & _) | (data & c & v & Hp & Hc & _ & _ & ->)]];
      try reflexivity.
    cbn [clips published]. unfold or_else. now rewrite (Hfalsy _ _ Hp Hc).
Qed.

(** *** The debug section and the console *)

Lemma lookup_insert_index i k v fields :
  has_field k fields = false ->
  lookup_field k (obj_insert_index i k v fields) = v.
Proof.
  induction fields as [|[k' v'] rest IH]; cbn [obj_insert_index lookup_field].
  - now rewrite ObjectFacts.jstring_eqb_refl.
  - unfold has_field. cbn [existsb fst]. intros [Hk Hrest]%orb_false_iff.
    destruct (array_index k') as [j|].
    + destruct (j <? i)%N; cbn [lookup_field].
      * rewrite Hk. now apply IH.
      * now rewrite ObjectFacts.jstring_eqb_refl.
    + cbn [lookup_field]. now rewrite ObjectFacts.jstring_eqb_refl.
Qed.

Lemma lookup_obj_set k v fields : lookup_field k (obj_set fields k v) = v.
Proof.
  unfold obj_set. destruct (has_field k fields) eqn:Hk.
  - induction fields as [|[k' v'] rest IH]; [discriminate|].
    unfold has_field in Hk. cbn [existsb fst] in Hk. cbn [map fst].
    destruct (jstring_eqb k k') eqn:E; cbn [lookup_field]; rewrite E.
    + reflexivity.
    + now apply IH.
  - destruct (array_index k).
    + now apply lookup_insert_index.
    + induction fields as [|[k' v'] rest IH]; cbn [List.app lookup_field].
      * now rewrite ObjectFacts.jstring_eqb_refl.
      * unfold has_field in Hk. cbn [existsb fst] in Hk.
        apply orb_false_iff in Hk as [-> Hrest]. now apply IH.
Qed.

Lemma lookup_delete k fields : lookup_field k (obj_delete k fields) = VUndef.
Proof.
  unfold obj_delete. induction fields as [|[k' v'] rest IH]; [reflexivity|].
  cbn [List.filter fst]. destruct (jstring_eqb k k') eqn:E; cbn [negb].
  - exact IH.
  - cbn [lookup_field]. now rewrite E.
Qed.

Lemma lookup_delete_other k k' fields :
  k <> k' -> lookup_field k (obj_delete k' fields) = lookup_field k fields.
Proof.
  intros Hne. unfold obj_delete.
  induction fields as [|[k1 v1] rest IH]; [reflexivity|].
  cbn [List.filter fst lookup_field].
  destruct (jstring_eqb k' k1) eqn:E; cbn [negb].
  - apply ObjectFacts.jstring_eqb_eq in E. subst k1.
    apply ObjectFacts.jstring_eqb_neq in Hne. now rewrite Hne.
  - cbn [lookup_field]. now rewrite IH.
Qed.

(** What [JSON.stringify] writes for a sanitised clip object is what it
    writes for the clip without its [s3_url]. *)
Lemma serialize_sanitize gap indent clip :
  is_object clip = true ->
  JSON.serialize gap indent (sanitize clip)
  = JSON.serialize gap indent (without "s3_url" clip).
Proof.
  destruct clip; try discriminate. intros _.
  apply JSONFacts.serialize_set_undefined.
Qed.

(** C7 (the code at the failing input).  After a successful submission the
    debug data is the clip list with every clip's [s3_url] set to
    [undefined], and the debug section shows the text of the clips with
    their [s3_url] removed and their other properties as they were; but
    the debug logging before it has handed the payload and its clips to the
    console as they came, [s3_url] included. *)
Theorem debug_log_receives_s3_url url responseData data cs p :
  unwrap responseData = Ok data ->
  get data "clips" = Ok (VArr cs) ->
  Forall (fun c => is_object c = true) cs ->
  let p' := fst (handleSubmit url (success responseData) p) in
  debugData p' = VArr (map sanitize cs)
  /\ Forall (fun d => get d "s3_url" = Ok VUndef) (map sanitize cs)
  /\ debug_section p'
     = JSON.stringify_gap 2 (VArr (map (without "s3_url") cs))
  /\ Forall (fun c =>
       get (without "s3_url" c) "s3_url" = Ok VUndef
       /\ forall k, k <> "s3_url" -> get (without "s3_url" c) k = get c k) cs
  /\ (exists v,
        get data "video_id" = Ok v
        /\ console p'
           = console p ++ [("API Response:", data); ("Clips:", VArr cs);
                           ("Video ID:", v)])
  /\ forall c, In c cs ->
       exists logged, In ("Clips:", VArr logged) (console p') /\ In c logged.
Proof.
  intros Hu Hc Hobj. destruct (clips_array_video_id _ _ Hc) as [v Hv].
  rewrite (handleSubmit_success _ _ _ _ _ _ Hu Hc Hv). cbn [fst].
  split; [reflexivity|]. split; [|split; [|split; [|split]]].
  - apply Forall_map, Forall_forall. intros c _. cbn [sanitize get].
    now rewrite lookup_obj_set.
  - unfold debug_section. cbn [debugData truthy].
    unfold JSON.stringify_gap. cbn [JSON.serialize]. rewrite !map_map.
    f_equal. f_equal. apply map_ext_in. intros c Hin. cbn beta.
    rewrite List.Forall_forall in Hobj.
    now rewrite (serialize_sanitize _ _ c (Hobj c Hin)).
  - eapply List.Forall_impl; [|exact Hobj]. intros c Ho.
    destruct c; try discriminate. cbn [without get]. split.
    + now rewrite lookup_delete.
    + intros k Hk. f_equal. apply lookup_delete_other.
      intros E. now apply Hk, ObjectFacts.str_inj.
  - exists v. split; [exact Hv|]. cbn [console].
    now rewrite <- !app_assoc.
  - intros c Hin. exists cs. split; [|exact Hin]. cbn [console].
    rewrite !in_app_iff. cbn. tauto.
Qed.

(** C10.  A new submission resets the clips, the error and the session id
    but not the debug data: what an earlier success published stays in the
    debug section while the new request is pending, and after it has
    failed. *)
Theorem resubmission_keeps_debug_data url settled p :
  truthy (debugData p) = true ->
  let p1 := fst (handleSubmit_start url p) in
  let p2 := fst (handleSubmit url settled p) in
  clips p1 = VArr [] /\ error p1 = "" /\ videoId p1 = VStr ""
  /\ status p1 = Pending
  /\ debugData p1 = debugData p
  /\ (exists shown, debug_section p = Some shown /\ debug_section p1 = Some shown)
  /\ (forall e,
        snd (handleSubmit_try settled p1) = Throw e ->
        debugData p2 = debugData p /\ debug_section p2 = debug_section p).
Proof.
  intros Ht. cbn zeta. rewrite start_eq, handleSubmit_eq. cbn [fst].
  repeat split.
  - unfold debug_section. cbn [debugData started]. rewrite Ht.
    unfold JSON.stringify_gap.
    destruct (debugData p); try discriminate; cbn [JSON.serialize]; eauto.
    destruct b; eauto.
  - rewrite settle_fst. cbn [debugData].
    now rewrite (try_throws_debug _ _ _ H).
  - pose proof (try_throws_debug _ _ _ H) as Hd. cbn [debugData started] in Hd.
    unfold debug_section. rewrite settle_fst. cbn [debugData].
    now rewrite Hd.
Qed.

End Engine.

(** *** The scenarios of the specification, and the claims at the samples *)

Example scenario_no_clips_found :
  status (Sample.after_text Sample.empty_text) = Succeeded
  /\ clips (Sample.after_text Sample.empty_text) = VArr []
  /\ videoId (Sample.after_text Sample.empty_text) = VStr "v1".
Proof. vm_compute. repeat split. Qed.

Example scenario_enveloped :
  status (Sample.after_text Sample.enveloped_text) = Succeeded
  /\ clips (Sample.after_text Sample.enveloped_text)
     = VArr [VObj [("clip_id", VStr "c1"); ("start_time", VNum (of_Z 0));
                   ("end_time", VNum (of_Z 5))]]
  /\ videoId (Sample.after_text Sample.enveloped_text) = VStr "v1".
Proof. vm_compute. repeat split. Qed.

(** The text of the sample batch decodes to it, fractions and exponents
    included, on its own and inside an envelope. *)
Example scenario_batch :
  JSON.parse_text (H := Sample.engine) Sample.batch_text = Ok Sample.batch
  /\ Sample.after_text Sample.batch_text = Sample.after Sample.batch
  /\ Sample.after Sample.enveloped_batch = Sample.after Sample.batch.
Proof. vm_compute. repeat split. Qed.

Example scenario_network_error :
  let p := fst (handleSubmit (H := Sample.engine) Sample.url
                  (Throw (Thrown TypeError "Failed to fetch")) initial) in
  status p = Failed /\ error p = "Failed to fetch" /\ clips p = VArr [].
Proof. vm_compute. repeat split. Qed.

Example scenario_status_not_ok :
  let p := fst (handleSubmit (H := Sample.engine) Sample.url
                  (Ok (response_of_text (H := Sample.engine) false
                         Sample.empty_text)) initial) in
  status p = Failed /\ error p = "Failed to process video"
  /\ clips p = VArr [].
Proof. vm_compute. repeat split. Qed.

Lemma submit_keeps_every_clip_witness :
  let '(p', escaped) :=
    handleSubmit (H := Sample.engine) Sample.url (success Sample.batch)
      initial in
  escaped = Ok tt
  /\ clips p' = VArr [Sample.clip_c1; Sample.clip_c2]
  /\ (exists kept, clips p' = VArr kept /\ In Sample.clip_c2 kept)
  /\ error p' = ""
  /\ status p' = Succeeded.
Proof.
  apply (submit_keeps_every_clip (JSE := Sample.engine) Sample.url
           Sample.batch Sample.batch
           [Sample.clip_c1; Sample.clip_c2] Sample.clip_c2 initial);
    [reflexivity | reflexivity | cbn; tauto | reflexivity].
Defined.

(** C1 (as stated) fails: the service sends a batch with the well-formed
    clip [c1] and the clip [c2], which has every field but [start_time];
    [c2] is not excluded: it is in the clip list, the session has
    succeeded, and the results section shows two cards, the second with
    [NaN:NaN] for the start of its time range. *)
Lemma clip_without_start_time_is_listed :
  well_formed Sample.clip_c1 = true
  /\ has_number "start_time" Sample.clip_c2 = false
  /\ JSON.parse_text (H := Sample.engine) Sample.batch_text = Ok Sample.batch
  /\ clips (Sample.after Sample.batch) = VArr [Sample.clip_c1; Sample.clip_c2]
  /\ status (Sample.after Sample.batch) = Succeeded
  /\ exists section cards,
       results_shown (Sample.after Sample.batch) = Ok (Some (section, cards))
       /\ map ClipCard.time_range cards
          = [(str "0:00", str "0:12"); (str "NaN:NaN", str "1:35")].
Proof.
  vm_compute. repeat split. eexists _, _. split; reflexivity.
Qed.

(** C2 (the code at the failing input).  With [clips] absent the clip list
    is empty and the session id is read, but sanitising [data.clips] for the
    debug section throws, and the session ends [Failed]. *)
Theorem missing_clips_fail :
  clips (Sample.after Sample.no_clips) = VArr []
  /\ videoId (Sample.after Sample.no_clips) = VStr "v1"
  /\ error (Sample.after Sample.no_clips)
     = "Cannot read properties of undefined (reading 'map')"
  /\ debugData (Sample.after Sample.no_clips) = VNull
  /\ status (Sample.after Sample.no_clips) = Failed.
Proof. vm_compute. repeat split. Qed.

Lemma envelope_is_transparent_witness :
  exists text,
    JSON.stringify (VObj [("video_id", VStr "v1");
                          ("clips", VArr [Sample.clip_c1; Sample.clip_c2])])
    = Some text
    /\ handleSubmit (H := Sample.engine) Sample.url
         (Ok {| ok := true; json := Ok (VObj [("body", VStr text)]) |}) initial
       = handleSubmit (H := Sample.engine) Sample.url
         (Ok {| ok := true; json := Ok Sample.batch |}) initial.
Proof.
  apply (envelope_is_transparent (JSE := Sample.engine) Sample.url true
           (VStr "v1") (VArr [Sample.clip_c1; Sample.clip_c2]) initial).
  - constructor.
  - repeat (constructor; try reflexivity).
Defined.

(** C3 (as stated) fails: the service may send a number beyond the range
    of the doubles, which decodes to [Infinity]; [JSON.stringify] writes
    [null] for it, so the payload and the envelope around its text leave
    different clip lists. *)
Lemma infinite_number_is_not_transparent :
  JSON.parse_text (H := Sample.engine) Sample.overflowing_text
  = Ok Sample.overflowing
  /\ JSON.stringify Sample.overflowing = Some Sample.overflowing_written
  /\ clips (Sample.after Sample.overflowing)
     = VArr [VObj [("clip_id", VStr "c1");
                   ("duration", VNum (S754_infinity false))]]
  /\ clips (Sample.after (VObj [("body", VStr Sample.overflowing_written)]))
     = VArr [VObj [("clip_id", VStr "c1"); ("duration", VNull)]]
  /\ videoId (Sample.after Sample.overflowing)
     = videoId (Sample.after (VObj [("body", VStr Sample.overflowing_written)]))
  /\ clips (Sample.after Sample.overflowing)
     <> clips (Sample.after (VObj [("body", VStr Sample.overflowing_written)])).
Proof. vm_compute. repeat split. discriminate. Qed.

Lemma failures_are_captured_witness :
  let '(p', escaped) :=
    handleSubmit (H := Sample.engine) Sample.url
      (Throw (Thrown TypeError "Failed to fetch")) initial in
  escaped = Ok tt
  /\ status p' = Failed
  /\ error p' <> ""
  /\ isLoading p' = false
  /\ ((forall data c,
         payload (H := Sample.engine)
           (Throw (Thrown TypeError "Failed to fetch")) = Ok data ->
         get data "clips" = Ok c -> truthy c = false) ->
      clips p' = VArr []).
Proof.
  apply (failures_are_captured (JSE := Sample.engine) Sample.url
           (Throw (Thrown TypeError "Failed to fetch")) initial
           (Thrown TypeError "Failed to fetch")).
  - cbn. discriminate.
  - reflexivity.
Defined.

(** C4 (as stated) fails: a payload whose [clips] is the string ["none"]
    makes the response processing throw, and the clip state is left holding
    that string, not the empty list. *)
Lemma failed_session_keeps_published_clips :
  snd (handleSubmit_try (H := Sample.engine)
         (success Sample.clips_not_array) (started initial))
  = Throw (Thrown TypeError "data.clips.map is not a function")
  /\ status (Sample.after Sample.clips_not_array) = Failed
  /\ clips (Sample.after Sample.clips_not_array) = VStr "none"
  /\ clips (Sample.after Sample.clips_not_array) <> VArr [].
Proof. vm_compute. repeat split. discriminate. Qed.

Lemma debug_log_receives_s3_url_witness :
  let p' := Sample.after Sample.batch in
  debugData p' = VArr (map sanitize [Sample.clip_c1; Sample.clip_c2])
  /\ debug_section p'
     = JSON.stringify_gap 2
         (VArr (map (without "s3_url") [Sample.clip_c1; Sample.clip_c2]))
  /\ In ("Clips:", VArr [Sample.clip_c1; Sample.clip_c2]) (console p')
  /\ get Sample.clip_c1 "s3_url" = Ok (VStr "https://bucket/c1.mp4?sig=k1").
Proof.
  destruct (debug_log_receives_s3_url (JSE := Sample.engine) Sample.url
              Sample.batch Sample.batch [Sample.clip_c1; Sample.clip_c2]
              initial eq_refl eq_refl)
    as (Hd & _ & Hs & _ & (v & _ & Hc) & _).
  - repeat constructor.
  - split; [exact Hd | split; [exact Hs | split; [|reflexivity]]].
    unfold Sample.after. rewrite Hc. cbn. tauto.
Defined.

Lemma resubmission_keeps_debug_data_witness :
  let p := Sample.after Sample.batch in
  let settled : fetch_outcome := Throw (Thrown TypeError "Failed to fetch") in
  let p1 := fst (handleSubmit_start Sample.url p) in
  let p2 := fst (handleSubmit (H := Sample.engine) Sample.url settled p) in
  clips p1 = VArr [] /\ error p1 = "" /\ videoId p1 = VStr ""
  /\ status p1 = Pending
  /\ debugData p1 = debugData p
  /\ (exists shown, debug_section p = Some shown /\ debug_section p1 = Some shown)
  /\ (forall e,
        snd (handleSubmit_try (H := Sample.engine) settled p1) = Throw e ->
        debugData p2 = debugData p /\ debug_section p2 = debug_section p).
Proof.
  apply (resubmission_keeps_debug_data (JSE := Sample.engine) Sample.url
           (Throw (Thrown TypeError "Failed to fetch"))
           (Sample.after Sample.batch)).
  reflexivity.
Defined.

End Submission.

(** ** The URL pattern *)

Module RegexFacts.
Import Regex.

(** The derivative matcher agrees with [matches]. *)
Lemma nullable_matches r : nullable r = true <-> matches r [].
Proof.
  split.
  - induction r; cbn; try discriminate; intros H.
    + constructor.
    + apply andb_true_iff in H as [H1 H2].
      change (@nil ascii) with (@nil ascii ++ []). constructor; auto.
    + apply orb_true_iff in H as [H|H]; [apply m_alt_l | apply m_alt_r]; auto.
    + constructor.
    + apply m_plus_one; auto.
  - intros H. remember [] as s eqn:Es. induction H; cbn; try discriminate; auto.
    + apply app_eq_nil in Es as [-> ->]. now rewrite IHmatches1, IHmatches2.
    + now rewrite IHmatches.
    + rewrite IHmatches by assumption. apply orb_true_r.
    + apply app_eq_nil in Es as [-> ->]. auto.
Qed.

Lemma matches_plus_cons r c s :
  matches (Plus r) (c :: s) ->
  exists s1 s2, s = s1 ++ s2 /\ matches r (c :: s1)
                /\ (s2 = [] \/ matches (Plus r) s2).
Proof.
  intros H. remember (Plus r) as r' eqn:Er. remember (c :: s) as cs eqn:Es.
  revert s Es. induction H; try discriminate; injection Er as ->; intros s' Es.
  - subst. exists s', []. rewrite app_nil_r. auto.
  - destruct s1 as [|c1 s1].
    + cbn in Es. apply IHmatches2; auto.
    + cbn in Es. injection Es as -> <-. exists s1, s2. auto.
Qed.

Lemma deriv_matches c r s : matches (deriv c r) s <-> matches r (c :: s).
Proof.
  revert s. induction r; intros s; cbn [deriv].
  - split; inversion 1.
  - split; inversion 1.
  - destruct (Ascii.eqb_spec c c0) as [->|Hne]; split; inversion 1; subst.
    + constructor.
    + constructor.
    + congruence.
  - destruct (line_terminator c) eqn:E; split; inversion 1; subst.
    + congruence.
    + now constructor.
    + constructor.
  - destruct (nullable r1) eqn:En.
    + split.
      * inversion 1; subst.
        -- match goal with H : matches (Seq _ _) _ |- _ => inversion H; subst end.
           rewrite app_comm_cons. constructor; [now apply IHr1 | assumption].
        -- change (c :: s) with ([] ++ c :: s).
           constructor; [now apply nullable_matches | now apply IHr2].
      * inversion 1; subst. destruct s1 as [|c1 s1].
        -- cbn in *. subst. apply m_alt_r. now apply IHr2.
        -- cbn in *. match goal with H : _ :: _ = _ :: _ |- _ => injection H as -> <- end.
           apply m_alt_l. constructor; [now apply IHr1 | assumption].
    + split.
      * inversion 1; subst. rewrite app_comm_cons.
        constructor; [now apply IHr1 | assumption].
      * inversion 1; subst. destruct s1 as [|c1 s1].
        -- match goal with H : matches r1 [] |- _ =>
             apply nullable_matches in H; congruence end.
        -- cbn in *. match goal with H : _ :: _ = _ :: _ |- _ => injection H as -> <- end.
           constructor; [now apply IHr1 | assumption].
  - split; inversion 1; subst.
    + apply m_alt_l. now apply IHr1.
    + apply m_alt_r. now apply IHr2.
    + apply m_alt_l. now apply IHr1.
    + apply m_alt_r. now apply IHr2.
  - split.
    + intros H. apply m_opt_some. now apply IHr.
    + inversion 1; subst. now apply IHr.
  - split.
    + inversion 1; subst.
      match goal with H : matches (Opt _) _ |- _ => inversion H; subst end.
      * rewrite app_nil_r. apply m_plus_one. now apply IHr.
      * rewrite app_comm_cons. apply m_plus_more; [now apply IHr | assumption].
    + intros H. apply matches_plus_cons in H as (s1 & s2 & -> & H1 & H2).
      constructor; [now apply IHr|].
      destruct H2 as [->|H2]; [apply m_opt_none | now apply m_opt_some].
Qed.

(** [test_chars] decides whether some prefix matches. *)
Theorem test_chars_spec r s :
  test_chars r s = true <-> exists s1 s2, s = s1 ++ s2 /\ matches r s1.
Proof.
  revert r. induction s as [|c s IH]; intros r; cbn [test_chars].
  - rewrite orb_false_r, nullable_matches. split.
    + intros H. now exists [], [].
    + intros (s1 & s2 & E & H). symmetry in E.
      apply app_eq_nil in E as [-> _]. exact H.
  - rewrite orb_true_iff, IH, nullable_matches. split.
    + intros [H | (s1 & s2 & -> & H)].
      * now exists [], (c :: s).
      * exists (c :: s1), s2. split; [reflexivity | now apply deriv_matches].
    + intros (s1 & s2 & E & H). destruct s1 as [|c1 s1].
      * now left.
      * cbn in E. injection E as <- ->. right. exists s1, s2.
        split; [reflexivity | now apply deriv_matches].
Qed.

Lemma matches_lit w s : matches (lit w) s <-> s = list_ascii_of_string w.
Proof.
  revert s. induction w as [|c w IH]; intros s; cbn [lit list_ascii_of_string].
  - split; [now inversion 1 | intros ->; constructor].
  - split.
    + inversion 1; subst.
      match goal with H : matches (Chr _) _ |- _ => inversion H; subst end.
      cbn. f_equal. now apply IH.
    + intros ->. change (c :: list_ascii_of_string w)
        with ([c] ++ list_ascii_of_string w).
      constructor; [constructor | now apply IH].
Qed.

Lemma matches_plus_dot s :
  matches (Plus Dot) s <->
  exists c rest, s = c :: rest /\ Forall (fun c => line_terminator c = false) s.
Proof.
  split.
  - intros H. remember (Plus Dot) as r eqn:Er.
    induction H; try discriminate; injection Er as ->.
    + match goal with H : matches Dot _ |- _ => inversion H; subst end.
      eexists _, _. split; [reflexivity|]. now repeat constructor.
    + match goal with H : matches Dot _ |- _ => inversion H; subst end.
      destruct (IHmatches2 eq_refl) as (c' & rest & -> & Hall).
      eexists _, _. split; [reflexivity|]. now constructor.
  - intros (c & rest & -> & Hall). revert c Hall.
    induction rest as [|c' rest IH]; intros c Hall.
    + apply m_plus_one. constructor. now inversion Hall.
    + change (c :: c' :: rest) with ([c] ++ c' :: rest).
      inversion Hall; subst. apply m_plus_more; [now constructor | now apply IH].
Qed.

Lemma matches_seq_inv r1 r2 s :
  matches (Seq r1 r2) s ->
  exists s1 s2, s = s1 ++ s2 /\ matches r1 s1 /\ matches r2 s2.
Proof. inversion 1; subst; eauto. Qed.

Lemma matches_opt_inv r s : matches (Opt r) s -> s = [] \/ matches r s.
Proof. inversion 1; subst; auto. Qed.

Lemma matches_alt_inv r1 r2 s :
  matches (Alt r1 r2) s -> matches r1 s \/ matches r2 s.
Proof. inversion 1; subst; auto. Qed.

Lemma matches_chr_inv c s : matches (Chr c) s -> s = [c].
Proof. now inversion 1. Qed.

Lemma chars_append a b :
  list_ascii_of_string (a ++ b)%string
  = list_ascii_of_string a ++ list_ascii_of_string b.
Proof. induction a as [|c a IH]; simpl; [reflexivity | now rewrite IH]. Qed.

End RegexFacts.

Module UrlInputFacts.
Import Regex RegexFacts UrlInput.

(** The URLs the pattern accepts: an optional scheme, an optional [www.],
    one of the two hosts, a slash, and at least one character that is not a
    line terminator. *)
Theorem isValidYoutubeUrl_spec url :
  isValidYoutubeUrl url = true <->
  exists scheme www host c rest,
    url = (scheme ++ www ++ host ++ "/" ++ String c rest)%string
    /\ In scheme [""; "http://"; "https://"]
    /\ In www [""; "www."]
    /\ In host ["youtube.com"; "youtu.be"]
    /\ line_terminator c = false.
Proof.
  unfold isValidYoutubeUrl, test. rewrite test_chars_spec. split.
  - intros (s1 & s2 & E & H). unfold youtubeRegex in H.
    apply matches_seq_inv in H as (scheme & r1 & -> & Hscheme & H).
    apply matches_seq_inv in H as (www & r2 & -> & Hwww & H).
    apply matches_seq_inv in H as (host & r3 & -> & Hhost & H).
    apply matches_seq_inv in H as (slash & path & -> & Hslash & Hpath).
    apply matches_chr_inv in Hslash as ->.
    apply matches_plus_dot in Hpath as (c & rest & -> & Hall).
    inversion Hall as [|? ? Hc _]; subst.
    assert (Hs : exists w, In w [""; "http://"; "https://"]
                           /\ scheme = list_ascii_of_string w).
    { apply matches_opt_inv in Hscheme as [->|Hs].
      - exists "". cbn. auto.
      - apply matches_seq_inv in Hs as (a & r & -> & Ha & Hr).
        apply matches_lit in Ha as ->.
        apply matches_seq_inv in Hr as (o & t & -> & Ho & Ht).
        apply matches_lit in Ht as ->.
        apply matches_opt_inv in Ho as [->|Ho].
        + exists "http://". cbn. auto.
        + apply matches_chr_inv in Ho as ->. exists "https://". cbn. auto. }
    assert (Hw : exists w, In w [""; "www."] /\ www = list_ascii_of_string w).
    { apply matches_opt_inv in Hwww as [->|Hx].
      - exists "". cbn. auto.
      - apply matches_lit in Hx as ->. exists "www.". cbn. auto. }
    assert (Hh : exists w, In w ["youtube.com"; "youtu.be"]
                           /\ host = list_ascii_of_string w).
    { apply matches_alt_inv in Hhost as [Hx|Hx];
        apply matches_lit in Hx as ->;
        [exists "youtube.com" | exists "youtu.be"]; cbn; auto. }
    destruct Hs as (ws & Hws & ->), Hw as (ww & Hww & ->), Hh as (wh & Hwh & ->).
    exists ws, ww, wh, c, (string_of_list_ascii (rest ++ s2)).
    repeat split; auto.
    rewrite <- (string_of_list_ascii_of_string url), E.
    rewrite <- (string_of_list_ascii_of_string (ws ++ _)%string).
    f_equal. rewrite !chars_append. cbn [list_ascii_of_string].
    rewrite list_ascii_of_string_of_list_ascii.
    rewrite <- !app_assoc. cbn. reflexivity.
  - intros (scheme & www & host & c & rest & -> & Hs & Hw & Hh & Hc).
    exists (list_ascii_of_string (scheme ++ www ++ host ++ "/")%string ++ [c]),
           (list_ascii_of_string rest).
    split.
    { rewrite !chars_append. cbn [list_ascii_of_string].
      rewrite <- !app_assoc. reflexivity. }
    rewrite !chars_append, <- !app_assoc. unfold youtubeRegex.
    constructor.
    { cbn in Hs. destruct Hs as [<-|[<-|[<-|[]]]].
      - apply m_opt_none.
      - apply m_opt_some.
        change (list_ascii_of_string "http://")
          with (list_ascii_of_string "http" ++ [] ++ list_ascii_of_string "://").
        constructor; [now apply matches_lit|].
        constructor; [apply m_opt_none | now apply matches_lit].
      - apply m_opt_some.
        change (list_ascii_of_string "https://")
          with (list_ascii_of_string "http" ++ ["s"%char] ++ list_ascii_of_string "://").
        constructor; [now apply matches_lit|].
        constructor; [apply m_opt_some; constructor | now apply matches_lit]. }
    constructor.
    { cbn in Hw. destruct Hw as [<-|[<-|[]]].
      - apply m_opt_none.
      - apply m_opt_some. now apply matches_lit. }
    constructor.
    { cbn in Hh. destruct Hh as [<-|[<-|[]]].
      - apply m_alt_l. now apply matches_lit.
      - apply m_alt_r. now apply matches_lit. }
    change (list_ascii_of_string "/" ++ [c]) with (["/"%char] ++ [c]).
    constructor; [constructor|]. apply m_plus_one. now constructor.
Qed.

End UrlInputFacts.

(** ** The form and the requests in flight *)

Module Form.
Import JS Handler App Props.

Section Engine.
Context {JSE : Engine}.

Lemma on_submit_loading url sys :
  Home.isLoading (page sys) = true -> on_submit url sys = sys.
Proof.
  intros H. unfold on_submit, UrlInput.handleSubmit. rewrite H.
  now rewrite andb_false_r.
Qed.

Lemma on_submit_in_step url sys : in_step sys -> in_step (on_submit url sys).
Proof.
  intros [[Hl Ho] | [Hl Ho]].
  - rewrite on_submit_loading by exact Hl. now left.
  - unfold on_submit, UrlInput.handleSubmit. rewrite Hl, andb_true_r.
    destruct (truthy _); [|now right].
    rewrite HomeFacts.start_eq. left. cbn. now rewrite Ho.
Qed.

Lemma step_in_step sys ev : in_step sys -> in_step (step sys ev).
Proof.
  intros H. destruct ev as [url|url accepted|settled]; cbn [step].
  - now apply on_submit_in_step.
  - destruct (_ || _); [exact H|].
    now apply on_submit_in_step.
  - destruct H as [[Hl Ho] | [Hl Ho]].
    + destruct (outstanding sys) as [|r [|r' rest]]; try discriminate.
      right. cbn. split; [|reflexivity].
      apply HomeFacts.settle_total.
    + rewrite Ho. now right.
Qed.

Lemma run_in_step evs sys : in_step sys -> in_step (run evs sys).
Proof.
  revert sys. induction evs as [|ev evs IH]; intros sys H; [exact H|].
  apply IH, step_in_step, H.
Qed.

Lemma initial_in_step : in_step initial.
Proof. now right. Qed.

(** C5.  While the session is [Pending] a submit event changes nothing:
    the system, with its page and its outstanding requests, is the one it
    was, whether the event comes from the button (whatever the browser
    makes of the field) or reaches the handler directly; and however the
    events run, no more than one request is outstanding. *)
Theorem submit_while_pending_is_noop evs url :
  Home.status (page (run evs initial)) = Home.Pending ->
  step (run evs initial) (SubmitEvent url) = run evs initial
  /\ (forall accepted,
        step (run evs initial) (PressSubmit url accepted) = run evs initial)
  /\ length (outstanding (run evs initial)) = 1
  /\ forall evs', length (outstanding (run evs' initial)) <= 1.
Proof.
  intros Hp.
  assert (Hl : Home.isLoading (page (run evs initial)) = true).
  { unfold Home.status in Hp.
    destruct (Home.isLoading _); [reflexivity|].
    destruct (negb _); [discriminate|]. destruct (truthy _); discriminate. }
  repeat split.
  - now apply on_submit_loading.
  - intros accepted. cbn [step]. destruct (_ || _); [reflexivity|].
    now apply on_submit_loading.
  - destruct (run_in_step evs initial initial_in_step) as [[_ Ho] | [Hl' _]];
      [exact Ho | congruence].
  - intros evs'.
    destruct (run_in_step evs' initial initial_in_step) as [[_ Ho] | [_ Ho]];
      rewrite Ho; cbn; lia.
Qed.

(** C6.  An input that does not match the pattern disables the submit
    button, and when it is not empty the message asking for a valid URL is
    shown; so a submission of it changes nothing, neither the page nor the
    requests that are outstanding, and no request leaves, whatever the
    state of the session and whatever the browser makes of the field. *)
Theorem invalid_input_disables_submit sys url accepted :
  UrlInput.isValidYoutubeUrl url = false ->
  UrlInput.submit_disabled url (Home.isLoading (page sys)) = true
  /\ step sys (PressSubmit url accepted) = sys
  /\ page (step sys (PressSubmit url accepted)) = page sys
  /\ outstanding (step sys (PressSubmit url accepted)) = outstanding sys
  /\ (url <> "" ->
      UrlInput.validation_message url
      = Some "Please enter a valid YouTube URL").
Proof.
  intros Hv.
  assert (Hd : UrlInput.submit_disabled url (Home.isLoading (page sys)) = true).
  { unfold UrlInput.submit_disabled. rewrite Hv. cbn [negb].
    now rewrite orb_true_r. }
  assert (Hs : step sys (PressSubmit url accepted) = sys).
  { cbn [step]. now rewrite Hd. }
  rewrite Hs. repeat split; try assumption.
  intros Hne. unfold UrlInput.validation_message.
  rewrite Hv, ObjectFacts.truthy_str.
  destruct (String.eqb_spec url ""); [contradiction | reflexivity].
Qed.

End Engine.

Lemma submit_while_pending_is_noop_witness :
  let sys := run (H := Sample.engine) [SubmitEvent Sample.url] initial in
  step (H := Sample.engine) sys (SubmitEvent "https://youtu.be/x") = sys
  /\ (forall accepted,
        step (H := Sample.engine) sys (PressSubmit "https://youtu.be/x" accepted)
        = sys)
  /\ length (outstanding sys) = 1
  /\ forall evs',
       length (outstanding (run (H := Sample.engine) evs' initial)) <= 1.
Proof.
  apply (submit_while_pending_is_noop (JSE := Sample.engine)
           [SubmitEvent Sample.url] "https://youtu.be/x").
  reflexivity.
Defined.

Lemma invalid_input_disables_submit_witness :
  UrlInput.submit_disabled "not a url" (Home.isLoading (page initial)) = true
  /\ step (H := Sample.engine) initial (PressSubmit "not a url" true) = initial
  /\ page (step (H := Sample.engine) initial (PressSubmit "not a url" true))
     = page initial
  /\ outstanding (step (H := Sample.engine) initial
                    (PressSubmit "not a url" true))
     = outstanding initial
  /\ ("not a url" <> "" ->
      UrlInput.validation_message "not a url"
      = Some "Please enter a valid YouTube URL").
Proof.
  apply (invalid_input_disables_submit (JSE := Sample.engine) initial
           "not a url" true).
  reflexivity.
Defined.

End Form.

(** ** The clip cards *)

Module Interaction.
Import JS Handler ClipCard.

Lemma resets_clear_copied (l : list (Z * callback)) c :
  l <> [] ->
  copied (flags (fold_left (fun c x => fst (run_callback (snd x) c)) l c))
  = false.
Proof.
  revert c. induction l as [|[t []] l IH]; intros c Hl; [congruence|].
  cbn [fold_left]. destruct l as [|y l]; [reflexivity|].
  apply IH. discriminate.
Qed.

(** C8 (as amended).  With a clipboard to write to, [copyUrl] starts the
    write, sets [copied] and schedules the reset 2000 ms ahead, whether the
    write is fulfilled or rejected; the other flags stay as they are.  When
    the 2000 ms have passed [copied] is false again, and with no older
    timer pending it is true until then.  Without a clipboard the call
    throws and changes nothing.  On a page of cards only the card acted
    upon changes, also when two cards show clips with the same id. *)
Theorem copyUrl_sets_copied clip fulfilled c :
  let '(c', escaped) := copyUrl clip (Clipboard fulfilled) c in
  escaped = Ok tt
  /\ copied (flags c') = true
  /\ loading (flags c') = loading (flags c)
  /\ showPreview (flags c') = showPreview (flags c)
  /\ liked (flags c') = liked (flags c)
  /\ timers c' = timers c ++ [((now c + 2000)%Z, ResetCopied)]
  /\ trace c' = trace c ++ [ClipboardWrite (s3_url clip)]
  /\ copied (flags (advance 2000 c')) = false
  /\ (timers c = [] ->
      forall ms, (0 <= ms < 2000)%Z -> copied (flags (advance ms c')) = true)
  /\ copyUrl clip NoClipboard c
     = (c, Throw (Thrown TypeError (msg_read_of "undefined" "writeText")))
  /\ (forall (cards : list Card) (i j : nat),
        i <> j ->
        on_card i (copyUrl clip (Clipboard fulfilled)) cards !! j
        = cards !! j).
Proof.
  cbn. repeat split.
  - unfold advance. cbn [timers now flags trace].
    rewrite List.filter_app. cbn [List.filter fst].
    rewrite Z.leb_refl. apply resets_clear_copied.
    intros H. apply app_eq_nil in H as [_ H]. discriminate.
  - intros Ht ms Hms. unfold advance. cbn [timers now flags trace].
    rewrite Ht. cbn [List.app List.filter fst].
    destruct (Z.leb_spec (now c + 2000) (now c + ms)); [lia | reflexivity].
  - intros cards i j Hij. unfold on_card.
    destruct (cards !! i); [|reflexivity].
    now apply list_lookup_insert_ne.
Qed.

Lemma copyUrl_sets_copied_witness :
  copied (flags (fst (copyUrl Sample.card_clip (Clipboard true) (mount 0))))
  = true
  /\ (forall ms, (0 <= ms < 2000)%Z ->
      copied (flags (advance ms
        (fst (copyUrl Sample.card_clip (Clipboard true) (mount 0))))) = true)
  /\ [mount 0; mount 0] !! 1%nat
     = on_card 0 (copyUrl Sample.card_clip (Clipboard true))
         [mount 0; mount 0] !! 1%nat.
Proof.
  pose proof (copyUrl_sets_copied Sample.card_clip true (mount 0)) as H.
  cbn in H. destruct H as (_ & Hc & _ & _ & _ & _ & _ & _ & Hms & _ & Hk).
  split; [exact Hc | split].
  - intros ms Hr. exact (Hms eq_refl ms Hr).
  - symmetry. apply Hk. discriminate.
Defined.

(** C8 (as stated) fails: when the clipboard rejects the write, [copyUrl]
    has set [copied] all the same. *)
Lemma rejected_write_still_sets_copied :
  copied (flags (mount 0)) = false
  /\ copied (flags (fst (copyUrl Sample.card_clip (Clipboard false) (mount 0))))
     = true
  /\ flags (fst (copyUrl Sample.card_clip (Clipboard false) (mount 0)))
     <> flags (mount 0).
Proof. repeat split. discriminate. Qed.

(** C9.  [handleDownload] sets [loading] before the request leaves; however
    the fetch, the blob and the save turn out, settling lets nothing
    escape, clears [loading], and leaves the other flags and the pending
    timers of the card as it finds them. *)
Theorem download_always_resets_loading clip d c :
  let c1 := fst (handleDownload_start clip c) in
  loading (flags c1) = true
  /\ showPreview (flags c1) = showPreview (flags c)
  /\ copied (flags c1) = copied (flags c)
  /\ liked (flags c1) = liked (flags c)
  /\ (forall c2,
        let '(c3, escaped) := handleDownload_settle clip d c2 in
        escaped = Ok tt
        /\ loading (flags c3) = false
        /\ showPreview (flags c3) = showPreview (flags c2)
        /\ copied (flags c3) = copied (flags c2)
        /\ liked (flags c3) = liked (flags c2)
        /\ timers c3 = timers c2)
  /\ loading (flags (fst (handleDownload clip d c))) = false
  /\ snd (handleDownload clip d c) = Ok tt.
Proof.
  destruct d as [[[]|e1] [[]|e2] [[]|e3]]; cbn; repeat split.
Qed.

End Interaction.

(** ** More on the form *)

Module FieldFacts.
Import JS Handler Regex RegexFacts UrlInput UrlInputFacts.

(** *** [trim] *)

Lemma trim_start_split l :
  exists ws, l = ws ++ trim_start l /\ Forall (fun c => is_space c = true) ws.
Proof.
  induction l as [|c l (ws & E & H)]; cbn [trim_start].
  - now exists [].
  - destruct (is_space c) eqn:Ec.
    + exists (c :: ws). split; [cbn; now f_equal | now constructor].
    + now exists [].
Qed.

Lemma trim_start_fixed l :
  match l with [] => True | c :: _ => is_space c = false end ->
  trim_start l = l.
Proof. destruct l as [|c l]; cbn; [reflexivity | now intros ->]. Qed.

Lemma trim_start_head l :
  match trim_start l with [] => True | c :: _ => is_space c = false end.
Proof.
  induction l as [|c l IH]; cbn [trim_start]; [exact I|].
  destruct (is_space c) eqn:E; [exact IH | exact E].
Qed.

Lemma trim_start_nil l :
  trim_start l = [] <-> Forall (fun c => is_space c = true) l.
Proof.
  induction l as [|c l IH]; cbn [trim_start].
  - split; [constructor | reflexivity].
  - destruct (is_space c) eqn:E.
    + rewrite IH. split; [now constructor | now inversion 1].
    + split; [discriminate | inversion 1; congruence].
Qed.

Lemma trim_eq s :
  trim s = string_of_list_ascii (trim_chars (list_ascii_of_string s)).
Proof. reflexivity. Qed.

(** Neither end of a trimmed text is white space. *)
Lemma trim_chars_ends l :
  trim_start (trim_chars l) = trim_chars l
  /\ trim_start (List.rev (trim_chars l)) = List.rev (trim_chars l).
Proof.
  unfold trim_chars. rewrite rev_involutive.
  set (a := trim_start l).
  destruct (trim_start_split (List.rev a)) as (ws & E & Hws).
  set (b := trim_start (List.rev a)) in *.
  split.
  - apply trim_start_fixed.
    assert (Ea : a = List.rev b ++ List.rev ws).
    { rewrite <- rev_app_distr, <- E. now rewrite rev_involutive. }
    pose proof (trim_start_head l) as Ha. fold a in Ha. rewrite Ea in Ha.
    destruct (List.rev b); [exact I | exact Ha].
  - apply trim_start_fixed, trim_start_head.
Qed.

Lemma trim_chars_idempotent l : trim_chars (trim_chars l) = trim_chars l.
Proof.
  destruct (trim_chars_ends l) as [H1 H2].
  unfold trim_chars at 1. rewrite H1, H2. apply rev_involutive.
Qed.

Lemma trim_idempotent s : trim (trim s) = trim s.
Proof.
  rewrite !trim_eq, list_ascii_of_string_of_list_ascii.
  now rewrite trim_chars_idempotent.
Qed.

Lemma trim_chars_nil l :
  trim_chars l = [] <-> Forall (fun c => is_space c = true) l.
Proof.
  unfold trim_chars. split.
  - intros H. apply (f_equal (@List.rev ascii)) in H.
    rewrite rev_involutive in H. cbn in H. apply trim_start_nil in H.
    apply Forall_rev in H. rewrite rev_involutive in H.
    destruct (trim_start_split l) as (ws & E & Hws). rewrite E.
    apply Forall_app. split; [exact Hws|]. exact H.
  - intros H. apply trim_start_nil in H. rewrite H. reflexivity.
Qed.

Lemma string_of_chars_empty l : string_of_list_ascii l = "" <-> l = [].
Proof. destruct l; cbn; split; congruence. Qed.

Lemma trim_empty s : trim s = "" <-> blank s.
Proof. rewrite trim_eq, string_of_chars_empty. apply trim_chars_nil. Qed.

Lemma truthy_trim s : truthy (VStr (trim s)) = false <-> blank s.
Proof.
  rewrite ObjectFacts.truthy_str, negb_false_iff, String.eqb_eq.
  apply trim_empty.
Qed.

(** *** [handleSubmit] *)

Lemma handleSubmit_some url isLoading u :
  handleSubmit url isLoading = Some u ->
  u = trim url /\ ~ blank url /\ isLoading = false.
Proof.
  unfold handleSubmit. destruct (truthy (VStr (trim url))) eqn:Ht; [|discriminate].
  destruct isLoading; [discriminate|]. cbn. intros [= <-].
  repeat split; auto.
  intros Hb. apply truthy_trim in Hb. congruence.
Qed.

(** X4.  What [handleSubmit] hands to [onSubmit] is the trimmed field, which
    is then not empty and has no white space left at either end; and it
    hands something over only while no request is pending. *)
Theorem handleSubmit_forwards url isLoading u :
  handleSubmit url isLoading = Some u ->
  u = trim url /\ u <> "" /\ trim u = u /\ ~ blank url /\ isLoading = false.
Proof.
  intros H. apply handleSubmit_some in H as (-> & Hb & ->).
  repeat split; auto.
  - intros E. apply Hb, trim_empty, E.
  - apply trim_idempotent.
Qed.

Lemma handleSubmit_forwards_witness :
  "https://youtu.be/x" = trim "  https://youtu.be/x "
  /\ "https://youtu.be/x" <> ""
  /\ trim "https://youtu.be/x" = "https://youtu.be/x"
  /\ ~ blank "  https://youtu.be/x "
  /\ false = false.
Proof.
  apply (handleSubmit_forwards "  https://youtu.be/x " false "https://youtu.be/x").
  reflexivity.
Defined.

(** X5.  A field that holds nothing but white space is never submitted,
    loading or not. *)
Theorem blank_input_is_never_submitted url isLoading :
  blank url -> handleSubmit url isLoading = None.
Proof.
  intros Hb. unfold handleSubmit. apply truthy_trim in Hb. now rewrite Hb.
Qed.

Lemma blank_input_is_never_submitted_witness : handleSubmit "   " false = None.
Proof.
  apply (blank_input_is_never_submitted "   " false).
  repeat constructor.
Defined.

(** *** The pattern *)

Lemma valid_head url :
  isValidYoutubeUrl url = true ->
  exists c rest, url = String c rest
                 /\ (c = "h" \/ c = "w" \/ c = "y")%char.
Proof.
  intros H. apply isValidYoutubeUrl_spec in H
    as (scheme & www & host & c & rest & -> & Hs & Hw & Hh & _).
  cbn in Hs, Hw, Hh.
  destruct Hs as [<-|[<-|[<-|[]]]]; destruct Hw as [<-|[<-|[]]];
    destruct Hh as [<-|[<-|[]]]; cbn; eexists _, _; split; eauto.
Qed.

(** X3.  The pattern is tested on the field as typed, not on what
    [handleSubmit] would forward: a text that starts with white space does
    not match, whatever follows, so the button is disabled and the message
    shown. *)
Theorem leading_space_is_invalid c rest isLoading :
  is_space c = true ->
  isValidYoutubeUrl (String c rest) = false
  /\ submit_disabled (String c rest) isLoading = true
  /\ validation_message (String c rest)
     = Some "Please enter a valid YouTube URL".
Proof.
  intros Hc.
  assert (Hv : isValidYoutubeUrl (String c rest) = false).
  { destruct (isValidYoutubeUrl (String c rest)) eqn:E; [|reflexivity].
    apply valid_head in E as (c' & rest' & E & Hc').
    injection E as <- <-. destruct Hc' as [-> | [-> | ->]]; discriminate. }
  repeat split; [exact Hv | |].
  - unfold submit_disabled. rewrite Hv. cbn [negb]. now rewrite orb_true_r.
  - unfold validation_message. now rewrite Hv.
Qed.

Lemma leading_space_is_invalid_witness :
  isValidYoutubeUrl (String " " Sample.url) = false
  /\ submit_disabled (String " " Sample.url) false = true
  /\ validation_message (String " " Sample.url)
     = Some "Please enter a valid YouTube URL".
Proof. apply (leading_space_is_invalid " " Sample.url false). reflexivity. Defined.

(** X2.  The pattern is not anchored at its end: a valid text stays valid
    whatever is appended to it. *)
Theorem valid_prefix_suffices url more :
  isValidYoutubeUrl url = true ->
  isValidYoutubeUrl (url ++ more)%string = true.
Proof.
  unfold isValidYoutubeUrl, test. rewrite !test_chars_spec.
  intros (s1 & s2 & E & H).
  exists s1, (s2 ++ list_ascii_of_string more). split; [|exact H].
  now rewrite chars_append, E, <- app_assoc.
Qed.

Lemma valid_prefix_suffices_witness :
  isValidYoutubeUrl (Sample.url ++ " and more")%string = true.
Proof. apply (valid_prefix_suffices Sample.url " and more"). reflexivity. Defined.

Lemma valid_not_blank url : isValidYoutubeUrl url = true -> ~ blank url.
Proof.
  intros H Hb. apply valid_head in H as (c & rest & -> & Hc).
  unfold blank in Hb. cbn in Hb. inversion Hb as [|? ? Hs _]; subst.
  destruct Hc as [-> | [-> | ->]]; discriminate.
Qed.

(** X1.  The submit button is enabled exactly when no request is pending
    and the field, as typed, is an optional scheme, an optional [www.], one
    of the two hosts, a slash, and at least one character that is not a
    line terminator; whatever follows that character is accepted.  The test
    on the trimmed field adds nothing to the pattern. *)
Theorem submit_enabled_iff url isLoading :
  submit_disabled url isLoading = false <->
  isLoading = false
  /\ exists scheme www host c rest,
       url = (scheme ++ www ++ host ++ "/" ++ String c rest)%string
       /\ In scheme [""; "http://"; "https://"]
       /\ In www [""; "www."]
       /\ In host ["youtube.com"; "youtu.be"]
       /\ Regex.line_terminator c = false.
Proof.
  unfold submit_disabled.
  rewrite !orb_false_iff, !negb_false_iff, isValidYoutubeUrl_spec.
  split.
  - intros [[_ H] L]. auto.
  - intros [L H]. split; [split|]; auto.
    destruct (truthy (VStr (trim url))) eqn:Ht; [reflexivity|].
    apply truthy_trim in Ht.
    apply isValidYoutubeUrl_spec in H. now apply valid_not_blank in H.
Qed.

(** *** [handlePaste] *)

(** X6.  [handlePaste] lets nothing escape.  When the clipboard gives a
    text, the field holds exactly that text, untrimmed; when reading is
    rejected, or there is no clipboard to read, the field stays as it is
    and the failure goes to the console. *)
Theorem handlePaste_captures_failures cb f :
  let '(f', escaped) := handlePaste cb f in
  escaped = Ok tt
  /\ copied f' = copied f
  /\ match cb with
     | ReadText (Ok text) => url f' = text /\ errors f' = errors f
     | ReadText (Throw e) =>
         url f' = url f
         /\ errors f' = errors f ++ [("Failed to read clipboard:", e)]
     | NoClipboard =>
         url f' = url f
         /\ exists e,
              errors f' = errors f ++ [("Failed to read clipboard:", e)]
     end.
Proof. destruct cb as [|[text|e]]; cbn; eauto. Qed.

End FieldFacts.

(** ** The session as a whole *)

Module SessionFacts.
Import JS Handler Home HomeFacts Props.

Section Engine.
Context {JSE : Engine}.

Lemma try_throws_message settled p e :
  reports settled ->
  snd (handleSubmit_try settled p) = Throw e -> has_message e.
Proof.
  intros Hr Ht.
  destruct (try_throws _ _ _ Ht) as
    [[Hp _] | [(data & _ & _ & [Hg|Hg]) | (data & c & v & _ & _ & _ & Hm & _)]].
  - now apply (payload_message settled).
  - destruct (get_message_nonempty _ _ _ Hg) as (k & m & -> & Hne). exact Hne.
  - destruct (get_message_nonempty _ _ _ Hg) as (k & m & -> & Hne). exact Hne.
  - destruct (array_map_message_nonempty _ _ _ Hm) as (k & m & -> & Hne).
    exact Hne.
Qed.

(** When the [try] block runs to its end. *)
Lemma try_completes settled p :
  snd (handleSubmit_try settled p) = Ok tt <->
  exists data cs, payload settled = Ok data /\ get data "clips" = Ok (VArr cs).
Proof.
  split.
  - destruct (payload settled) as [data|e] eqn:Hp.
    + rewrite (try_payload _ _ _ Hp).
      destruct (get data "clips") as [c|e1] eqn:Hc; [|discriminate].
      destruct (get data "video_id") as [v|e2]; [|discriminate].
      destruct c; cbn; try discriminate. eauto.
    + rewrite (try_no_payload _ _ _ Hp). discriminate.
  - intros (data & cs & Hp & Hc). rewrite (try_payload _ _ _ Hp), Hc.
    destruct data; cbn in Hc |- *; try discriminate. reflexivity.
Qed.

Lemma try_debug_array settled p :
  snd (handleSubmit_try settled p) = Ok tt ->
  truthy (debugData (fst (handleSubmit_try settled p))) = true
  /\ error (fst (handleSubmit_try settled p)) = error p.
Proof.
  intros H. pose proof H as H'. apply try_completes in H' as (data & cs & Hp & Hc).
  rewrite (try_payload _ _ _ Hp), Hc in *.
  destruct data; cbn in Hc |- *; try discriminate. auto.
Qed.

Lemma settle_status settled p :
  reports settled -> error p = "" ->
  (snd (handleSubmit_try settled p) = Ok tt
   /\ status (fst (handleSubmit_settle settled p)) = Succeeded)
  \/ ((exists e, snd (handleSubmit_try settled p) = Throw e)
      /\ status (fst (handleSubmit_settle settled p)) = Failed).
Proof.
  intros Hr He. rewrite settle_fst. cbv zeta. unfold status. cbn [isLoading error debugData].
  destruct (snd (handleSubmit_try settled p)) as [[]|e] eqn:Ht.
  - left. split; [reflexivity|].
    destruct (try_debug_array _ _ Ht) as [Hd Herr]. rewrite Herr, He, Hd.
    reflexivity.
  - right. split; [eauto|].
    pose proof (has_message_shown _ (try_throws_message _ _ _ Hr Ht)) as Hm.
    destruct e as [k m|w]; cbn in *.
    + destruct (String.eqb_spec m ""); [contradiction | reflexivity].
    + reflexivity.
Qed.

(** X11.  A run of [handleSubmit] ends [Succeeded] or [Failed], never
    [Idle] or [Pending] (the environment's errors carrying a message); and
    it ends [Succeeded] exactly when the response has a success status,
    decodes, unwraps, and its payload has an array for [clips]. *)
Theorem submission_succeeds_iff url settled p :
  reports settled ->
  let p' := fst (handleSubmit url settled p) in
  (status p' = Succeeded \/ status p' = Failed)
  /\ (status p' = Succeeded <->
      exists data cs,
        payload settled = Ok data /\ get data "clips" = Ok (VArr cs)).
Proof.
  intros Hr. cbv zeta. rewrite handleSubmit_eq.
  rewrite <- try_completes with (p := started p).
  destruct (settle_status settled (started p) Hr eq_refl) as [[Ht Hs]|[[e Ht] Hs]];
    rewrite Hs, Ht.
  - split; [now left | tauto].
  - split; [now right|]. split; discriminate.
Qed.

End Engine.

Lemma submission_succeeds_iff_witness :
  let p' := Sample.after Sample.batch in
  (status p' = Succeeded \/ status p' = Failed)
  /\ (status p' = Succeeded <->
      exists data cs,
        payload (H := Sample.engine) (success Sample.batch) = Ok data
        /\ get data "clips" = Ok (VArr cs)).
Proof.
  apply (submission_succeeds_iff (JSE := Sample.engine) Sample.url
           (success Sample.batch) initial).
  exact I.
Defined.

End SessionFacts.

Module AppFacts.
Import JS Handler App Props.

Section Engine.
Context {JSE : Engine}.

Lemma on_submit_cases url sys :
  (on_submit url sys = sys
   /\ UrlInput.handleSubmit url (Home.isLoading (page sys)) = None)
  \/ (Home.isLoading (page sys) = false
      /\ UrlInput.handleSubmit url false = Some (UrlInput.trim url)
      /\ on_submit url sys =
         {| page := Home.started (page sys);
            outstanding :=
              outstanding sys ++ [Home.handleSubmit_request (UrlInput.trim url)] |}).
Proof.
  unfold on_submit.
  destruct (UrlInput.handleSubmit url (Home.isLoading (page sys))) as [u|] eqn:E.
  - right. destruct (FieldFacts.handleSubmit_some _ _ _ E) as (-> & _ & Hl).
    rewrite Hl in E. now rewrite HomeFacts.start_eq.
  - now left.
Qed.

Lemma step_cases sys ev :
  step sys ev = sys
  \/ (exists url,
        Home.isLoading (page sys) = false
        /\ UrlInput.handleSubmit url false = Some (UrlInput.trim url)
        /\ step sys ev =
           {| page := Home.started (page sys);
              outstanding :=
                outstanding sys
                  ++ [Home.handleSubmit_request (UrlInput.trim url)] |})
  \/ (exists settled r rest,
        ev = Settle settled /\ outstanding sys = r :: rest
        /\ step sys ev =
           {| page := fst (Home.handleSubmit_settle settled (page sys));
              outstanding := rest |}).
Proof.
  destruct ev as [url|url accepted|settled]; cbn [step].
  - destruct (on_submit_cases url sys) as [[-> _]|(Hl & Hh & ->)];
      [now left | right; left; now exists url].
  - destruct (_ || _); [now left|].
    destruct (on_submit_cases url sys) as [[-> _]|(Hl & Hh & ->)];
      [now left | right; left; now exists url].
  - destruct (outstanding sys) as [|r rest] eqn:E; [now left|].
    right. right. now exists settled, r, rest.
Qed.

Lemma step_cleared sys ev : cleared sys -> cleared (step sys ev).
Proof.
  intros H.
  destruct (step_cases sys ev) as
    [-> | [(url & _ & _ & ->) | (settled & r & rest & _ & _ & ->)]].
  - exact H.
  - intros _. cbn. auto.
  - unfold cleared. cbn [page].
    rewrite (proj2 (HomeFacts.settle_total settled (page sys))). discriminate.
Qed.

Lemma step_well_formed sys ev :
  Forall well_formed_request (outstanding sys) ->
  Forall well_formed_request (outstanding (step sys ev)).
Proof.
  intros H.
  destruct (step_cases sys ev) as
    [-> | [(url & _ & Hh & ->) | (settled & r & rest & _ & E & ->)]].
  - exact H.
  - cbn [outstanding]. apply Forall_app. split; [exact H|].
    constructor; [|constructor]. exists (UrlInput.trim url).
    destruct (FieldFacts.handleSubmit_some _ _ _ Hh) as (_ & Hb & _).
    split; [reflexivity|]. split; [|apply FieldFacts.trim_idempotent].
    intros E. apply Hb, FieldFacts.trim_empty, E.
  - cbn [outstanding]. rewrite E in H. now inversion H.
Qed.

Lemma run_snoc evs ev sys : run (evs ++ [ev]) sys = step (run evs sys) ev.
Proof. unfold run. now rewrite fold_left_app. Qed.

Lemma reachable_ind (P : System -> Prop) :
  P initial -> (forall sys ev, P sys -> P (step sys ev)) ->
  forall evs, P (run evs initial).
Proof.
  intros H0 Hstep evs. induction evs as [|ev evs IH] using rev_ind.
  - exact H0.
  - rewrite run_snoc. now apply Hstep.
Qed.

(** X9.  However the events ran, while a request is pending the page shows
    no clips, no error and no session id of an earlier submission. *)
Theorem pending_page_is_cleared evs :
  Home.status (page (run evs initial)) = Home.Pending ->
  Home.clips (page (run evs initial)) = VArr []
  /\ Home.error (page (run evs initial)) = ""
  /\ Home.videoId (page (run evs initial)) = VStr "".
Proof.
  intros Hp. apply (reachable_ind cleared).
  - intros H. discriminate.
  - intros sys ev. apply step_cleared.
  - unfold Home.status in Hp. destruct (Home.isLoading _); [reflexivity|].
    destruct (negb _); [discriminate|]. destruct (truthy _); discriminate.
Qed.

(** X8.  Every request that leaves is a POST to the clip endpoint whose
    body is the JSON text of [{youtube_url: u}], read back as such by
    [JSON.parse], for a [u] that is not empty and has no white space at
    either end. *)
Theorem requests_carry_trimmed_input evs r :
  In r (outstanding (run evs initial)) ->
  exists u text,
    u <> "" /\ UrlInput.trim u = u
    /\ Home.endpoint r = "http://127.0.0.1:5000/clip"
    /\ Home.method r = "POST"
    /\ Home.body r = Some text
    /\ JSON.parse (VStr text) = Ok (VObj [("youtube_url", VStr u)]).
Proof.
  intros Hin.
  assert (H : Forall well_formed_request (outstanding (run evs initial))).
  { apply (reachable_ind (fun sys => Forall well_formed_request (outstanding sys))).
    - constructor.
    - intros sys ev. apply step_well_formed. }
  rewrite Forall_forall in H. apply list_elem_of_In in Hin.
  destruct (H r Hin) as (u & -> & Hne & Ht).
  assert (Hd : JSON.written_whole (VObj [("youtube_url", VStr u)])).
  { constructor; [reflexivity | repeat constructor]. }
  pose proof (JSONFacts.stringify_decoded _
                (JSONFacts.written_whole_decoded _ Hd)) as Hs.
  exists u, (JSON.text (VObj [("youtube_url", VStr u)])).
  split; [exact Hne|]. split; [exact Ht|]. split; [reflexivity|].
  split; [reflexivity|]. split.
  - exact Hs.
  - now apply JSONFacts.parse_stringify.
Qed.

(** X7.  With no request pending, a submission of an input that matches
    the pattern, which the browser takes for a URL, resets the page, turns
    it [Pending] and sends one request, for the trimmed input; an input
    the browser does not take for a URL, as one without a scheme, sends
    nothing. *)
Theorem valid_input_is_submitted sys url :
  UrlInput.isValidYoutubeUrl url = true ->
  Home.isLoading (page sys) = false ->
  step sys (PressSubmit url true) =
    {| page := Home.started (page sys);
       outstanding :=
         outstanding sys ++ [Home.handleSubmit_request (UrlInput.trim url)] |}
  /\ Home.status (page (step sys (PressSubmit url true))) = Home.Pending
  /\ step sys (PressSubmit url false) = sys.
Proof.
  intros Hv Hl.
  assert (Hb : truthy (VStr (UrlInput.trim url)) = true).
  { destruct (truthy (VStr (UrlInput.trim url))) eqn:E; [reflexivity|].
    apply FieldFacts.truthy_trim in E.
    now destruct (FieldFacts.valid_not_blank url Hv). }
  assert (E : step sys (PressSubmit url true) =
    {| page := Home.started (page sys);
       outstanding :=
         outstanding sys ++ [Home.handleSubmit_request (UrlInput.trim url)] |}).
  { cbn [step]. unfold UrlInput.submit_disabled. rewrite Hb, Hv, Hl. cbn [negb orb].
    unfold on_submit, UrlInput.handleSubmit. rewrite Hb, Hl. cbn [negb andb].
    now rewrite HomeFacts.start_eq. }
  split; [exact E | split; [now rewrite E|]].
  cbn [step negb]. now rewrite orb_true_r.
Qed.

(** X10.  The life cycle of the session.  Whatever has happened, an event
    either leaves the status as it is, or takes a session that is not
    [Pending] to [Pending], or takes a [Pending] one to [Succeeded] or
    [Failed] (the environment's errors carrying a message); nothing leads
    back to [Idle]. *)
Theorem life_cycle evs ev :
  event_reports ev ->
  life_cycle_move (Home.status (page (run evs initial)))
                  (Home.status (page (step (run evs initial) ev))).
Proof.
  intros Hr. set (sys := run evs initial).
  assert (Hstep : in_step sys) by apply Form.run_in_step, Form.initial_in_step.
  assert (Hclr : cleared sys).
  { apply (reachable_ind cleared); [discriminate | intros s e; apply step_cleared]. }
  destruct (step_cases sys ev) as
    [-> | [(url & Hl & _ & ->) | (settled & r & rest & -> & E & ->)]].
  - now left.
  - right. left. split; [|reflexivity].
    unfold Home.status. rewrite Hl.
    destruct (negb (String.eqb (Home.error (page sys)) "")); [discriminate|].
    destruct (truthy (Home.debugData (page sys))); discriminate.
  - right. right.
    destruct Hstep as [[Hl _]|[_ Ho]]; [|congruence].
    split; [unfold Home.status; now rewrite Hl|]. cbn [page].
    destruct (Hclr Hl) as (_ & He & _).
    destruct (SessionFacts.settle_status settled (page sys) Hr He)
      as [[_ ->]|[_ ->]]; auto.
Qed.

End Engine.

Lemma pending_page_is_cleared_witness :
  let sys := run (H := Sample.engine) [SubmitEvent Sample.url] initial in
  Home.clips (page sys) = VArr []
  /\ Home.error (page sys) = ""
  /\ Home.videoId (page sys) = VStr "".
Proof.
  apply (pending_page_is_cleared (JSE := Sample.engine)
           [SubmitEvent Sample.url]).
  reflexivity.
Defined.

Lemma requests_carry_trimmed_input_witness :
  exists u text,
    u <> "" /\ UrlInput.trim u = u
    /\ Home.endpoint (Home.handleSubmit_request Sample.url)
       = "http://127.0.0.1:5000/clip"
    /\ Home.method (Home.handleSubmit_request Sample.url) = "POST"
    /\ Home.body (Home.handleSubmit_request Sample.url) = Some text
    /\ JSON.parse (H := Sample.engine) (VStr text)
       = Ok (VObj [("youtube_url", VStr u)]).
Proof.
  apply (requests_carry_trimmed_input (JSE := Sample.engine)
           [SubmitEvent Sample.url] (Home.handleSubmit_request Sample.url)).
  left. reflexivity.
Defined.

Lemma valid_input_is_submitted_witness :
  step (H := Sample.engine) initial (PressSubmit Sample.url true) =
    {| page := Home.started (page initial);
       outstanding :=
         outstanding initial
           ++ [Home.handleSubmit_request (UrlInput.trim Sample.url)] |}
  /\ Home.status
       (page (step (H := Sample.engine) initial (PressSubmit Sample.url true)))
     = Home.Pending
  /\ step (H := Sample.engine) initial (PressSubmit Sample.url false)
     = initial.
Proof.
  apply (valid_input_is_submitted (JSE := Sample.engine) initial Sample.url);
    reflexivity.
Defined.

Lemma life_cycle_witness :
  let sys := run (H := Sample.engine) [SubmitEvent Sample.url] initial in
  life_cycle_move
    (Home.status (page sys))
    (Home.status
       (page (step (H := Sample.engine) sys
                (Settle (Home.success Sample.batch))))).
Proof.
  apply (life_cycle (JSE := Sample.engine) [SubmitEvent Sample.url]
           (Settle (Home.success Sample.batch))).
  exact I.
Defined.

End AppFacts.

(** ** More on the payload and on what the page renders *)

Module PayloadFacts.
Import JS Handler Home HomeFacts Props.

Lemma card_elements_ok cs :
  Forall has_properties cs -> card_elements cs = Ok (map card_of cs).
Proof.
  induction 1 as [|c cs [Hn Hu] _ IH]; [reflexivity|].
  cbn [card_elements map]. rewrite IH. unfold card_of.
  destruct c; try reflexivity; congruence.
Qed.

Lemma card_elements_throw cs c :
  In c cs -> c = VNull \/ c = VUndef -> exists e, card_elements cs = Throw e.
Proof.
  intros Hin Hc. induction cs as [|x cs IH]; [destruct Hin|].
  cbn [card_elements]. destruct (get x "clip_id") as [k|e] eqn:E; [|eauto].
  destruct Hin as [->|Hin].
  - destruct Hc as [-> | ->]; discriminate.
  - destruct (IH Hin) as [e ->]. eauto.
Qed.

(** Reading a property through [?.] never throws. *)
Lemma get_optional_total v k : exists r, get_optional v k = Ok r.
Proof. destruct v; cbn; eauto. Qed.

(** [clips?.length > 0] on a list of clips. *)
Lemma clips_length_positive cs :
  get_length_optional (VArr cs) = Ok (VNum (of_nat (length cs)))
  /\ gt_zero (VNum (of_nat (length cs))) = Ok (negb (JSON.is_nil cs)).
Proof.
  split; [reflexivity|]. unfold gt_zero. cbn [to_number].
  rewrite NumberFacts.of_nat_positive. now destruct cs.
Qed.

(** The section of a page whose clips are a list. *)
Lemma results_section_list p cs :
  clips p = VArr cs ->
  results_section p =
  match cs with
  | [] => Ok None
  | _ :: _ =>
      match get_optional (debugData p) "from_cache", card_elements cs with
      | Ok mark, Ok els =>
          Ok (Some {| shown_heading := heading (VNum (of_nat (length cs)));
                      from_cache := mark; cards := els |})
      | Ok _, Throw e => Throw e
      | Throw e, _ => Throw e
      end
  end.
Proof.
  intros Hc. unfold results_section. rewrite Hc.
  destruct (clips_length_positive cs) as [-> ->].
  destruct cs; [reflexivity|]. cbn [JSON.is_nil negb].
  destruct (get_optional _ _); [|reflexivity].
  destruct (card_elements _); reflexivity.
Qed.

Lemma well_formed_object c :
  well_formed c = true -> exists fields, c = VObj fields.
Proof.
  unfold well_formed, has_string. intros H.
  repeat (apply andb_true_iff in H as [H _]).
  destruct c; try discriminate. eauto.
Qed.

Lemma well_formed_properties c : well_formed c = true -> has_properties c.
Proof.
  intros H. destruct (well_formed_object c H) as [fields ->].
  split; discriminate.
Qed.

(** A card renders the clip it is given when the clip is well formed. *)
Lemma render_well_formed c f :
  well_formed c = true -> exists view, ClipCard.render c f = Ok view.
Proof.
  intros H. destruct (well_formed_object c H) as [fields ->].
  unfold well_formed, has_string, has_number in H. cbn [get] in H.
  repeat match type of H with
  | (_ && _) = true => apply andb_true_iff in H as [H ?]
  end.
  unfold ClipCard.render. cbn [get].
  destruct (lookup_field "start_time" fields); try discriminate.
  destruct (lookup_field "end_time" fields); try discriminate.
  destruct (lookup_field "interest_reasons" fields) as [| | | | |items|];
    try discriminate.
  unfold ClipCard.formatTime, ClipCard.shown_reasons.
  cbn [to_number get_length gt_zero].
  destruct (ClipCard.showPreview f), (ltb zero (of_nat (length items))); eauto.
Qed.

Lemma render_cards_well_formed cs :
  Forall (fun c => well_formed c = true) cs ->
  exists views,
    render_cards (map card_of cs) = Ok views
    /\ Forall2 (fun c view => ClipCard.render c ClipCard.unset = Ok view)
         cs views.
Proof.
  induction 1 as [|c cs Hc _ (views & E & IH)].
  - exists []. split; [reflexivity | constructor].
  - destruct (render_well_formed c ClipCard.unset Hc) as [view Hv].
    exists (view :: views). cbn [map render_cards card_of clip].
    rewrite Hv, E. split; [reflexivity | now constructor].
Qed.

Section Engine.
Context {JSE : Engine}.

(** X12.  Only one envelope is opened: a payload wrapped twice, as
    [{body: JSON.stringify({body: JSON.stringify(v)})}], is taken for a
    payload without [clips], and the session ends [Failed] with an empty
    clip list. *)
Theorem double_envelope_fails url v text1 text2 p :
  JSON.stringify v = Some text1 ->
  JSON.stringify (VObj [("body", VStr text1)]) = Some text2 ->
  let p' := fst (handleSubmit url (success (VObj [("body", VStr text2)])) p) in
  status p' = Failed
  /\ clips p' = VArr []
  /\ error p' = msg_read_of "undefined" "map".
Proof.
  intros _ H2.
  assert (Hd : JSON.written_whole (VObj [("body", VStr text1)])).
  { constructor; [reflexivity | repeat constructor]. }
  pose proof (Submission.unwrap_envelope _ _ Hd H2) as Hu.
  destruct (Submission.absent_clips_always_fail url _ _ p Hu eq_refl)
    as (Hc & _ & He & Hs).
  auto.
Qed.

(** The text [ToString] gives an object is no JSON text. *)
Lemma parse_object_text :
  JSON.parse_text (str "[object Object]")
  = Throw (Thrown SyntaxError (syntax_error_message (str "[object Object]"))).
Proof.
  unfold JSON.parse_text.
  replace (JSON.parse_value (S (length (str "[object Object]")))
             (str "[object Object]")) with (@None (value * jstring))
    by (vm_compute; reflexivity).
  reflexivity.
Qed.

(** X13.  A response whose [body] is the payload object itself, not its
    JSON text, always fails: [JSON.parse] is applied to the object, that
    is to the text [[object Object]], and the session ends [Failed] with
    no clips and no session id, whatever the object holds.  The message is
    the one the engine has for that text, or that of the [TypeError] when
    the object cannot be converted. *)
Theorem object_body_fails url fields inner p :
  lookup_field "body" fields = VObj inner ->
  let p' := fst (handleSubmit url (success (VObj fields)) p) in
  status p' = Failed
  /\ clips p' = VArr []
  /\ videoId p' = VStr ""
  /\ (error p' = syntax_error_message (str "[object Object]")
      \/ error p' = msg_to_primitive).
Proof.
  intros Hb. cbv zeta. rewrite handleSubmit_eq.
  assert (Hp : exists e,
    payload (success (VObj fields)) = Throw e
    /\ (e = Thrown SyntaxError (syntax_error_message (str "[object Object]"))
        \/ e = Thrown TypeError msg_to_primitive)).
  { unfold payload, success. cbn [ok json]. unfold unwrap. cbn [get].
    rewrite Hb. cbn [truthy]. unfold JSON.parse. cbn [to_string].
    destruct (has_field "toString" inner).
    - eexists; split; eauto.
    - rewrite parse_object_text. eexists; split; eauto. }
  destruct Hp as (e & Hp & He).
  rewrite (settle_throw _ _ (started p) e) by now apply try_no_payload.
  cbn [fst status isLoading error clips videoId started].
  destruct He as [-> | ->].
  - pose proof (syntax_error_message_nonempty (str "[object Object]")) as Hne.
    destruct (String.eqb_spec (syntax_error_message (str "[object Object]")) "");
      [contradiction|]. cbn. auto.
  - cbn. auto.
Qed.

(** X14.  For a list of well-formed clips the results section renders:
    nothing at all for the empty list, and otherwise the heading with the
    number of clips and one card per clip, in the order of the payload,
    each card given its raw clip and rendering it. *)
Theorem results_section_lists_every_clip p cs :
  clips p = VArr cs ->
  Forall (fun c => well_formed c = true) cs ->
  match cs with
  | [] => results_shown p = Ok None
  | _ :: _ =>
      exists section views,
        results_shown p = Ok (Some (section, views))
        /\ shown_heading section = heading (VNum (of_nat (length cs)))
        /\ cards section = map card_of cs
        /\ map clip (cards section) = cs
        /\ Forall2 (fun c view => ClipCard.render c ClipCard.unset = Ok view)
             cs views
  end.
Proof.
  intros Hc Hw. unfold results_shown. rewrite (results_section_list p cs Hc).
  destruct cs as [|c cs]; [reflexivity|].
  destruct (get_optional_total (debugData p) "from_cache") as [mark ->].
  rewrite card_elements_ok.
  2:{ eapply List.Forall_impl; [|exact Hw]. apply well_formed_properties. }
  destruct (render_cards_well_formed _ Hw) as (views & Hr & Hv).
  cbn [cards]. rewrite Hr. eexists _, views. split; [reflexivity|].
  cbn [shown_heading cards]. repeat split; try assumption.
  rewrite map_map. cbn [clip card_of]. apply map_id.
Qed.

(** X15.  A [null] among the clips of the payload does not fail the
    submission, which ends [Succeeded] with the list as it came; but
    rendering the results section then throws, on reading [clip_id] from
    [null]. *)
Theorem null_clip_breaks_rendering url responseData data cs p :
  unwrap responseData = Ok data ->
  get data "clips" = Ok (VArr cs) ->
  In VNull cs ->
  let p' := fst (handleSubmit url (success responseData) p) in
  status p' = Succeeded
  /\ clips p' = VArr cs
  /\ exists e, results_section p' = Throw e.
Proof.
  intros Hu Hc Hin. destruct (Submission.clips_array_video_id _ _ Hc) as [v Hv].
  cbv zeta. rewrite (Submission.handleSubmit_success _ _ _ _ _ _ Hu Hc Hv).
  cbn [fst]. repeat split.
  destruct (card_elements_throw cs VNull Hin (or_introl eq_refl)) as [e He].
  exists e.
  match goal with
  | |- results_section ?q = _ => rewrite (results_section_list q cs eq_refl)
  end.
  rewrite He. destruct cs; [destruct Hin|].
  cbn [debugData]. reflexivity.
Qed.

End Engine.

Lemma double_envelope_fails_witness :
  let text1 := JSON.text Sample.batch in
  let text2 := JSON.text (VObj [("body", VStr text1)]) in
  let p' := Sample.after (VObj [("body", VStr text2)]) in
  status p' = Failed
  /\ clips p' = VArr []
  /\ error p' = msg_read_of "undefined" "map".
Proof.
  apply (double_envelope_fails (JSE := Sample.engine) Sample.url Sample.batch
           (JSON.text Sample.batch)
           (JSON.text (VObj [("body", VStr (JSON.text Sample.batch))]))
           initial); reflexivity.
Defined.

Lemma object_body_fails_witness :
  let p' := Sample.after (VObj [("body", Sample.batch)]) in
  status p' = Failed
  /\ clips p' = VArr []
  /\ videoId p' = VStr ""
  /\ (error p'
      = syntax_error_message (Engine := Sample.engine) (str "[object Object]")
      \/ error p' = msg_to_primitive).
Proof.
  apply (object_body_fails (JSE := Sample.engine) Sample.url
           [("body", Sample.batch)]
           [("video_id", VStr "v1");
            ("clips", VArr [Sample.clip_c1; Sample.clip_c2])] initial).
  reflexivity.
Defined.

Lemma results_section_lists_every_clip_witness :
  exists section views,
    results_shown (Sample.after Sample.single) = Ok (Some (section, views))
    /\ shown_heading section = heading (VNum (of_nat 1))
    /\ cards section = map card_of [Sample.clip_c1]
    /\ map clip (cards section) = [Sample.clip_c1]
    /\ Forall2 (fun c view => ClipCard.render c ClipCard.unset = Ok view)
         [Sample.clip_c1] views.
Proof.
  apply (results_section_lists_every_clip (Sample.after Sample.single)
           [Sample.clip_c1]).
  - reflexivity.
  - repeat constructor.
Defined.

Lemma null_clip_breaks_rendering_witness :
  let p' := Sample.after (VObj [("clips", VArr [Sample.clip_c1; VNull])]) in
  status p' = Succeeded
  /\ clips p' = VArr [Sample.clip_c1; VNull]
  /\ exists e, results_section p' = Throw e.
Proof.
  apply (null_clip_breaks_rendering (JSE := Sample.engine) Sample.url
           (VObj [("clips", VArr [Sample.clip_c1; VNull])])
           (VObj [("clips", VArr [Sample.clip_c1; VNull])])
           [Sample.clip_c1; VNull] initial);
    [reflexivity | reflexivity | right; now left].
Defined.

End PayloadFacts.

(** ** More on the clip cards *)

Module CardFacts.
Import JS Handler ClipCard.

(** *** [formatTime] *)

(** The texts [formatTime] gives: whole and fractional seconds, a time
    that is missing, a negative one, and times beyond [2^53], where not
    every whole number is a number. *)
Example formatTime_samples :
  formatTime (VNum (of_Z 75)) = Ok (str "1:15")
  /\ formatTime (VNum (of_Z 3725)) = Ok (str "62:05")
  /\ formatTime (VNum (of_decimal false 125 (-1))) = Ok (str "0:12")
  /\ formatTime (VNum (of_decimal false 5995 (-2))) = Ok (str "0:59")
  /\ formatTime VUndef = Ok (str "NaN:NaN")
  /\ formatTime VNull = Ok (str "0:00")
  /\ formatTime (VNum (of_Z (-135))) = Ok (str "-3:-15")
  /\ formatTime (VNum (of_Z 540431955284459584))
     = Ok (str "9007199254740994:04")
  /\ formatTime (VNum (of_decimal false 1 21))
     = Ok (str "16666666666666666000:40").
Proof. vm_compute. repeat split. Qed.

(** *** [fileName] *)

Lemma last_segment_chars s acc c :
  In c (last_segment s acc) -> In c acc \/ In c s.
Proof.
  revert acc. induction s as [|x s IH]; intros acc; cbn [last_segment].
  - rewrite <- in_rev. auto.
  - destruct (Ascii.eqb x "/").
    + intros H. destruct (IH _ H) as [[]|H']; right; now right.
    + intros H. destruct (IH _ H) as [[<-|H']|H']; auto.
      * right. now left.
      * right. now right.
Qed.

Lemma last_segment_no_slash s acc :
  ~ In "/"%char acc -> ~ In "/"%char (last_segment s acc).
Proof.
  revert acc. induction s as [|x s IH]; intros acc Hacc; cbn [last_segment].
  - now rewrite <- in_rev.
  - destruct (Ascii.eqb_spec x "/"); apply IH; [tauto|].
    intros [E|H]; [congruence | auto].
Qed.

Lemma last_segment_plain s acc :
  ~ In "/"%char s -> last_segment s acc = List.rev acc ++ s.
Proof.
  revert acc. induction s as [|x s IH]; intros acc Hs; cbn [last_segment].
  - now rewrite app_nil_r.
  - destruct (Ascii.eqb_spec x "/") as [->|Hx]; [destruct Hs; now left|].
    rewrite IH by (intros H; apply Hs; now right).
    cbn [List.rev]. now rewrite <- app_assoc.
Qed.

Lemma last_segment_after_slash base name acc :
  ~ In "/"%char name ->
  last_segment (base ++ "/"%char :: name) acc = name.
Proof.
  intros Hn. revert acc. induction base as [|x base IH]; intros acc;
    cbn [List.app last_segment].
  - change (Ascii.eqb "/" "/") with true. cbv iota.
    now rewrite last_segment_plain.
  - destruct (Ascii.eqb x "/"); apply IH.
Qed.

Lemma before_query_chars s c : In c (before_query s) -> In c s /\ c <> "?"%char.
Proof.
  induction s as [|x s IH]; cbn [before_query]; [intros []|].
  destruct (Ascii.eqb_spec x "?") as [->|Hx]; [intros []|].
  intros [<-|H]; [split; [now left | exact Hx]|].
  destruct (IH H). split; [now right | assumption].
Qed.

Lemma before_query_stops name tail :
  ~ In "?"%char name ->
  tail = [] \/ (exists q, tail = "?"%char :: q) ->
  before_query (name ++ tail) = name.
Proof.
  intros Hn Ht. induction name as [|x name IH]; cbn [List.app before_query].
  - destruct Ht as [->|[q ->]]; reflexivity.
  - destruct (Ascii.eqb_spec x "?") as [->|Hx]; [destruct Hn; now left|].
    f_equal. apply IH. intros H. apply Hn. now right.
Qed.

(** X18.  The name a download is saved under is never empty and holds
    neither a slash nor a question mark, whatever the URL of the clip. *)
Theorem fileName_is_clean clip :
  fileName clip <> ""
  /\ ~ In "/"%char (list_ascii_of_string (fileName clip))
  /\ ~ In "?"%char (list_ascii_of_string (fileName clip)).
Proof.
  unfold fileName.
  set (name := before_query
                 (last_segment (list_ascii_of_string (s3_url clip)) [])).
  destruct (truthy (VStr (string_of_list_ascii name))) eqn:Ht.
  - rewrite ObjectFacts.truthy_str in Ht.
    apply negb_true_iff, String.eqb_neq in Ht.
    rewrite list_ascii_of_string_of_list_ascii. split; [exact Ht|].
    split; intros H; apply before_query_chars in H as [H Hq].
    + now apply (last_segment_no_slash _ []) in H.
    + now apply Hq.
  - split; [discriminate|]. cbn. intuition discriminate.
Qed.

(** X19.  For a URL that ends in a slash, a non-empty name and possibly a
    query, the download is saved under that name, provided the query holds
    no slash of its own. *)
Theorem fileName_is_last_segment clip base name tail :
  s3_url clip = (base ++ "/" ++ name ++ tail)%string ->
  name <> "" ->
  ~ In "/"%char (list_ascii_of_string name) ->
  ~ In "?"%char (list_ascii_of_string name) ->
  tail = "" \/ (exists q, tail = String "?" q) ->
  ~ In "/"%char (list_ascii_of_string tail) ->
  fileName clip = name.
Proof.
  intros E Hne Hslash Hq Htail Htslash. unfold fileName. rewrite E.
  rewrite !RegexFacts.chars_append. cbn [list_ascii_of_string List.app].
  rewrite last_segment_after_slash.
  2:{ rewrite in_app_iff. tauto. }
  rewrite before_query_stops; [| exact Hq |].
  2:{ destruct Htail as [->|[q ->]]; [now left | right; now eexists]. }
  rewrite string_of_list_ascii_of_string, ObjectFacts.truthy_str.
  destruct (String.eqb_spec name ""); [contradiction | reflexivity].
Qed.

Lemma fileName_is_last_segment_witness : fileName Sample.card_clip = "c1.mp4".
Proof.
  apply (fileName_is_last_segment Sample.card_clip "https://bucket" "c1.mp4"
           "?sig=k1").
  - reflexivity.
  - discriminate.
  - cbn. intuition discriminate.
  - cbn. intuition discriminate.
  - right. now exists "sig=k1".
  - cbn. intuition discriminate.
Defined.

(** *** The like button *)

(** X20.  After [n] clicks on the heart the card is liked as it was when
    [n] is even and the other way round when [n] is odd; nothing else on
    the card changes. *)
Theorem toggleLike_parity n c :
  let c' := Nat.iter n (fun c => fst (toggleLike c)) c in
  liked (flags c') = (if Nat.even n then liked (flags c)
                      else negb (liked (flags c)))
  /\ loading (flags c') = loading (flags c)
  /\ showPreview (flags c') = showPreview (flags c)
  /\ copied (flags c') = copied (flags c)
  /\ timers c' = timers c /\ trace c' = trace c /\ now c' = now c.
Proof.
  cbv zeta. induction n as [|n IH].
  - cbn. tauto.
  - rewrite Nat.even_succ, <- Nat.negb_even, Nat.iter_succ.
    set (c' := Nat.iter n (fun c => fst (toggleLike c)) c) in *.
    destruct IH as (Hl & H1 & H2 & H3 & H4 & H5 & H6).
    unfold toggleLike, setLiked, modify, with_flags.
    cbn [fst flags liked loading showPreview copied timers trace now].
    rewrite Hl. repeat split; auto.
    destruct (Nat.even n); cbn [negb]; [reflexivity | apply negb_involutive].
Qed.

(** *** The preview *)

(** X21.  With the preview open, exactly three events close it: a click on
    the backdrop, a click on the close button, and the Escape key pressed
    on the close button.  A click on the video or its container, and any
    key pressed elsewhere, Escape included, leave it open; no event on the
    modal changes anything else on the card. *)
Theorem preview_closes_only_on_its_controls ev c :
  showPreview (flags c) = true ->
  let '(c', escaped) := dispatch ev c in
  escaped = Ok tt
  /\ (showPreview (flags c') = false <->
      ev = Click Backdrop \/ ev = Click CloseButton
      \/ ev = KeyDown CloseButton "Escape")
  /\ loading (flags c') = loading (flags c)
  /\ copied (flags c') = copied (flags c)
  /\ liked (flags c') = liked (flags c)
  /\ timers c' = timers c /\ trace c' = trace c.
Proof.
  intros Hs. unfold dispatch. rewrite Hs.
  destruct ev as [[]|[] key]; cbn; rewrite ?Hs;
    try (destruct (String.eqb_spec key "Escape") as [->|Hk]; cbn; rewrite ?Hs);
    repeat split; auto; try discriminate;
    try (intros [H|[H|H]]; discriminate);
    try (intros [H|[H|H]]; congruence).
Qed.

Lemma preview_closes_only_on_its_controls_witness :
  let '(c', escaped) :=
    dispatch (KeyDown Video "Escape") (fst (handlePreview (mount 0))) in
  escaped = Ok tt
  /\ (showPreview (flags c') = false <->
      KeyDown Video "Escape" = Click Backdrop
      \/ KeyDown Video "Escape" = Click CloseButton
      \/ KeyDown Video "Escape" = KeyDown CloseButton "Escape")
  /\ loading (flags c') = loading (flags (fst (handlePreview (mount 0))))
  /\ copied (flags c') = copied (flags (fst (handlePreview (mount 0))))
  /\ liked (flags c') = liked (flags (fst (handlePreview (mount 0))))
  /\ timers c' = timers (fst (handlePreview (mount 0)))
  /\ trace c' = trace (fst (handlePreview (mount 0))).
Proof.
  apply (preview_closes_only_on_its_controls (KeyDown Video "Escape")
           (fst (handlePreview (mount 0)))).
  reflexivity.
Defined.

(** *** The copied mark and its timers *)

Lemma fire_eq due c :
  fire due c = match due with [] => c | _ :: _ => reset_copied c end.
Proof.
  revert c. induction due as [|[t []] due IH]; intros c; [reflexivity|].
  unfold fire in *. cbn [fold_left snd run_callback]. rewrite IH.
  destruct due; reflexivity.
Qed.

Lemma advance_eq ms c :
  advance ms c =
  fire (List.filter (fun x => (fst x <=? now c + ms)%Z) (timers c))
    {| flags := flags c; now := (now c + ms)%Z;
       timers := List.filter (fun x => negb (fst x <=? now c + ms)%Z) (timers c);
       trace := trace c |}.
Proof. reflexivity. Qed.

Lemma filter_later (t1 t2 : Z) (l : list (Z * callback)) :
  (t1 <= t2)%Z ->
  List.filter (fun x => negb (fst x <=? t2)%Z)
    (List.filter (fun x => negb (fst x <=? t1)%Z) l)
  = List.filter (fun x => negb (fst x <=? t2)%Z) l.
Proof.
  intros H. induction l as [|x l IH]; [reflexivity|]. cbn [List.filter].
  destruct (Z.leb_spec (fst x) t1); cbn [negb List.filter].
  - destruct (Z.leb_spec (fst x) t2); [exact IH | lia].
  - now rewrite IH.
Qed.

Lemma filter_due_nil (t1 t2 : Z) (l : list (Z * callback)) :
  (t1 <= t2)%Z ->
  (List.filter (fun x => (fst x <=? t2)%Z) l = [] <->
   List.filter (fun x => (fst x <=? t1)%Z) l = []
   /\ List.filter (fun x => (fst x <=? t2)%Z)
        (List.filter (fun x => negb (fst x <=? t1)%Z) l) = []).
Proof.
  intros H. induction l as [|x l IH]; [tauto|]. cbn [List.filter].
  destruct (Z.leb_spec (fst x) t1), (Z.leb_spec (fst x) t2);
    cbn [negb List.filter]; try lia.
  - split; [discriminate | intros [? _]; discriminate].
  - destruct (Z.leb_spec (fst x) t2); [|lia].
    split; [discriminate | intros [_ ?]; discriminate].
  - destruct (Z.leb_spec (fst x) t2); [lia | exact IH].
Qed.

(** Time passes in steps as it passes at once. *)
Lemma advance_advance a b c :
  (0 <= b)%Z -> advance b (advance a c) = advance (a + b) c.
Proof.
  intros Hb. rewrite (advance_eq a c), !fire_eq.
  set (t1 := (now c + a)%Z). set (t2 := (now c + (a + b))%Z).
  assert (Ht : (t1 + b = t2)%Z) by (unfold t1, t2; lia).
  assert (Hle : (t1 <= t2)%Z) by lia.
  pose proof (filter_due_nil t1 t2 (timers c) Hle) as Hnil.
  pose proof (filter_later t1 t2 (timers c) Hle) as Hlater.
  rewrite (advance_eq (a + b) c). fold t2. rewrite fire_eq.
  destruct (List.filter (fun x => (fst x <=? t1)%Z) (timers c)) as [|x1 l1] eqn:E1;
    rewrite advance_eq, fire_eq; cbn [now timers flags trace reset_copied setCopied
      modify with_flags fst]; rewrite Ht, Hlater;
    destruct (List.filter (fun x => (fst x <=? t2)%Z)
                (List.filter (fun x => negb (fst x <=? t1)%Z) (timers c)))
      as [|x2 l2] eqn:E2;
    destruct (List.filter (fun x => (fst x <=? t2)%Z) (timers c))
      as [|x3 l3] eqn:E3;
    try reflexivity;
    try (exfalso; destruct Hnil as [Hn1 Hn2];
         first [ specialize (Hn1 eq_refl); destruct Hn1; discriminate
               | specialize (Hn2 (conj eq_refl eq_refl)); discriminate ]).
Qed.

(** X22.  Copying a second time [d] ms after the first, with [d] under
    2000, does not extend the mark: it goes out when the first timer fires,
    [2000 - d] ms after the second copy, while the timer of the second copy
    is still pending. *)
Theorem second_copy_is_cut_short clip f1 f2 d c :
  timers c = [] -> (0 < d < 2000)%Z ->
  let c1 := fst (copyUrl clip (Clipboard f1) c) in
  let c2 := fst (copyUrl clip (Clipboard f2) (advance d c1)) in
  let c3 := advance (2000 - d) c2 in
  copied (flags c2) = true
  /\ now c3 = (now c2 + (2000 - d))%Z
  /\ copied (flags c3) = false
  /\ timers c3 = [((now c2 + 2000)%Z, ResetCopied)].
Proof.
  intros Ht Hd. destruct c as [fl nw tm tr]. cbn [timers] in Ht. subst tm.
  cbv zeta. unfold advance. cbn.
  repeat match goal with
  | |- context [(?a <=? ?b)%Z] => destruct (Z.leb_spec a b); try lia; cbn
  end.
  auto.
Qed.

Lemma second_copy_is_cut_short_witness :
  let c1 := fst (copyUrl Sample.card_clip (Clipboard true) (mount 0)) in
  let c2 :=
    fst (copyUrl Sample.card_clip (Clipboard true) (advance 1500 c1)) in
  let c3 := advance (2000 - 1500) c2 in
  copied (flags c2) = true
  /\ now c3 = (now c2 + (2000 - 1500))%Z
  /\ copied (flags c3) = false
  /\ timers c3 = [((now c2 + 2000)%Z, ResetCopied)].
Proof.
  apply (second_copy_is_cut_short Sample.card_clip true true 1500 (mount 0));
    [reflexivity | lia].
Defined.

End CardFacts.

